(** * audioaliasingmetrics: SNR and SINAD from spectral data

    A shallow embedding of [audioaliasingmetrics/utils.py], [snr.py] and
    [sinad.py], and the properties of the peak search, the skirt walk and the
    power partition that the specification states.

    Conventions of the embedding.
    - A numpy array of floats is a [list Q]: spectrum values, frequencies and
      powers are exact rationals.  The development is about which bins are
      visited, kept and summed; rounding and overflow of floats are outside
      its scope.  The hint bin of [find_peak_bin_from_freq] is thus the floor
      of the exact product; what is proved of the search that follows
      ([search_window]) is proved for every hint bin.
    - Python integers and bin indices are [Z] (a spectrum has far fewer than
      2^31 bins); the conversion of a list of harmonics to [np.int32] is
      [Np.array_int32].
    - An exception is a value of [exn]; a computation that can raise returns a
      [result].
    - The jitted kernels read their arrays unchecked.  Where the code guards
      a read itself (the walks of [find_peak_bins]) or reads at a bin it has
      located, the read is [getitem], which raises as the interpreter does
      outside the array.  The one read that the code lets run past the end
      of a view, in [is_peak], is modelled as the unchecked read it is: it
      yields what the memory holds there (see [peek]).
    - The arrays the caller passes to [snr] and [sinad] live in a [heap] and
      are passed by location, so that in-place updates and aliasing show. *)

From Stdlib Require Import ZArith QArith Qround Lia String.
From Stdlib Require Import DecimalString.
From stdpp Require Import base option list gmap sorting.

Local Open Scope Z_scope.

(** ** Exceptions and results *)

Inductive exn : Type :=
| ValueError (msg : string)
| IndexError
| ZeroDivisionError
| TypeError
| OverflowError
| TypingError.

Inductive result (A : Type) : Type :=
| Ok (a : A)
| Raise (e : exn).
Arguments Ok {A} a.
Arguments Raise {A} e.

#[export] Instance result_ret : MRet result := fun A a => Ok a.
#[export] Instance result_bind : MBind result := fun A B f m =>
  match m with
  | Ok a => f a
  | Raise e => Raise e
  end.

Definition is_ok {A} (r : result A) : bool :=
  match r with Ok _ => true | Raise _ => false end.

(** ** The numpy and Python primitives the package uses *)

Definition Qgtb (x y : Q) : bool := negb (Qle_bool x y).

(** [x / y] on floats: a zero divisor raises. *)
Definition fdiv (x y : Q) : result Q :=
  if Qeq_bool y 0 then Raise ZeroDivisionError else Ok (x / y)%Q.

(** [10 * np.log10(x)], kept symbolic: the logarithm of a rational is not
    one. *)
Inductive dB : Type :=
| TenLog10 (x : Q).

(** ["{}".format(n)] *)
Definition format_int (n : Z) : string := NilZero.string_of_int (Z.to_int n).

Definition len {A} (a : list A) : Z := Z.of_nat (length a).

(** [range(n)] *)
Definition range (n : Z) : list Z := seqZ 0 n.

(** An index as Python resolves it: a negative one counts from the end. *)
Definition norm_index (n i : Z) : result Z :=
  let j := if i <? 0 then i + n else i in
  if (0 <=? j) && (j <? n) then Ok j else Raise IndexError.

(** [a[i]] *)
Definition getitem {A} (a : list A) (i : Z) : result A :=
  j ← norm_index (len a) i;
  match a !! Z.to_nat j with
  | Some x => Ok x
  | None => Raise IndexError
  end.

(** A slice bound as Python resolves it: wrapped once, then clipped. *)
Definition clip_index (n i : Z) : Z :=
  if i <? 0 then Z.max (i + n) 0 else Z.min i n.

(** [a[lo:hi]] *)
Definition slice {A} (a : list A) (lo hi : Z) : list A :=
  let l := clip_index (len a) lo in
  let h := clip_index (len a) hi in
  take (Z.to_nat (h - l)) (drop (Z.to_nat l) a).

(** [a[lo:]] *)
Definition slice_from {A} (a : list A) (lo : Z) : list A :=
  slice a lo (len a).

(** The float at offset [j] from the start of the array [a], where [beyond]
    tells what the memory holds at the offsets that [a] does not cover. *)
Definition mem (beyond : Z -> Q) (a : list Q) (j : Z) : Q :=
  if j <? 0 then beyond j
  else match a !! Z.to_nat j with
       | Some x => x
       | None => beyond j
       end.

(** [a[i]] in a jitted kernel: a negative index counts from the end, and the
    read is not checked. *)
Definition peek (beyond : Z -> Q) (a : list Q) (i : Z) : Q :=
  mem beyond a (if i <? 0 then i + len a else i).

(** What lies beyond the view [a[lo:hi]]: the rest of [a], then what lies
    beyond [a]. *)
Definition view_beyond (beyond : Z -> Q) (a : list Q) (lo : Z) : Z -> Q :=
  fun j => mem beyond a (clip_index (len a) lo + j).

(** The memory past the end of an array that the package was given or has
    made is not known.  [find_nearest_peak_around], the one function that
    reads it, returns the same bin whatever it holds
    ([find_nearest_peak_around_memory] below, for every [beyond]; a NaN
    there compares like a value that is not below), so its callers are run
    on zeros. *)
Definition zeros : Z -> Q := fun _ => 0%Q.

Module Np.

(** [np.sum(a)]: accumulated from the left, starting at zero. *)
Definition sum (a : list Q) : Q := fold_left Qplus a 0%Q.

(** [np.square(a)] *)
Definition square (a : list Q) : list Q := (fun x => x * x)%Q <$> a.

(** [a[idx]] with an integer array [idx] *)
Definition take_ (a : list Q) (idx : list Z) : result (list Q) :=
  mapM (getitem a) idx.

(** The elements of [a], numbered from [i], whose number is not in [idx]. *)
Fixpoint keep_from (i : Z) (idx : list Z) (a : list Q) : list Q :=
  match a with
  | [] => []
  | x :: r =>
      if bool_decide (i ∈ idx) then keep_from (i + 1) idx r
      else x :: keep_from (i + 1) idx r
  end.

(** [np.delete(a, obj)]: a mask over [a] is cleared at every index of
    [obj], and the elements still masked are kept. *)
Definition delete (a : list Q) (obj : list Z) : result (list Q) :=
  idx ← mapM (norm_index (len a)) obj;
  Ok (keep_from 0 idx a).

(** The position of the first maximum, with the maximum, of [x :: a]. *)
Fixpoint argmax_from (i : Z) (best : Z) (m : Q) (a : list Q) : Z :=
  match a with
  | [] => best
  | x :: r =>
      if Qgtb x m then argmax_from (i + 1) i x r
      else argmax_from (i + 1) best m r
  end.

(** [np.argmax(a)] *)
Definition argmax (a : list Q) : result Z :=
  match a with
  | [] => Raise (ValueError "attempt to get argmax of an empty sequence")
  | x :: r => Ok (argmax_from 1 0 x r)
  end.

(** [a - b] on arrays, with the broadcast of a one-element array. *)
Definition subtract (a b : list Q) : result (list Q) :=
  if len a =? len b then Ok (zip_with Qminus a b)
  else
    match a, b with
    | [x], _ => Ok ((fun y => x - y)%Q <$> b)
    | _, [y] => Ok ((fun x => x - y)%Q <$> a)
    | _, _ => Raise (ValueError "operands could not be broadcast together")
    end.

(** [np.concatenate((a, b))] and [np.append(a, b)] *)
Definition concatenate (a b : list Z) : list Z := a ++ b.

(** [np.arange(start, stop, step)] for a positive [step] *)
Definition arange (start stop step : Z) : list Z :=
  (fun k => start + k * step) <$> range ((stop - start + step - 1) / step).

(** [np.sort(a)] *)
Definition sort (a : list Z) : list Z := merge_sort Z.le a.

(** [np.array(a, dtype=np.int32)] on a list of Python integers: numpy 2
    refuses an integer that does not fit (numpy 1 wrapped it around). *)
Definition array_int32 (a : list Z) : result (list Z) :=
  if forallb (fun x => (-2147483648 <=? x) && (x <=? 2147483647)) a
  then Ok a
  else Raise OverflowError.

End Np.

(** ** utils.py *)

Module Utils.

Inductive Harmonics : Type := ALL | ODD | EVEN.

Definition compute_harmonics (self : Harmonics) (fundamental samplerate : Q)
    : result (list Z) :=
  let nyquist := (samplerate / 2)%Q in
  match self with
  | ALL =>
      q ← fdiv nyquist fundamental;
      Ok (Np.arange 2 (Qfloor q + 1) 1)
  | ODD =>
      q ← fdiv nyquist fundamental;
      Ok (Np.arange 3 (Qfloor q + 1) 2)
  | EVEN =>
      q ← fdiv nyquist fundamental;
      Ok (Np.arange 2 (Qfloor q + 1) 2)
  end.

(** The three reads are unchecked: on a view of fewer than three floats
    they yield what lies [beyond] it. *)
Definition is_peak (beyond : Z -> Q) (slice_of_3 : list Q) : bool :=
  if Qgtb (peek beyond slice_of_3 1) (peek beyond slice_of_3 0)
  then Qgtb (peek beyond slice_of_3 1) (peek beyond slice_of_3 2)
  else false.

(** The loop of [find_nearest_peak_around]: [Some] is its early return. *)
Fixpoint nearest_loop (beyond : Z -> Q) (ps_slice : list Q) (center : Z)
    (steps : list Z) : option Z :=
  match steps with
  | [] => None
  | i :: rest =>
      (* right side first *)
      let right_idx := center + i in
      if (right_idx + 1 <? len ps_slice)
         && is_peak (view_beyond beyond ps_slice (right_idx - 1))
              (slice ps_slice (right_idx - 1) (right_idx + 2))
      then Some right_idx
      else
        (* left side then *)
        let left_idx := center - i in
        if (left_idx - 1 >=? 0)
           && is_peak (view_beyond beyond ps_slice (left_idx - 1))
                (slice ps_slice (left_idx - 1) (left_idx + 2))
        then Some left_idx
        else nearest_loop beyond ps_slice center rest
  end.

(** The argument [center] is overwritten on entry, as in the source;
    [beyond] is the memory around [ps_slice]. *)
Definition find_nearest_peak_around (beyond : Z -> Q) (ps_slice : list Q)
    (center : Z) (search_width : Z) : result Z :=
  let center := len ps_slice / 2 in
  match nearest_loop beyond ps_slice center (range search_width) with
  | Some idx => Ok idx
  | None => (* fallback *) Np.argmax ps_slice
  end.

(** The default of [search_width_hz] in [find_peak_bin_from_freq]. *)
Definition default_search_width_hz : Q := 10.

(** Lines 72 to 84 of [find_peak_bin_from_freq]: the search, once the hint
    bin and the half-width of the window are computed. *)
Definition search_window (hint_idx search_width : Z) (ps : list Q)
    : result Z :=
  let num_bins := len ps in
  let left_limit := hint_idx - search_width in
  let search_center := search_width in
  let '(search_center, left_limit) :=
    if left_limit <? 0 then (search_center + left_limit, 0)
    else (search_center, left_limit) in
  let right_limit := Z.min num_bins (hint_idx + search_width + 1) in
  let search_slice := slice ps left_limit right_limit in
  found ← find_nearest_peak_around (view_beyond zeros ps left_limit)
             search_slice search_center search_width;
  Ok (found + hint_idx - search_width).

Definition find_peak_bin_from_freq (freq_hint : Q) (ps : list Q) (sr : Q)
    (search_width_hz : Q) : result Z :=
  let num_bins := len ps in
  ratio ← fdiv (2 * freq_hint) sr;
  let hint_idx := Qfloor (ratio * inject_Z (num_bins - 1)) in
  width ← fdiv search_width_hz (sr / 2);
  let search_width := Qceiling (width * inject_Z (num_bins - 1)) in
  search_window hint_idx search_width ps.

(** The left walk of [find_peak_bins]: [steps] are the values of the loop
    variable still to run. *)
Fixpoint walk_before (ps : list Q) (peak_idx : Z) (crt_val : Q)
    (steps : list Z) (peak_bins : list Z) : result (list Z) :=
  match steps with
  | [] => Ok peak_bins
  | i :: rest =>
      let new_bin := peak_idx - i in
      if new_bin <? 0 then Ok peak_bins
      else
        new_val ← getitem ps new_bin;
        if Qgtb new_val crt_val then Ok peak_bins
        else walk_before ps peak_idx new_val rest (peak_bins ++ [new_bin])
  end.

(** The right walk of [find_peak_bins]. *)
Fixpoint walk_after (ps : list Q) (peak_idx : Z) (crt_val : Q)
    (steps : list Z) (peak_bins : list Z) : result (list Z) :=
  match steps with
  | [] => Ok peak_bins
  | i :: rest =>
      let new_bin := peak_idx + i in
      if new_bin >=? len ps then Ok peak_bins
      else
        new_val ← getitem ps new_bin;
        if Qgtb new_val crt_val then Ok peak_bins
        else walk_after ps peak_idx new_val rest (peak_bins ++ [new_bin])
  end.

(** The default of [search_width] in [find_peak_bins]. *)
Definition default_search_width : Z := 1000.

Definition find_peak_bins (peak_idx : Z) (ps : list Q) (search_width : Z)
    : result (list Z) :=
  peak ← getitem ps peak_idx;
  (* Find values before peak *)
  peak_bins ← walk_before ps peak_idx peak (range search_width) [];
  (* Find values after peak *)
  walk_after ps peak_idx peak (range search_width) peak_bins.

End Utils.
Import Utils.

(** ** The caller's arrays *)

Definition loc : Type := positive.
Abbreviation heap := (gmap loc (list Q)).

(** A computation over the heap that can raise; the heap survives a raise. *)
Definition M (A : Type) : Type := heap -> result A * heap.

#[export] Instance M_ret : MRet M := fun A a h => (Ok a, h).
#[export] Instance M_bind : MBind M := fun A B f m h =>
  match m h with
  | (Ok a, h') => f a h'
  | (Raise e, h') => (Raise e, h')
  end.

Definition lift {A} (r : result A) : M A := fun h => (r, h).
Definition raise {A} (e : exn) : M A := fun h => (Raise e, h).

(** The array at [l]; an argument that is no array is a [TypeError]. *)
Definition read (l : loc) : M (list Q) := fun h =>
  match h !! l with
  | Some a => (Ok a, h)
  | None => (Raise TypeError, h)
  end.

Definition write (l : loc) (a : list Q) : M unit := fun h =>
  (Ok tt, <[l := a]> h).

(** The call of a jitted kernel types its arguments before the body runs:
    one that is no array is refused there. *)
Definition typed (l : loc) : M unit := fun h =>
  match h !! l with
  | Some _ => (Ok tt, h)
  | None => (Raise TypingError, h)
  end.

(** The [harmonics] argument of [snr] and [sinad]. *)
Inductive harmonics_arg : Type :=
| Policy (p : Harmonics)
| Explicit (l : list Z).

(** ** snr.py *)

Module Snr.

(** The loop over [harmonics] of [inner_snr], from the bins gathered so
    far. *)
Fixpoint harmonics_loop (periodigram : list Q) (samplerate fundamental : Q)
    (harmonics : list Z) (harmonics_bins : list Z) : result (list Z) :=
  match harmonics with
  | [] => Ok harmonics_bins
  | harmonic_factor :: rest =>
      let harmonic := (inject_Z harmonic_factor * fundamental)%Q in
      harmonic_bin ←
        find_peak_bin_from_freq harmonic periodigram samplerate
          default_search_width_hz;
      bins ← find_peak_bins harmonic_bin periodigram default_search_width;
      harmonics_loop periodigram samplerate fundamental rest
        (Np.concatenate harmonics_bins bins)
  end.

(** The locals of [inner_snr] before its last line. *)
Record locals : Type := {
  fund_peak_bins : list Z;
  harmonics_bins : list Z;
  signal_bins : list Z;
  signal_power : Q;
  to_delete : list Z;
  noise_power : Q
}.

Definition inner_snr_locals (periodigram : list Q)
    (samplerate fundamental : Q) (harmonics : list Z)
    (harmonics_excluded : bool) : result locals :=
  (* Find all the bins of the fundamental *)
  fund_bin ←
    find_peak_bin_from_freq fundamental periodigram samplerate
      default_search_width_hz;
  fund_peak_bins ← find_peak_bins fund_bin periodigram default_search_width;
  (* Find all the bins of the harmonics *)
  harmonics_bins ←
    harmonics_loop periodigram samplerate fundamental harmonics [];
  (* Compute the signal power *)
  let signal_bins :=
    if harmonics_excluded then fund_peak_bins
    else Np.concatenate fund_peak_bins harmonics_bins in
  signal ← Np.take_ periodigram signal_bins;
  let signal_power := Np.sum signal in
  (* Compute the noise power *)
  let to_delete := Np.concatenate fund_peak_bins harmonics_bins in
  noise ← Np.delete periodigram to_delete;
  let noise_power := Np.sum (slice_from noise 1) in
  Ok {| fund_peak_bins := fund_peak_bins;
        harmonics_bins := harmonics_bins;
        signal_bins := signal_bins;
        signal_power := signal_power;
        to_delete := to_delete;
        noise_power := noise_power |}.

Definition inner_snr (periodigram : list Q) (samplerate fundamental : Q)
    (harmonics : list Z) (harmonics_excluded : bool) : result dB :=
  v ← inner_snr_locals periodigram samplerate fundamental harmonics
        harmonics_excluded;
  ratio ← fdiv (signal_power v) (noise_power v);
  Ok (TenLog10 ratio).

Definition snr (magnitude : loc) (samplerate fundamental : Q)
    (harmonics : harmonics_arg) (harmonics_excluded : bool) : M dB :=
  if Qle_bool samplerate 0 then raise (ValueError "Invalid samplerate value")
  else if Qle_bool fundamental 0 || Qgtb fundamental (samplerate / 2)
  then raise (ValueError "Invalid fundamental value")
  else
    (* Build the harmonic vector *)
    harmonics ←
      match harmonics with
      | Explicit harmonics =>
          (* Convert to numpy if needed *)
          harmonics ← lift (Np.array_int32 harmonics);
          if len harmonics >? 0 then
            (* Sort if needed *)
            let harmonics := Np.sort harmonics in
            lowest ← lift (getitem harmonics 0);
            if lowest <? 2 then
              raise (ValueError "Harmonics values must be >=2")
            else
              q ← lift (fdiv (samplerate / 2) fundamental);
              let top_harmonic := Qfloor q in
              highest ← lift (getitem harmonics (-1));
              if highest >? top_harmonic then
                raise (ValueError (String.append
                  "Given your fundamental, the highest harmonic value should be "
                  (format_int top_harmonic)))
              else mret harmonics
          else mret harmonics
      | Policy harmonics =>
          lift (compute_harmonics harmonics fundamental samplerate)
      end;
    magnitude ← read magnitude;
    lift (inner_snr (Np.square magnitude) samplerate fundamental harmonics
            harmonics_excluded).

End Snr.

(** ** sinad.py *)

Module Sinad.

(** The loop over [harmonics] of [inner_sinad], from the bins gathered so
    far. *)
Fixpoint harmonics_loop (psd_clean psd_noisy : list Q)
    (samplerate fundamental : Q) (harmonics : list Z)
    (harmonics_bins : list Z) : result (list Z) :=
  match harmonics with
  | [] => Ok harmonics_bins
  | harmonic_factor :: rest =>
      let harmonic := (inject_Z harmonic_factor * fundamental)%Q in
      harmonic_bin ←
        find_peak_bin_from_freq harmonic psd_clean samplerate
          default_search_width_hz;
      bins ← find_peak_bins harmonic_bin psd_noisy default_search_width;
      harmonics_loop psd_clean psd_noisy samplerate fundamental rest
        (Np.concatenate harmonics_bins bins)
  end.

(** The locals of [inner_sinad] before its last line. *)
Record locals : Type := {
  fund_peak_bins : list Z;
  mag_sum_noised : Q;
  mag_sum_clean : Q;
  mag_ratio : Q;
  psd_clean : list Q;
  psd_noise : list Q;
  psd_noisy : list Q;
  harmonics_bins : list Z;
  signal_power : Q;
  nad_power : Q
}.

Definition inner_sinad_locals (noisy_magnitudes clean_magnitudes : loc)
    (samplerate fundamental : Q) (harmonics : list Z) : M locals :=
  typed noisy_magnitudes;;
  typed clean_magnitudes;;
  (* Normalize according to the magnitude of the fundamental *)
  noisy ← read noisy_magnitudes;
  fund_bin ←
    lift (find_peak_bin_from_freq fundamental noisy samplerate
            default_search_width_hz);
  fund_peak_bins ← lift (find_peak_bins fund_bin noisy default_search_width);
  first ← lift (getitem fund_peak_bins 0);
  last ← lift (getitem fund_peak_bins (-1));
  let mag_sum_noised := Np.sum (slice noisy first last) in
  clean ← read clean_magnitudes;
  let mag_sum_clean := Np.sum (slice clean first last) in
  mag_ratio ← lift (fdiv mag_sum_noised mag_sum_clean);
  write noisy_magnitudes ((fun x => x * mag_ratio)%Q <$> noisy);;
  noisy ← read noisy_magnitudes;
  clean ← read clean_magnitudes;
  noise_magnitudes ← lift (Np.subtract noisy clean);
  (* Compute the PSD after normalization *)
  let psd_clean := Np.square clean in
  let psd_noise := Np.square noise_magnitudes in
  let psd_noisy := Np.square noisy in
  (* Find all the bins of the harmonics *)
  harmonics_bins ←
    lift (harmonics_loop psd_clean psd_noisy samplerate fundamental
            harmonics []);
  (* Compute the signal power *)
  let signal_bins := Np.concatenate fund_peak_bins harmonics_bins in
  signal ← lift (Np.take_ psd_clean signal_bins);
  let signal_power := Np.sum signal in
  (* Compute the noise & distortion power *)
  nad ← lift (Np.delete psd_noise fund_peak_bins);
  let nad_power := Np.sum (slice_from nad 1) in
  mret {| fund_peak_bins := fund_peak_bins;
          mag_sum_noised := mag_sum_noised;
          mag_sum_clean := mag_sum_clean;
          mag_ratio := mag_ratio;
          psd_clean := psd_clean;
          psd_noise := psd_noise;
          psd_noisy := psd_noisy;
          harmonics_bins := harmonics_bins;
          signal_power := signal_power;
          nad_power := nad_power |}.

Definition inner_sinad (noisy_magnitudes clean_magnitudes : loc)
    (samplerate fundamental : Q) (harmonics : list Z) : M dB :=
  v ← inner_sinad_locals noisy_magnitudes clean_magnitudes samplerate
        fundamental harmonics;
  ratio ← lift (fdiv (signal_power v + nad_power v) (nad_power v));
  mret (TenLog10 ratio).

Definition sinad (noisy_magnitudes clean_magnitudes : loc)
    (samplerate fundamental : Q) (harmonics : harmonics_arg) : M dB :=
  if Qle_bool samplerate 0 then raise (ValueError "Invalid samplerate value")
  else if Qle_bool fundamental 0 || Qgtb fundamental (samplerate / 2)
  then raise (ValueError "Invalid fundamental value")
  else
    (* Build the harmonic vector *)
    harmonics ←
      match harmonics with
      | Explicit harmonics =>
          (* Convert to numpy if needed *)
          harmonics ← lift (Np.array_int32 harmonics);
          if len harmonics >? 0 then
            (* Sort if needed *)
            let harmonics := Np.sort harmonics in
            lowest ← lift (getitem harmonics 0);
            if lowest <? 2 then
              raise (ValueError "Harmonics values must be >=2")
            else
              q ← lift (fdiv (samplerate / 2) fundamental);
              let top_harmonic := Qfloor q in
              highest ← lift (getitem harmonics (-1));
              if highest >? top_harmonic then
                raise (ValueError (String.append
                  "Given your fundamental, the highest harmonic value should be "
                  (format_int top_harmonic)))
              else mret harmonics
          else mret harmonics
      | Policy harmonics =>
          lift (compute_harmonics harmonics fundamental samplerate)
      end;
    inner_sinad noisy_magnitudes clean_magnitudes samplerate fundamental
      harmonics.

End Sinad.

(** ** Vocabulary of the specification *)

(** How often bin [b] occurs in the array [bins]. *)
Definition occurrences (b : Z) (bins : list Z) : nat :=
  length (filter (fun x => x = b) bins).

(** What a read of bin [b] yields; zero stands for a read that raises. *)
Definition value_at (ps : list Q) (b : Z) : Q :=
  match getitem ps b with
  | Ok x => x
  | Raise _ => 0%Q
  end.

(** The sum of [ps] over the array [bins], a bin as often as it is listed. *)
Definition sum_over (ps : list Q) (bins : list Z) : Q :=
  Np.sum (value_at ps <$> bins).

(** The sum of [ps] over the set of the bins in [bins], each bin once. *)
Definition sum_over_set (ps : list Q) (bins : list Z) : Q :=
  sum_over ps (remove_dups bins).

(** The bins of a spectrum of [n] bins that are neither in [excluded] nor
    the DC bin. *)
Definition noise_bins (n : Z) (excluded : list Z) : list Z :=
  filter (fun b => (b ∉ excluded) /\ b <> 0) (range n).

(** The sum of [ps] over the set of the bins in [bins], each bin weighted
    by how often [bins] lists it. *)
Definition sum_with_multiplicity (ps : list Q) (bins : list Z) : Q :=
  Np.sum ((fun b => inject_Z (Z.of_nat (occurrences b bins)) * value_at ps b)%Q
            <$> remove_dups bins).

(** The skirts of the harmonics, one after the other: the peak of each
    harmonic is located in [reference], its skirt is walked in [measured]. *)
Definition harmonic_skirts (reference measured : list Q)
    (samplerate fundamental : Q) (harmonics : list Z) : result (list Z) :=
  skirts ←
    mapM (fun factor =>
            peak ← find_peak_bin_from_freq (inject_Z factor * fundamental)
                     reference samplerate default_search_width_hz;
            find_peak_bins peak measured default_search_width)
         harmonics;
  Ok (concat skirts).

(** The bin of the frequency hint and the half-width of the search window,
    in bins, as [find_peak_bin_from_freq] computes them. *)
Definition hint_index (freq_hint : Q) (ps : list Q) (sr : Q) : Z :=
  Qfloor (2 * freq_hint / sr * inject_Z (len ps - 1)).

Definition window_half_width (search_width_hz : Q) (ps : list Q) (sr : Q) : Z :=
  Qceiling (search_width_hz / (sr / 2) * inject_Z (len ps - 1)).

(** Bin [k] of [s] is a strict local maximum: it has both neighbours and is
    strictly higher than each. *)
Definition strict_peak (s : list Q) (k : Z) : Prop :=
  1 <= k /\ k + 1 < len s /\
  (value_at s (k - 1) < value_at s k)%Q /\
  (value_at s (k + 1) < value_at s k)%Q.

(** Bin [k] of [s] holds the first maximum of [s]. *)
Definition first_maximum (s : list Q) (k : Z) : Prop :=
  0 <= k < len s /\
  (forall j, 0 <= j < len s -> (value_at s j <= value_at s k)%Q) /\
  (forall j, 0 <= j < k -> (value_at s j < value_at s k)%Q).

(** The gain of the specification: the sums of the noisy and of the clean
    magnitudes over the span from the lowest to the highest bin of the
    skirt. *)
Definition span_gain (noisy clean : list Q) (skirt : list Z) : result Q :=
  let sorted := Np.sort skirt in
  lowest ← getitem sorted 0;
  highest ← getitem sorted (-1);
  fdiv (Np.sum (slice noisy lowest (highest + 1)))
       (Np.sum (slice clean lowest (highest + 1))).

(** [gain] is the gain that [inner_sinad] computes from the heap [h]: the
    array [noisy] at [nl] and the array at [cl], summed from the first to
    the last element of the skirt of the fundamental, which is searched in
    [noisy]. *)
Definition computed_gain (nl cl : loc) (sr f : Q) (h : heap)
    (noisy : list Q) (gain : Q) : Prop :=
  exists clean fund_bin skirt first last,
    h !! nl = Some noisy /\ h !! cl = Some clean /\
    find_peak_bin_from_freq f noisy sr default_search_width_hz = Ok fund_bin /\
    find_peak_bins fund_bin noisy default_search_width = Ok skirt /\
    getitem skirt 0 = Ok first /\ getitem skirt (-1) = Ok last /\
    fdiv (Np.sum (slice noisy first last)) (Np.sum (slice clean first last))
    = Ok gain.

(** The array [a], each element multiplied by [gain]. *)
Definition scaled (gain : Q) (a : list Q) : list Q :=
  (fun x => x * gain)%Q <$> a.

(** An explicit list of harmonics whose elements all fit [np.int32]. *)
Definition int32 (x : Z) : Prop := -2147483648 <= x <= 2147483647.

Definition fits_int32 (harmonics : harmonics_arg) : Prop :=
  match harmonics with
  | Explicit l => Forall int32 l
  | Policy _ => True
  end.

(** The arguments that the specification has [snr] and [sinad] reject. *)
Definition invalid_parameters (samplerate fundamental : Q)
    (harmonics : harmonics_arg) : Prop :=
  (samplerate <= 0)%Q \/ (fundamental <= 0)%Q \/
  (samplerate / 2 < fundamental)%Q \/
  match harmonics with
  | Explicit l =>
      l <> [] /\
      exists x, x ∈ l /\ (x < 2 \/ Qfloor (samplerate / 2 / fundamental) < x)
  | Policy _ => False
  end.

(** The message of the error for a harmonic above [top_harmonic]. *)
Definition top_harmonic_message (top_harmonic : Z) : string :=
  String.append
    "Given your fundamental, the highest harmonic value should be "
    (format_int top_harmonic).

(** The errors that the validation of [snr] and [sinad] raises. *)
Definition validation_error (samplerate fundamental : Q) (e : exn) : Prop :=
  e = ValueError "Invalid samplerate value" \/
  e = ValueError "Invalid fundamental value" \/
  e = ValueError "Harmonics values must be >=2" \/
  e = ValueError
        (top_harmonic_message (Qfloor (samplerate / 2 / fundamental))).

(** A run that ends in a validation error. *)
Definition raises_validation_error {A} (samplerate fundamental : Q)
    (run : result A * heap) : Prop :=
  exists e, validation_error samplerate fundamental e /\ run.1 = Raise e.

(** The errors of the kernels and of the reads of the arguments. *)
Definition kernel_error (e : exn) : Prop :=
  match e with
  | ValueError msg =>
      msg = "attempt to get argmax of an empty sequence"%string \/
      msg = "operands could not be broadcast together"%string
  | _ => True
  end.

(** A result that, if it is an error, is one of [P]. *)
Definition raises_only {A} (P : exn -> Prop) (r : result A) : Prop :=
  match r with
  | Ok _ => True
  | Raise e => P e
  end.

(** A computation that leaves the heap as it found it, whatever it returns. *)
Definition heap_stable {A} (m : M A) : Prop := forall h, (m h).2 = h.

(** A computation over the heap that, if it raises, raises one of [P]. *)
Definition M_raises_only {A} (P : exn -> Prop) (m : M A) : Prop :=
  forall h, raises_only P (m h).1.

(** The lines that [snr] and [sinad] share: the checks of the sample rate
    and of the fundamental, and the harmonic vector. *)
Definition build_harmonics (samplerate fundamental : Q)
    (harmonics : harmonics_arg) : result (list Z) :=
  if Qle_bool samplerate 0 then Raise (ValueError "Invalid samplerate value")
  else if Qle_bool fundamental 0 || Qgtb fundamental (samplerate / 2)
  then Raise (ValueError "Invalid fundamental value")
  else
    match harmonics with
    | Explicit harmonics =>
        harmonics ← Np.array_int32 harmonics;
        if len harmonics >? 0 then
          let harmonics := Np.sort harmonics in
          lowest ← getitem harmonics 0;
          if lowest <? 2 then
            Raise (ValueError "Harmonics values must be >=2")
          else
            q ← fdiv (samplerate / 2) fundamental;
            let top_harmonic := Qfloor q in
            highest ← getitem harmonics (-1);
            if highest >? top_harmonic then
              Raise (ValueError (top_harmonic_message top_harmonic))
            else Ok harmonics
        else Ok harmonics
    | Policy harmonics => compute_harmonics harmonics fundamental samplerate
    end.

(** ** Sample inputs *)

(** Six bins at 128 Hz: a fundamental of 32 Hz falls in bin 2 and the search
    is one bin wide. *)
Definition magnitude6 : list Q := [1; 2; 5; 2; 7; 3]%Q.
Definition noisy6 : list Q := [1; 2; 5; 2; 7; 3]%Q.
Definition clean6 : list Q := [1; 1; 5; 1; 1; 1]%Q.

(** The heap of a caller that holds [noisy6] at 1 and [clean6] at 2. *)
Definition heap6 : heap := <[2%positive := clean6]> {[1%positive := noisy6]}.

(** Nine bins at 256 Hz: peaks at bins 2 and 4, for a fundamental of 32 Hz
    and its second harmonic. *)
Definition magnitude9 : list Q := [3; 1; 5; 2; 5; 1; 4; 0; 0]%Q.

(** Nine bins at 256 Hz where the second harmonic peaks at bin 4 of the clean
    array and at bin 5 of the noisy one. *)
Definition noisy9 : list Q := [3; 1; 5; 2; 4; 6; 1; 0; 0]%Q.
Definition clean9 : list Q := [3; 1; 5; 2; 5; 1; 4; 0; 0]%Q.
Definition heap9 : heap := <[2%positive := clean9]> {[1%positive := noisy9]}.

(** The heap of a caller that holds an empty array at 1 and [clean6] at 2. *)
Definition heap_nil6 : heap := <[2%positive := clean6]> {[1%positive := []]}.

(** Six bins at 128 Hz where the noisy fundamental is twice the clean one. *)
Definition loud6 : list Q := [1; 2; 10; 2; 7; 3]%Q.
Definition heap_loud6 : heap := <[2%positive := clean6]> {[1%positive := loud6]}.

(** As [heap_loud6], with a clean array one bin short: the difference of the
    two arrays cannot be taken. *)
Definition clean5 : list Q := [1; 1; 5; 1; 1]%Q.
Definition heap_short : heap := <[2%positive := clean5]> {[1%positive := loud6]}.

(** * Properties *)

(** ** Array access *)

Lemma Qgtb_irrefl x : Qgtb x x = false.
Proof.
  unfold Qgtb. rewrite (proj2 (Qle_bool_iff x x)) by apply Qle_refl.
  reflexivity.
Qed.

Lemma norm_index_in_range n i : 0 <= i < n -> norm_index n i = Ok i.
Proof.
  intros H. unfold norm_index.
  destruct (Z.ltb_spec i 0); [lia|].
  destruct (Z.leb_spec 0 i); [|lia].
  destruct (Z.ltb_spec i n); [reflexivity|lia].
Qed.

Lemma getitem_in_range {A} (a : list A) i :
  0 <= i < len a -> exists x, getitem a i = Ok x /\ a !! Z.to_nat i = Some x.
Proof.
  intros H. unfold getitem. rewrite norm_index_in_range by exact H. simpl.
  destruct (lookup_lt_is_Some_2 a (Z.to_nat i)) as [x Hx].
  { unfold len in H. lia. }
  exists x. rewrite Hx. split; reflexivity.
Qed.

Lemma getitem_first {A} (x : A) (a : list A) : getitem (x :: a) 0 = Ok x.
Proof.
  unfold getitem. rewrite norm_index_in_range; [reflexivity|].
  unfold len. simpl. lia.
Qed.

Lemma getitem_last {A} (a : list A) (x : A) : getitem (a ++ [x]) (-1) = Ok x.
Proof.
  unfold getitem, norm_index, len. rewrite length_app. simpl.
  destruct (Z.leb_spec 0 (-1 + Z.of_nat (length a + 1))); [|lia].
  destruct (Z.ltb_spec (-1 + Z.of_nat (length a + 1))
              (Z.of_nat (length a + 1))); [|lia].
  simpl.
  replace (Z.to_nat (-1 + Z.of_nat (length a + 1))) with (length a) by lia.
  rewrite list_lookup_middle by reflexivity. reflexivity.
Qed.

(** ** The skirt walks *)

Section Walks.
Variable ps : list Q.
Variable peak_idx : Z.

Lemma walk_before_shape (n : nat) : forall s crt acc,
  0 <= s -> peak_idx < len ps ->
  exists k, 0 <= k <= Z.of_nat n /\ (k = 0 \/ s + k - 1 <= peak_idx) /\
    walk_before ps peak_idx crt (seqZ s (Z.of_nat n)) acc
    = Ok (acc ++ ((fun i => peak_idx - i) <$> seqZ s k)).
Proof.
  induction n as [|n IH]; intros s crt acc Hs Hp.
  - exists 0. simpl. rewrite app_nil_r. repeat split; auto; lia.
  - rewrite seqZ_cons by lia. simpl.
    replace (Z.pred (Z.of_nat (S n))) with (Z.of_nat n) by lia.
    destruct (Z.ltb_spec (peak_idx - s) 0) as [Hneg|Hpos].
    { exists 0. rewrite seqZ_nil by lia. simpl. rewrite app_nil_r.
      repeat split; auto; lia. }
    destruct (getitem_in_range ps (peak_idx - s)) as (v & Hv & _); [lia|].
    rewrite Hv. simpl.
    destruct (Qgtb v crt).
    { exists 0. rewrite seqZ_nil by lia. simpl. rewrite app_nil_r.
      repeat split; auto; lia. }
    destruct (IH (Z.succ s) v (acc ++ [peak_idx - s])) as (k & Hk & Hb & E);
      [lia|exact Hp|].
    exists (k + 1). rewrite E. split; [lia|]. split; [right; lia|].
    rewrite (seqZ_cons s (k + 1)) by lia.
    replace (Z.pred (k + 1)) with k by lia.
    rewrite <- app_assoc. reflexivity.
Qed.

Lemma walk_after_shape (n : nat) : forall s crt acc,
  0 <= s -> 0 <= peak_idx ->
  exists k, 0 <= k <= Z.of_nat n /\ (k = 0 \/ peak_idx + s + k - 1 < len ps) /\
    walk_after ps peak_idx crt (seqZ s (Z.of_nat n)) acc
    = Ok (acc ++ ((fun i => peak_idx + i) <$> seqZ s k)).
Proof.
  induction n as [|n IH]; intros s crt acc Hs Hp.
  - exists 0. simpl. rewrite app_nil_r. repeat split; auto; lia.
  - rewrite seqZ_cons by lia. simpl.
    replace (Z.pred (Z.of_nat (S n))) with (Z.of_nat n) by lia.
    destruct (Z.geb_spec (peak_idx + s) (len ps)) as [Hout|Hin].
    { exists 0. rewrite seqZ_nil by lia. simpl. rewrite app_nil_r.
      repeat split; auto; lia. }
    destruct (getitem_in_range ps (peak_idx + s)) as (v & Hv & _); [lia|].
    rewrite Hv. simpl.
    destruct (Qgtb v crt).
    { exists 0. rewrite seqZ_nil by lia. simpl. rewrite app_nil_r.
      repeat split; auto; lia. }
    destruct (IH (Z.succ s) v (acc ++ [peak_idx + s])) as (k & Hk & Hb & E);
      [lia|exact Hp|].
    exists (k + 1). rewrite E. split; [lia|]. split; [right; lia|].
    rewrite (seqZ_cons s (k + 1)) by lia.
    replace (Z.pred (k + 1)) with k by lia.
    rewrite <- app_assoc. reflexivity.
Qed.

End Walks.

(** The result of [find_peak_bins] at a seed inside the spectrum: the seed
    and [l] bins below it, nearest first, then the seed again and [r] bins
    above it. *)
Lemma find_peak_bins_shape ps peak_idx search_width :
  0 <= peak_idx < len ps -> 0 < search_width ->
  exists l r,
    0 <= l < search_width /\ l <= peak_idx /\
    0 <= r < search_width /\ peak_idx + r < len ps /\
    find_peak_bins peak_idx ps search_width
    = Ok ((peak_idx :: ((fun i => peak_idx - i) <$> seqZ 1 l))
          ++ (peak_idx :: ((fun i => peak_idx + i) <$> seqZ 1 r))).
Proof.
  intros Hp Hw. unfold find_peak_bins, range.
  destruct (getitem_in_range ps peak_idx Hp) as (peak & Hpeak & _).
  rewrite Hpeak. simpl.
  rewrite (seqZ_cons 0 search_width) by lia. simpl.
  replace (peak_idx - 0) with peak_idx by lia.
  replace (peak_idx + 0) with peak_idx by lia.
  destruct (Z.ltb_spec peak_idx 0); [lia|].
  destruct (Z.geb_spec peak_idx (len ps)); [lia|].
  rewrite Hpeak. simpl. rewrite Qgtb_irrefl.
  change (Z.succ 0) with 1.
  replace (Z.pred search_width) with (Z.of_nat (Z.to_nat (search_width - 1)))
    by lia.
  destruct (walk_before_shape ps peak_idx (Z.to_nat (search_width - 1))
              1 peak [peak_idx]) as (l & Hl & Hlb & El); [lia|lia|].
  rewrite El. simpl.
  destruct (walk_after_shape ps peak_idx (Z.to_nat (search_width - 1))
              1 peak (peak_idx :: (((fun i => peak_idx - i) <$> seqZ 1 l)
                                   ++ [peak_idx])))
    as (r & Hr & Hrb & Er); [lia|lia|].
  rewrite Er. exists l, r.
  repeat split; try lia.
  simpl. rewrite <- app_assoc. reflexivity.
Qed.

Lemma getitem_last_cons {A} (x : A) (a : list A) :
  exists y, getitem (x :: a) (-1) = Ok y.
Proof.
  destruct a as [|z a _] using rev_ind.
  - exists x. reflexivity.
  - exists z. rewrite app_comm_cons. apply getitem_last.
Qed.

(** C10: at a seed inside the spectrum, [find_peak_bins] (with its default
    width) returns a non-empty array whose first element is the seed, so
    reading its first and its last element, as [inner_sinad] does, succeeds. *)
Theorem find_peak_bins_first_is_seed (ps : list Q) (peak_idx : Z) :
  0 <= peak_idx < len ps ->
  exists rest last,
    find_peak_bins peak_idx ps default_search_width = Ok (peak_idx :: rest) /\
    getitem (peak_idx :: rest) 0 = Ok peak_idx /\
    getitem (peak_idx :: rest) (-1) = Ok last.
Proof.
  intros Hp.
  destruct (find_peak_bins_shape ps peak_idx default_search_width Hp)
    as (l & r & _ & _ & _ & _ & E); [reflexivity|].
  rewrite E. simpl.
  match goal with |- context [Ok (peak_idx :: ?t)] => set (rest := t) end.
  destruct (getitem_last_cons peak_idx rest) as [last Hlast].
  exists rest, last. split; [reflexivity|]. split; [apply getitem_first|exact Hlast].
Qed.

Lemma find_peak_bins_first_is_seed_witness :
  exists rest last,
    find_peak_bins 2 magnitude6 default_search_width = Ok (2 :: rest) /\
    getitem (2 :: rest) 0 = Ok 2 /\
    getitem (2 :: rest) (-1) = Ok last.
Proof.
  apply (find_peak_bins_first_is_seed magnitude6 2).
  unfold len. simpl. lia.
Defined.

Lemma occurrences_app b l1 l2 :
  occurrences b (l1 ++ l2) = (occurrences b l1 + occurrences b l2)%nat.
Proof. unfold occurrences. rewrite filter_app, length_app. reflexivity. Qed.

Lemma occurrences_cons b x l :
  occurrences b (x :: l)
  = ((if decide (x = b) then 1 else 0) + occurrences b l)%nat.
Proof.
  unfold occurrences. rewrite filter_cons. destruct (decide (x = b)); reflexivity.
Qed.

Lemma occurrences_none b l : b ∉ l -> occurrences b l = 0%nat.
Proof.
  induction l as [|x l IH]; intros H; [reflexivity|].
  rewrite occurrences_cons, IH by set_solver.
  destruct (decide (x = b)); [set_solver|reflexivity].
Qed.

(** Whatever the spectrum, a seed inside it occurs twice in its skirt: once
    from each walk. *)
Lemma find_peak_bins_seed_twice ps peak_idx search_width bins :
  0 <= peak_idx < len ps -> 0 < search_width ->
  find_peak_bins peak_idx ps search_width = Ok bins ->
  occurrences peak_idx bins = 2%nat.
Proof.
  intros Hp Hw E.
  destruct (find_peak_bins_shape ps peak_idx search_width Hp Hw)
    as (l & r & _ & _ & _ & _ & E').
  rewrite E' in E. injection E as <-.
  simpl. rewrite occurrences_cons, occurrences_app, occurrences_cons.
  destruct (decide (peak_idx = peak_idx)); [|congruence].
  rewrite !occurrences_none; [reflexivity| |].
  - intros [i [Hi Hin]]%list_elem_of_fmap. apply elem_of_seqZ in Hin. lia.
  - intros [i [Hi Hin]]%list_elem_of_fmap. apply elem_of_seqZ in Hin. lia.
Qed.

(** C1: the skirt of the middle bin of [1; 3; 1] lists that bin twice, and
    sorted it is [0; 1; 1; 2], not the run [0; 1; 2]. *)
Theorem find_peak_bins_lists_seed_twice :
  find_peak_bins 1 [1; 3; 1]%Q default_search_width = Ok [1; 0; 1; 2] /\
  occurrences 1 [1; 0; 1; 2] = 2%nat /\
  Np.sort [1; 0; 1; 2] = [0; 1; 1; 2].
Proof. vm_compute. repeat split; reflexivity. Qed.

(** C2: with six bins at 128 Hz and a hint of 8 Hz the search window is
    clamped at bin 0, and the bin returned for a spectrum that peaks at DC is
    [-1]: no bin of the spectrum. *)
Theorem find_peak_bin_from_freq_below_zero :
  find_peak_bin_from_freq 8 [5; 1; 1; 1; 1; 1]%Q 128 default_search_width_hz
  = Ok (-1).
Proof. vm_compute. reflexivity. Qed.

(** ** Sums *)

Lemma fold_left_Qplus_acc (l : list Q) : forall a,
  (fold_left Qplus l a == a + fold_left Qplus l 0)%Q.
Proof.
  induction l as [|x l IH]; intros a; simpl.
  - ring.
  - rewrite (IH (a + x)%Q), (IH (0 + x)%Q). ring.
Qed.

Lemma sum_nil : Np.sum [] = 0%Q.
Proof. reflexivity. Qed.

Lemma sum_cons x l : (Np.sum (x :: l) == x + Np.sum l)%Q.
Proof.
  unfold Np.sum. simpl. rewrite fold_left_Qplus_acc. ring.
Qed.

Lemma sum_app l1 l2 : (Np.sum (l1 ++ l2) == Np.sum l1 + Np.sum l2)%Q.
Proof.
  induction l1 as [|x l1 IH]; simpl.
  - rewrite sum_nil. ring.
  - rewrite !sum_cons, IH. ring.
Qed.

Lemma sum_over_nil ps : sum_over ps [] = 0%Q.
Proof. reflexivity. Qed.

Lemma sum_over_cons ps b bins :
  (sum_over ps (b :: bins) == value_at ps b + sum_over ps bins)%Q.
Proof. unfold sum_over. simpl. apply sum_cons. Qed.

Lemma sum_over_app ps l1 l2 :
  (sum_over ps (l1 ++ l2) == sum_over ps l1 + sum_over ps l2)%Q.
Proof. unfold sum_over. rewrite fmap_app. apply sum_app. Qed.

(** ** Indexing with an array, and [np.delete] *)

Lemma mapM_result_cons {A B} (f : A -> result B) x l :
  mapM f (x :: l) = y ← f x; k ← mapM f l; Ok (y :: k).
Proof. reflexivity. Qed.

Lemma take_ok ps idx vals :
  Np.take_ ps idx = Ok vals -> vals = value_at ps <$> idx.
Proof.
  unfold Np.take_. revert vals.
  induction idx as [|b idx IH]; intros vals E.
  - injection E as <-. reflexivity.
  - rewrite mapM_result_cons in E. unfold value_at at 1. simpl.
    destruct (getitem ps b) as [x|e]; simpl in E; [|discriminate].
    destruct (mapM (getitem ps) idx) as [k|e]; simpl in E; [|discriminate].
    injection E as <-. rewrite (IH k eq_refl). reflexivity.
Qed.

Lemma mapM_norm_index_in_range n idx :
  Forall (fun b => 0 <= b < n) idx -> mapM (norm_index n) idx = Ok idx.
Proof.
  induction 1 as [|b idx Hb _ IH]; [reflexivity|].
  rewrite mapM_result_cons, norm_index_in_range, IH by exact Hb.
  reflexivity.
Qed.

Lemma value_at_middle (pre : list Q) x post :
  value_at (pre ++ x :: post) (len pre) = x.
Proof.
  unfold value_at, getitem.
  rewrite norm_index_in_range.
  - simpl. unfold len. rewrite Nat2Z.id, list_lookup_middle by reflexivity.
    reflexivity.
  - unfold len. rewrite length_app. simpl. lia.
Qed.

Lemma keep_from_sum ps idx : forall a pre,
  ps = pre ++ a ->
  (Np.sum (Np.keep_from (len pre) idx a)
   == sum_over ps (filter (fun b => b ∉ idx) (seqZ (len pre) (len a))))%Q.
Proof.
  induction a as [|x a IH]; intros pre E.
  - reflexivity.
  - assert (Hlen : len (x :: a) = Z.succ (len a)) by (unfold len; simpl; lia).
    rewrite Hlen, seqZ_cons by (unfold len; lia).
    replace (Z.pred (Z.succ (len a))) with (len a) by lia.
    assert (Hpre : Z.succ (len pre) = len (pre ++ [x])).
    { unfold len. rewrite length_app. simpl. lia. }
    specialize (IH (pre ++ [x])). rewrite <- app_assoc in IH.
    specialize (IH E). rewrite <- Hpre in IH.
    simpl. rewrite filter_cons.
    replace (len pre + 1) with (Z.succ (len pre)) by lia.
    destruct (decide (len pre ∉ idx)) as [Hout|Hin].
    + rewrite bool_decide_eq_false_2 by exact Hout.
      rewrite sum_cons, sum_over_cons, IH.
      replace (value_at ps (len pre)) with x
        by (rewrite E; symmetry; apply value_at_middle).
      reflexivity.
    + rewrite bool_decide_eq_true_2 by (destruct (decide (len pre ∈ idx)); tauto).
      exact IH.
Qed.

Lemma slice_from_cons {A} (x : A) (a : list A) : slice_from (x :: a) 1 = a.
Proof.
  unfold slice_from, slice, clip_index, len. simpl length.
  destruct (Z.ltb_spec 1 0); [lia|].
  destruct (Z.ltb_spec (Z.of_nat (S (length a))) 0); [lia|].
  replace (Z.to_nat (Z.min 1 (Z.of_nat (S (length a))))) with 1%nat by lia.
  simpl drop.
  replace (Z.to_nat _) with (length a) by lia.
  apply firstn_all.
Qed.

Lemma filter_iff_on {A} (P1 P2 : A -> Prop)
    `{!forall x, Decision (P1 x), !forall x, Decision (P2 x)} (l : list A) :
  Forall (fun x => P1 x <-> P2 x) l -> filter P1 l = filter P2 l.
Proof.
  induction 1 as [|x l Hx _ IH]; [reflexivity|].
  rewrite !filter_cons, IH.
  destruct (decide (P1 x)), (decide (P2 x)); tauto.
Qed.

Lemma noise_bins_from_one n excluded :
  0 < n ->
  noise_bins n excluded = filter (fun b => b ∉ excluded) (seqZ 1 (n - 1)).
Proof.
  intros Hn. unfold noise_bins, range. rewrite seqZ_cons by lia.
  rewrite filter_cons_False by tauto.
  change (Z.succ 0) with 1. replace (Z.pred n) with (n - 1) by lia.
  apply filter_iff_on, Forall_seqZ. intros b Hb. split; [tauto|].
  intros H. split; [exact H|lia].
Qed.

(** Where every excluded bin lies inside the spectrum and the DC bin is not
    excluded, deleting the excluded bins and dropping the first of the rest
    leaves the noise bins of the specification. *)
Lemma delete_noise_power ps excluded :
  Forall (fun b => 0 <= b < len ps) excluded -> 0 ∉ excluded ->
  exists noise,
    Np.delete ps excluded = Ok noise /\
    (Np.sum (slice_from noise 1)
     == sum_over ps (noise_bins (len ps) excluded))%Q.
Proof.
  intros Hin H0. unfold Np.delete.
  rewrite mapM_norm_index_in_range by exact Hin. simpl.
  eexists. split; [reflexivity|].
  destruct ps as [|x ps].
  - reflexivity.
  - simpl. rewrite bool_decide_eq_false_2 by exact H0.
    rewrite slice_from_cons.
    rewrite noise_bins_from_one by (unfold len; simpl; lia).
    replace (len (x :: ps) - 1) with (len ps) by (unfold len; simpl; lia).
    apply (keep_from_sum (x :: ps) excluded ps [x]). reflexivity.
Qed.

(** ** Sums with repeated bins *)

Lemma sum_multiplicity_step (f : Z -> Q) (a : Z) (l : list Z) : forall k,
  NoDup k ->
  (Np.sum ((fun b => inject_Z (Z.of_nat (occurrences b (a :: l))) * f b)%Q <$> k)
   == (if decide (a ∈ k) then f a else 0)
      + Np.sum ((fun b => inject_Z (Z.of_nat (occurrences b l)) * f b)%Q <$> k))%Q.
Proof.
  induction k as [|x k IH]; intros Hnd.
  - simpl. rewrite sum_nil. destruct (decide (a ∈ [])); [set_solver|ring].
  - apply NoDup_cons in Hnd as [Hx Hnd].
    rewrite !fmap_cons, !sum_cons, IH by exact Hnd.
    rewrite occurrences_cons.
    destruct (decide (a = x)) as [->|Hne].
    + destruct (decide (x ∈ x :: k)); [|set_solver].
      destruct (decide (x ∈ k)); [tauto|].
      rewrite Nat2Z.inj_add, inject_Z_plus.
      change (inject_Z (Z.of_nat 1)) with 1%Q. ring.
    + rewrite Nat.add_0_l.
      destruct (decide (a ∈ x :: k)) as [[?|?]%elem_of_cons|Hout],
        (decide (a ∈ k)); try congruence; try tauto; try ring.
      exfalso. apply Hout. right. assumption.
Qed.

Lemma sum_over_multiplicity ps bins :
  (sum_over ps bins == sum_with_multiplicity ps bins)%Q.
Proof.
  unfold sum_with_multiplicity.
  induction bins as [|a l IH].
  - reflexivity.
  - rewrite sum_over_cons, IH. simpl remove_dups.
    destruct (decide_rel elem_of a l) as [Hin|Hout].
    + rewrite sum_multiplicity_step by apply NoDup_remove_dups.
      destruct (decide (a ∈ remove_dups l)) as [_|H]; [reflexivity|].
      exfalso. apply H, elem_of_remove_dups, Hin.
    + rewrite fmap_cons, sum_cons.
      rewrite sum_multiplicity_step by apply NoDup_remove_dups.
      destruct (decide (a ∈ remove_dups l)) as [H|_].
      { exfalso. apply Hout, elem_of_remove_dups, H. }
      rewrite occurrences_cons, occurrences_none by exact Hout.
      destruct (decide (a = a)); [|congruence].
      change (inject_Z (Z.of_nat (1 + 0))) with 1%Q. ring.
Qed.

(** ** The loops over the harmonics *)

Lemma sinad_harmonics_loop_skirts clean noisy sr f hs : forall acc,
  Sinad.harmonics_loop clean noisy sr f hs acc
  = s ← harmonic_skirts clean noisy sr f hs; Ok (acc ++ s).
Proof.
  unfold harmonic_skirts.
  induction hs as [|h hs IH]; intros acc.
  - simpl. rewrite app_nil_r. reflexivity.
  - simpl Sinad.harmonics_loop. rewrite mapM_result_cons.
    destruct (find_peak_bin_from_freq _ clean sr _) as [bin|e]; [|reflexivity].
    simpl.
    destruct (find_peak_bins bin noisy _) as [bins|e]; [|reflexivity].
    simpl. rewrite IH.
    destruct (mapM _ hs) as [skirts|e]; [|reflexivity].
    simpl. unfold Np.concatenate. rewrite app_assoc. reflexivity.
Qed.

Lemma snr_harmonics_loop_skirts ps sr f hs : forall acc,
  Snr.harmonics_loop ps sr f hs acc
  = s ← harmonic_skirts ps ps sr f hs; Ok (acc ++ s).
Proof.
  intros acc. rewrite <- sinad_harmonics_loop_skirts. revert acc.
  induction hs as [|h hs IH]; intros acc; [reflexivity|].
  simpl.
  destruct (find_peak_bin_from_freq _ ps sr _) as [bin|e]; [|reflexivity].
  simpl.
  destruct (find_peak_bins bin ps _) as [bins|e]; [|reflexivity].
  simpl. apply IH.
Qed.

(** ** SNR mode *)

Lemma result_bind_ok {A B} (m : result A) (f : A -> result B) b :
  m ≫= f = Ok b -> exists a, m = Ok a /\ f a = Ok b.
Proof. destruct m as [a|e]; [|discriminate]. intros H. exists a. auto. Qed.

(** The locals of a run of [inner_snr] that does not raise. *)
Lemma inner_snr_locals_ok ps sr f hs excl v :
  Snr.inner_snr_locals ps sr f hs excl = Ok v ->
  exists fund_bin signal noise,
    find_peak_bin_from_freq f ps sr default_search_width_hz = Ok fund_bin /\
    find_peak_bins fund_bin ps default_search_width = Ok (Snr.fund_peak_bins v) /\
    harmonic_skirts ps ps sr f hs = Ok (Snr.harmonics_bins v) /\
    Snr.signal_bins v
    = (if excl then Snr.fund_peak_bins v
       else Snr.fund_peak_bins v ++ Snr.harmonics_bins v) /\
    Np.take_ ps (Snr.signal_bins v) = Ok signal /\
    Snr.signal_power v = Np.sum signal /\
    Snr.to_delete v = Snr.fund_peak_bins v ++ Snr.harmonics_bins v /\
    Np.delete ps (Snr.to_delete v) = Ok noise /\
    Snr.noise_power v = Np.sum (slice_from noise 1).
Proof.
  unfold Snr.inner_snr_locals. intros H.
  apply result_bind_ok in H as (fund_bin & Ebin & H).
  apply result_bind_ok in H as (fund & Efund & H).
  apply result_bind_ok in H as (harm & Eharm & H).
  apply result_bind_ok in H as (signal & Esig & H).
  apply result_bind_ok in H as (noise & Enoise & H).
  injection H as <-. simpl.
  rewrite snr_harmonics_loop_skirts in Eharm.
  destruct (harmonic_skirts ps ps sr f hs) as [s|e]; [|discriminate].
  injection Eharm as <-.
  exists fund_bin, signal, noise. unfold Np.concatenate in *.
  repeat split; auto.
Qed.

(** C4, as the code has it: the signal power of [inner_snr] is the sum of the
    periodogram over the array of signal bins (the skirt of the fundamental
    when harmonics are excluded, else that skirt followed by the skirts of
    the harmonics), where a bin counts as often as that array lists it. *)
Theorem inner_snr_signal_power ps sr f hs excl v :
  Snr.inner_snr_locals ps sr f hs excl = Ok v ->
  Snr.signal_bins v
  = (if excl then Snr.fund_peak_bins v
     else Snr.fund_peak_bins v ++ Snr.harmonics_bins v) /\
  (exists fund_bin,
     find_peak_bin_from_freq f ps sr default_search_width_hz = Ok fund_bin /\
     find_peak_bins fund_bin ps default_search_width
     = Ok (Snr.fund_peak_bins v)) /\
  harmonic_skirts ps ps sr f hs = Ok (Snr.harmonics_bins v) /\
  (Snr.signal_power v == sum_over ps (Snr.signal_bins v))%Q /\
  (Snr.signal_power v == sum_with_multiplicity ps (Snr.signal_bins v))%Q.
Proof.
  intros H.
  destruct (inner_snr_locals_ok _ _ _ _ _ _ H)
    as (fund_bin & signal & noise & Ebin & Efund & Eharm & Ebins & Esig
        & Epow & _).
  split; [exact Ebins|]. split; [eauto|]. split; [exact Eharm|].
  assert (Hsum : (Snr.signal_power v == sum_over ps (Snr.signal_bins v))%Q).
  { rewrite Epow. unfold sum_over. rewrite (take_ok _ _ _ Esig). reflexivity. }
  split; [exact Hsum|].
  rewrite Hsum. apply sum_over_multiplicity.
Qed.

Lemma inner_snr_signal_power_witness :
  exists v,
    Snr.inner_snr_locals (Np.square magnitude9) 256 32 [2] false = Ok v /\
    (Snr.signal_power v
     == sum_with_multiplicity (Np.square magnitude9) (Snr.signal_bins v))%Q.
Proof.
  eexists. split; [vm_compute; reflexivity|].
  eapply (inner_snr_signal_power (Np.square magnitude9) 256 32 [2] false).
  vm_compute. reflexivity.
Defined.

(** C4, as stated, fails: on the squares of [magnitude9], with a harmonic at
    twice the fundamental, the seeds (bins 2 and 4) and the bin between the
    two peaks (bin 3) enter the signal power twice: it is 110, where the
    sum over the set of signal bins is 56. *)
Lemma inner_snr_signal_power_not_a_set_sum :
  exists v,
    Snr.inner_snr_locals (Np.square magnitude9) 256 32 [2] false = Ok v /\
    Snr.fund_peak_bins v = [2; 1; 2; 3] /\
    Snr.harmonics_bins v = [4; 3; 4; 5] /\
    Snr.signal_bins v = [2; 1; 2; 3; 4; 3; 4; 5] /\
    (Snr.signal_power v == 110)%Q /\
    (sum_over_set (Np.square magnitude9) (Snr.signal_bins v) == 56)%Q /\
    ~ (Snr.signal_power v
       == sum_over_set (Np.square magnitude9) (Snr.signal_bins v))%Q.
Proof.
  eexists. split; [vm_compute; reflexivity|].
  repeat split; try (vm_compute; reflexivity).
  vm_compute. discriminate.
Qed.

(** The bins deleted for the noise do not depend on [harmonics_excluded]. *)
Lemma inner_snr_to_delete_flag ps sr f hs v1 v2 :
  Snr.inner_snr_locals ps sr f hs true = Ok v1 ->
  Snr.inner_snr_locals ps sr f hs false = Ok v2 ->
  Snr.to_delete v1 = Snr.to_delete v2 /\
  Snr.noise_power v1 = Snr.noise_power v2.
Proof.
  intros H1 H2.
  destruct (inner_snr_locals_ok _ _ _ _ _ _ H1)
    as (b1 & s1 & n1 & Eb1 & Ef1 & Eh1 & _ & _ & _ & Ed1 & En1 & Ep1).
  destruct (inner_snr_locals_ok _ _ _ _ _ _ H2)
    as (b2 & s2 & n2 & Eb2 & Ef2 & Eh2 & _ & _ & _ & Ed2 & En2 & Ep2).
  assert (b1 = b2) by congruence. subst b2.
  assert (Snr.fund_peak_bins v1 = Snr.fund_peak_bins v2) by congruence.
  assert (Snr.harmonics_bins v1 = Snr.harmonics_bins v2) by congruence.
  assert (Hd : Snr.to_delete v1 = Snr.to_delete v2) by congruence.
  split; [exact Hd|]. rewrite Hd in En1. congruence.
Qed.

(** Where no skirt reaches the DC bin (and every skirt lies inside the
    spectrum), the noise power is the sum over the bins outside the skirts,
    DC apart. *)
Lemma inner_snr_noise_power ps sr f hs excl v :
  Snr.inner_snr_locals ps sr f hs excl = Ok v ->
  Forall (fun b => 0 <= b < len ps) (Snr.to_delete v) ->
  0 ∉ Snr.to_delete v ->
  (Snr.noise_power v == sum_over ps (noise_bins (len ps) (Snr.to_delete v)))%Q.
Proof.
  intros H Hin H0.
  destruct (inner_snr_locals_ok _ _ _ _ _ _ H)
    as (b & s & n & _ & _ & _ & _ & _ & _ & _ & En & Ep).
  destruct (delete_noise_power ps (Snr.to_delete v) Hin H0) as (n' & En' & Hs).
  rewrite Ep. replace n with n' by congruence. exact Hs.
Qed.

(** C3: in [snr] on [magnitude6] the skirt of the fundamental reaches
    bin 0, so the first bin left after the deletion is bin 4, not DC;
    dropping it leaves a noise power of 9, where the bins outside the skirts
    hold 49 + 9. *)
Theorem inner_snr_noise_drops_first_remaining_bin :
  exists v,
    Snr.inner_snr_locals (Np.square magnitude6) 128 32 [] false = Ok v /\
    Snr.to_delete v = [2; 1; 0; 2; 3] /\
    noise_bins 6 (Snr.to_delete v) = [4; 5] /\
    (Snr.noise_power v == 9)%Q /\
    (sum_over (Np.square magnitude6) (noise_bins 6 (Snr.to_delete v))
     == 58)%Q /\
    (Snr.snr 1%positive 128 32 (Explicit []) false {[1%positive := magnitude6]}).1
    = Ok (TenLog10 ((Snr.signal_power v) / (Snr.noise_power v))).
Proof.
  eexists. split; [vm_compute; reflexivity|].
  repeat split; vm_compute; reflexivity.
Qed.

(** ** Computations over the heap *)



Lemma lift_inv {A} (r0 : result A) h r h' :
  lift r0 h = (r, h') -> r = r0 /\ h' = h.
Proof. unfold lift. intros H. injection H as <- <-. auto. Qed.

Lemma heap_stable_lift {A} (r : result A) : heap_stable (lift r).
Proof. intros h. reflexivity. Qed.

Lemma heap_stable_raise {A} e : heap_stable (@raise A e).
Proof. intros h. reflexivity. Qed.

Lemma heap_stable_ret {A} (a : A) : heap_stable (mret a : M A).
Proof. intros h. reflexivity. Qed.

Lemma heap_stable_read l : heap_stable (read l).
Proof. intros h. unfold read. destruct (h !! l); reflexivity. Qed.

Lemma heap_stable_typed l : heap_stable (typed l).
Proof. intros h. unfold typed. destruct (h !! l); reflexivity. Qed.

Lemma heap_stable_bind {A B} (m : M A) (f : A -> M B) :
  heap_stable m -> (forall a, heap_stable (f a)) -> heap_stable (m ≫= f).
Proof.
  intros Hm Hf h. unfold mbind, M_bind.
  specialize (Hm h). destruct (m h) as [[a|e] h1]; simpl in Hm; subst h1.
  - apply Hf.
  - reflexivity.
Qed.

Ltac heap_stable :=
  repeat first
    [ apply heap_stable_lift | apply heap_stable_raise | apply heap_stable_ret
    | apply heap_stable_read | apply heap_stable_typed
    | apply heap_stable_bind; [|intros ?]
    | match goal with
      | |- heap_stable (if ?b then _ else _) => destruct b
      | |- heap_stable (match ?x with _ => _ end) => destruct x
      end ].

Lemma snr_heap_stable magnitude sr f hs excl :
  heap_stable (Snr.snr magnitude sr f hs excl).
Proof. unfold Snr.snr. heap_stable. Qed.

Lemma bind_read_ok {B} l (f : list Q -> M B) h b h' :
  (read l ≫= f) h = (Ok b, h') ->
  exists a, h !! l = Some a /\ f a h = (Ok b, h').
Proof.
  unfold mbind, M_bind, read. destruct (h !! l) as [a|]; [|discriminate].
  intros H. exists a. auto.
Qed.

Lemma bind_typed_ok {B} l (f : unit -> M B) h b h' :
  (typed l ≫= f) h = (Ok b, h') -> is_Some (h !! l) /\ f tt h = (Ok b, h').
Proof.
  unfold mbind, M_bind, typed. destruct (h !! l) as [a|]; [|discriminate].
  intros H. split; [eauto|exact H].
Qed.

Lemma bind_lift_ok {A B} (r : result A) (f : A -> M B) h b h' :
  (lift r ≫= f) h = (Ok b, h') ->
  exists a, r = Ok a /\ f a h = (Ok b, h').
Proof.
  unfold mbind, M_bind, lift. destruct r as [a|e]; [|discriminate].
  intros H. exists a. auto.
Qed.

Lemma bind_write_inv {B} l a (f : unit -> M B) h r h' :
  (write l a ≫= f) h = (r, h') -> f tt (<[l := a]> h) = (r, h').
Proof. unfold mbind, M_bind, write. auto. Qed.

(** ** SINAD mode *)

(** The locals of a run of [inner_sinad] that does not raise. *)
Lemma inner_sinad_locals_ok nl cl sr f hs h v h' :
  Sinad.inner_sinad_locals nl cl sr f hs h = (Ok v, h') ->
  exists noisy clean fund_bin first last noisy' clean' noise_magnitudes
         signal nad,
    h !! nl = Some noisy /\ h !! cl = Some clean /\
    find_peak_bin_from_freq f noisy sr default_search_width_hz = Ok fund_bin /\
    find_peak_bins fund_bin noisy default_search_width
    = Ok (Sinad.fund_peak_bins v) /\
    getitem (Sinad.fund_peak_bins v) 0 = Ok first /\
    getitem (Sinad.fund_peak_bins v) (-1) = Ok last /\
    Sinad.mag_sum_noised v = Np.sum (slice noisy first last) /\
    Sinad.mag_sum_clean v = Np.sum (slice clean first last) /\
    fdiv (Sinad.mag_sum_noised v) (Sinad.mag_sum_clean v)
    = Ok (Sinad.mag_ratio v) /\
    noisy' = (fun x => x * Sinad.mag_ratio v)%Q <$> noisy /\
    h' = <[nl := noisy']> h /\
    h' !! cl = Some clean' /\
    Np.subtract noisy' clean' = Ok noise_magnitudes /\
    Sinad.psd_clean v = Np.square clean' /\
    Sinad.psd_noise v = Np.square noise_magnitudes /\
    Sinad.psd_noisy v = Np.square noisy' /\
    harmonic_skirts (Sinad.psd_clean v) (Sinad.psd_noisy v) sr f hs
    = Ok (Sinad.harmonics_bins v) /\
    Np.take_ (Sinad.psd_clean v)
      (Sinad.fund_peak_bins v ++ Sinad.harmonics_bins v) = Ok signal /\
    Sinad.signal_power v = Np.sum signal /\
    Np.delete (Sinad.psd_noise v) (Sinad.fund_peak_bins v) = Ok nad /\
    Sinad.nad_power v = Np.sum (slice_from nad 1).
Proof.
  unfold Sinad.inner_sinad_locals. intros H.
  apply bind_typed_ok in H as (_ & H).
  apply bind_typed_ok in H as (_ & H).
  apply bind_read_ok in H as (noisy & En & H).
  apply bind_lift_ok in H as (fund_bin & Ebin & H).
  apply bind_lift_ok in H as (fund & Efund & H).
  apply bind_lift_ok in H as (first & Efirst & H).
  apply bind_lift_ok in H as (last & Elast & H).
  apply bind_read_ok in H as (clean & Ec & H).
  apply bind_lift_ok in H as (ratio & Eratio & H).
  apply bind_write_inv in H.
  apply bind_read_ok in H as (noisy' & En' & H).
  apply bind_read_ok in H as (clean' & Ec' & H).
  apply bind_lift_ok in H as (noise & Enoise & H).
  apply bind_lift_ok in H as (harm & Eharm & H).
  apply bind_lift_ok in H as (signal & Esig & H).
  apply bind_lift_ok in H as (nad & Enad & H).
  injection H as <- <-. simpl.
  rewrite lookup_insert_eq in En'. injection En' as <-.
  rewrite sinad_harmonics_loop_skirts in Eharm.
  destruct (harmonic_skirts _ _ sr f hs) as [s|e] eqn:Es; [|discriminate].
  injection Eharm as <-.
  exists noisy, clean, fund_bin, first, last,
    ((fun y => y * ratio)%Q <$> noisy), clean', noise, signal, nad.
  unfold Np.concatenate in *.
  repeat split; auto.
Qed.


Lemma scale_by_one (gain : Q) (a : list Q) :
  (gain == 1)%Q -> Forall2 Qeq ((fun x => x * gain)%Q <$> a) a.
Proof.
  intros Hg. induction a as [|x a IH]; constructor; [|exact IH].
  rewrite Hg. ring.
Qed.

Lemma fdiv_self s g : fdiv s s = Ok g -> (g == 1)%Q.
Proof.
  unfold fdiv. destruct (Qeq_bool s 0) eqn:E; [discriminate|].
  intros [= <-]. apply Qeq_bool_neq in E. field. exact E.
Qed.

(** C7: in a run of [inner_sinad] that reaches its last line, the bins of
    the harmonics are the skirts, one after the other, of the harmonics in
    the order given, where the peak of each is located in the clean power
    spectrum and its skirt is walked in the noisy power spectrum: the
    squares of the clean and of the scaled noisy magnitudes then on the
    heap. *)
Theorem inner_sinad_harmonics_clean_peak_noisy_skirt nl cl sr f hs h v h' :
  Sinad.inner_sinad_locals nl cl sr f hs h = (Ok v, h') ->
  exists noisy' clean',
    h' !! nl = Some noisy' /\ h' !! cl = Some clean' /\
    Sinad.psd_noisy v = Np.square noisy' /\
    Sinad.psd_clean v = Np.square clean' /\
    harmonic_skirts (Sinad.psd_clean v) (Sinad.psd_noisy v) sr f hs
    = Ok (Sinad.harmonics_bins v).
Proof.
  intros H.
  destruct (inner_sinad_locals_ok _ _ _ _ _ _ _ _ H)
    as (noisy & clean & fund_bin & first & last & noisy' & clean' & _ & _ & _
        & _ & _ & _ & _ & _ & _ & _ & _ & _ & _ & Eh & Ec' & _ & Epc & _ & Epn
        & Eharm & _).
  exists noisy', clean'. rewrite Eh at 1. rewrite lookup_insert_eq. auto.
Qed.

Lemma inner_sinad_harmonics_clean_peak_noisy_skirt_witness :
  exists v h',
    Sinad.inner_sinad_locals 1%positive 2%positive 256 32 [2] heap9
    = (Ok v, h') /\
    harmonic_skirts (Sinad.psd_clean v) (Sinad.psd_noisy v) 256 32 [2]
    = Ok (Sinad.harmonics_bins v).
Proof.
  eexists _, _. split; [vm_compute; reflexivity|].
  match goal with |- harmonic_skirts _ _ _ _ _ = Ok (Sinad.harmonics_bins ?x) =>
    set (v := x) end.
  destruct (inner_sinad_harmonics_clean_peak_noisy_skirt 1%positive 2%positive
              256 32 [2] heap9 v
              (<[1%positive := (fun x => x * Sinad.mag_ratio v)%Q <$> noisy9]>
                 heap9))
    as (noisy' & clean' & _ & _ & _ & _ & E).
  { vm_compute. reflexivity. }
  exact E.
Defined.

(** C5: on [noisy6] and [clean6] the skirt of the fundamental is
    [2; 1; 0; 2; 3]; its first element is the seed and its last the highest
    bin, so the two sums run over bin 2 alone and the gain is 5/5, where the
    span from bin 0 to bin 3 gives 10/8. *)
Theorem inner_sinad_gain_over_seed_to_last :
  exists v h',
    Sinad.inner_sinad_locals 1%positive 2%positive 128 32 [] heap6
    = (Ok v, h') /\
    Sinad.fund_peak_bins v = [2; 1; 0; 2; 3] /\
    Sinad.mag_sum_noised v = Np.sum (slice noisy6 2 3) /\
    Sinad.mag_sum_clean v = Np.sum (slice clean6 2 3) /\
    (Sinad.mag_ratio v == 1)%Q /\
    exists gain,
      span_gain noisy6 clean6 (Sinad.fund_peak_bins v) = Ok gain /\
      (gain == 5 # 4)%Q.
Proof.
  eexists _, _. split; [vm_compute; reflexivity|].
  repeat split; try (vm_compute; reflexivity).
  eexists. split; vm_compute; reflexivity.
Qed.

(** Where the skirt of the fundamental does not reach the DC bin (and lies
    inside the spectrum), the noise-and-distortion power is the sum of the
    squared differences over the bins outside that skirt, DC apart. *)
Lemma inner_sinad_nad_power nl cl sr f hs h v h' :
  Sinad.inner_sinad_locals nl cl sr f hs h = (Ok v, h') ->
  Forall (fun b => 0 <= b < len (Sinad.psd_noise v)) (Sinad.fund_peak_bins v) ->
  0 ∉ Sinad.fund_peak_bins v ->
  (Sinad.nad_power v
   == sum_over (Sinad.psd_noise v)
        (noise_bins (len (Sinad.psd_noise v)) (Sinad.fund_peak_bins v)))%Q.
Proof.
  intros H Hin H0.
  destruct (inner_sinad_locals_ok _ _ _ _ _ _ _ _ H)
    as (noisy & clean & fund_bin & first & last & noisy' & clean' & noise
        & signal & nad & _ & _ & _ & _ & _ & _ & _ & _ & _ & _ & _ & _ & _ & _
        & _ & _ & _ & _ & _ & Enad & Ep).
  destruct (delete_noise_power _ _ Hin H0) as (nad' & Enad' & Hs).
  rewrite Ep. replace nad with nad' by congruence. exact Hs.
Qed.

(** C6: on [noisy6] and [clean6] the skirt of the fundamental reaches bin 0,
    so the first bin left after the deletion is bin 4, not DC; dropping it
    leaves 4 where the bins outside the skirt hold 36 + 4.  The value
    returned is the ratio of the last line. *)
Theorem inner_sinad_nad_drops_first_remaining_bin :
  exists v h',
    Sinad.inner_sinad_locals 1%positive 2%positive 128 32 [] heap6
    = (Ok v, h') /\
    Sinad.fund_peak_bins v = [2; 1; 0; 2; 3] /\
    noise_bins 6 (Sinad.fund_peak_bins v) = [4; 5] /\
    (Sinad.nad_power v == 4)%Q /\
    (sum_over (Sinad.psd_noise v) (noise_bins 6 (Sinad.fund_peak_bins v))
     == 40)%Q /\
    Sinad.inner_sinad 1%positive 2%positive 128 32 [] heap6
    = (Ok (TenLog10 ((Sinad.signal_power v + Sinad.nad_power v)
                     / Sinad.nad_power v)), h').
Proof.
  eexists _, _. split; [vm_compute; reflexivity|].
  repeat split; vm_compute; reflexivity.
Qed.

(** On [heap9] the skirt of the second harmonic starts from bin 4, its peak
    in the clean array; located in the noisy array it would start from
    bin 5. *)
Example inner_sinad_heap9 :
  exists v h',
    Sinad.inner_sinad_locals 1%positive 2%positive 256 32 [2] heap9
    = (Ok v, h') /\
    Sinad.harmonics_bins v = [4; 3; 4] /\
    harmonic_skirts (Sinad.psd_noisy v) (Sinad.psd_noisy v) 256 32 [2]
    = Ok [5; 4; 3; 5; 6; 7; 8].
Proof.
  eexists _, _. split; [vm_compute; reflexivity|].
  split; vm_compute; reflexivity.
Qed.

(** ** The errors of the kernels *)

Lemma raises_only_bind {A B} P (m : result A) (f : A -> result B) :
  raises_only P m -> (forall a, raises_only P (f a)) ->
  raises_only P (m ≫= f).
Proof. destruct m as [a|e]; simpl; auto. Qed.

Lemma raises_only_mapM {A B} P (f : A -> result B) l :
  (forall a, raises_only P (f a)) -> raises_only P (mapM f l).
Proof.
  intros Hf. induction l as [|x l IH]; [exact I|].
  rewrite mapM_result_cons. apply raises_only_bind; [apply Hf|intros y].
  apply raises_only_bind; [exact IH|intros k]. exact I.
Qed.

Create HintDb kernel.

Ltac kernel :=
  repeat first
    [ exact I
    | solve [auto with kernel nocore]
    | apply raises_only_bind; [|intros ?]
    | apply raises_only_mapM; intros ?
    | match goal with
      | |- raises_only _ (if ?b then _ else _) => destruct b
      | |- raises_only _ (match ?x with _ => _ end) => destruct x
      | |- raises_only _ (let '(_, _) := ?x in _) => destruct x
      | |- raises_only _ (Raise _) => simpl; auto
      end ].

Lemma norm_index_kernel n i : raises_only kernel_error (norm_index n i).
Proof. unfold norm_index. kernel. Qed.
#[local] Hint Resolve norm_index_kernel : kernel.

Lemma getitem_kernel {A} (a : list A) i : raises_only kernel_error (getitem a i).
Proof. unfold getitem. kernel. Qed.
#[local] Hint Resolve getitem_kernel : kernel.

Lemma fdiv_kernel x y : raises_only kernel_error (fdiv x y).
Proof. unfold fdiv. kernel. Qed.
#[local] Hint Resolve fdiv_kernel : kernel.

Lemma argmax_kernel a : raises_only kernel_error (Np.argmax a).
Proof. unfold Np.argmax. kernel. Qed.
#[local] Hint Resolve argmax_kernel : kernel.

Lemma subtract_kernel a b : raises_only kernel_error (Np.subtract a b).
Proof. unfold Np.subtract. kernel. Qed.
#[local] Hint Resolve subtract_kernel : kernel.

Lemma take_kernel a idx : raises_only kernel_error (Np.take_ a idx).
Proof. unfold Np.take_. kernel. Qed.
#[local] Hint Resolve take_kernel : kernel.

Lemma delete_kernel a obj : raises_only kernel_error (Np.delete a obj).
Proof. unfold Np.delete. kernel. Qed.
#[local] Hint Resolve delete_kernel : kernel.

Lemma find_nearest_peak_around_kernel beyond s center w :
  raises_only kernel_error (find_nearest_peak_around beyond s center w).
Proof.
  unfold find_nearest_peak_around. kernel.
Qed.
#[local] Hint Resolve find_nearest_peak_around_kernel : kernel.

Lemma search_window_kernel hint_idx search_width ps :
  raises_only kernel_error (search_window hint_idx search_width ps).
Proof.
  unfold search_window. kernel.
Qed.
#[local] Hint Resolve search_window_kernel : kernel.

Lemma find_peak_bin_from_freq_kernel freq ps sr w :
  raises_only kernel_error (find_peak_bin_from_freq freq ps sr w).
Proof.
  unfold find_peak_bin_from_freq. kernel.
Qed.
#[local] Hint Resolve find_peak_bin_from_freq_kernel : kernel.

Lemma walk_before_kernel ps p steps : forall crt acc,
  raises_only kernel_error (walk_before ps p crt steps acc).
Proof.
  induction steps as [|i rest IH]; intros crt acc; [exact I|].
  simpl walk_before. kernel.
Qed.
#[local] Hint Resolve walk_before_kernel : kernel.

Lemma walk_after_kernel ps p steps : forall crt acc,
  raises_only kernel_error (walk_after ps p crt steps acc).
Proof.
  induction steps as [|i rest IH]; intros crt acc; [exact I|].
  simpl walk_after. kernel.
Qed.
#[local] Hint Resolve walk_after_kernel : kernel.

Lemma find_peak_bins_kernel p ps w :
  raises_only kernel_error (find_peak_bins p ps w).
Proof.
  unfold find_peak_bins. kernel.
Qed.
#[local] Hint Resolve find_peak_bins_kernel : kernel.

Lemma harmonic_skirts_kernel reference measured sr f hs :
  raises_only kernel_error (harmonic_skirts reference measured sr f hs).
Proof.
  unfold harmonic_skirts. kernel.
Qed.
#[local] Hint Resolve harmonic_skirts_kernel : kernel.

Lemma inner_snr_kernel ps sr f hs excl :
  raises_only kernel_error (Snr.inner_snr ps sr f hs excl).
Proof.
  unfold Snr.inner_snr, Snr.inner_snr_locals.
  kernel. rewrite snr_harmonics_loop_skirts. kernel.
Qed.
#[local] Hint Resolve inner_snr_kernel : kernel.

Lemma M_raises_only_bind {A B} P (m : M A) (f : A -> M B) :
  M_raises_only P m -> (forall a, M_raises_only P (f a)) ->
  M_raises_only P (m ≫= f).
Proof.
  intros Hm Hf h. unfold mbind, M_bind. specialize (Hm h).
  destruct (m h) as [[a|e] h1]; [apply Hf|exact Hm].
Qed.

Lemma M_raises_only_lift {A} P (r : result A) :
  raises_only P r -> M_raises_only P (lift r).
Proof. intros H h. exact H. Qed.

Lemma M_raises_only_read l : M_raises_only kernel_error (read l).
Proof. intros h. unfold read. destruct (h !! l); exact I. Qed.

Lemma M_raises_only_typed l : M_raises_only kernel_error (typed l).
Proof. intros h. unfold typed. destruct (h !! l); exact I. Qed.

Lemma M_raises_only_write P l a : M_raises_only P (write l a).
Proof. intros h. exact I. Qed.

Lemma M_raises_only_ret {A} P (a : A) : M_raises_only P (mret a : M A).
Proof. intros h. exact I. Qed.

Lemma inner_sinad_kernel nl cl sr f hs :
  M_raises_only kernel_error (Sinad.inner_sinad nl cl sr f hs).
Proof.
  unfold Sinad.inner_sinad, Sinad.inner_sinad_locals.
  repeat first
    [ apply M_raises_only_ret | apply M_raises_only_read
    | apply M_raises_only_typed | apply M_raises_only_write
    | apply M_raises_only_lift;
      first [rewrite sinad_harmonics_loop_skirts|idtac]; kernel
    | apply M_raises_only_bind; [|intros ?] ].
Qed.

(** ** The validation *)

Lemma sort_first l :
  l <> [] ->
  exists lowest,
    getitem (Np.sort l) 0 = Ok lowest /\ lowest ∈ l /\
    forall x, x ∈ l -> lowest <= x.
Proof.
  intros Hl. unfold Np.sort.
  pose proof (merge_sort_Permutation Z.le l) as Hp.
  pose proof (StronglySorted_merge_sort Z.le l) as Hs.
  destruct (merge_sort Z.le l) as [|a s].
  { apply Permutation_nil_l in Hp. congruence. }
  exists a. split; [apply getitem_first|].
  apply StronglySorted_inv in Hs as [_ Ha].
  split.
  - rewrite <- Hp. left.
  - intros x Hx. rewrite <- Hp in Hx.
    apply elem_of_cons in Hx as [->|Hx]; [lia|].
    rewrite Forall_forall in Ha. apply Ha, Hx.
Qed.

Lemma sort_last l :
  l <> [] ->
  exists highest,
    getitem (Np.sort l) (-1) = Ok highest /\ highest ∈ l /\
    forall x, x ∈ l -> x <= highest.
Proof.
  intros Hl. unfold Np.sort.
  pose proof (merge_sort_Permutation Z.le l) as Hp.
  pose proof (StronglySorted_merge_sort Z.le l) as Hs.
  destruct (merge_sort Z.le l) as [|z s _] using rev_ind.
  { apply Permutation_nil_l in Hp. congruence. }
  exists z. split; [apply getitem_last|].
  split.
  - rewrite <- Hp. apply elem_of_app. right. left.
  - intros x Hx. rewrite <- Hp in Hx.
    apply elem_of_app in Hx as [Hx|Hx].
    + eapply (StronglySorted_app_1_elem_of Z.le s [z]); [exact Hs|exact Hx|left].
    + apply list_elem_of_singleton in Hx. lia.
Qed.

Lemma len_pos_nonempty {A} (l : list A) : (len l >? 0) = true <-> l <> [].
Proof.
  unfold len. destruct l as [|x l]; split; intros H.
  - discriminate.
  - congruence.
  - discriminate.
  - apply Z.gtb_gt. simpl length. lia.
Qed.

Lemma fdiv_nonzero x y : ~ (y <= 0)%Q -> fdiv x y = Ok (x / y)%Q.
Proof.
  intros Hy. unfold fdiv. destruct (Qeq_bool y 0) eqn:E; [|reflexivity].
  apply Qeq_bool_iff in E. exfalso. apply Hy. rewrite E. apply Qle_refl.
Qed.

Lemma Qgtb_true x y : Qgtb x y = true <-> (y < x)%Q.
Proof.
  unfold Qgtb. rewrite negb_true_iff, <- not_true_iff_false, Qle_bool_iff.
  split; [apply Qnot_le_lt|apply Qlt_not_le].
Qed.

Ltac unfold_M := unfold mbind, M_bind, mret, M_ret, lift, raise; simpl.

Lemma array_int32_fits l : Forall int32 l -> Np.array_int32 l = Ok l.
Proof.
  intros H. unfold Np.array_int32.
  replace (forallb _ l) with true; [reflexivity|].
  symmetry. induction H as [|x l Hx _ IH]; [reflexivity|].
  simpl. rewrite IH. unfold int32 in Hx.
  destruct (Z.leb_spec (-2147483648) x); [|lia].
  destruct (Z.leb_spec x 2147483647); [reflexivity|lia].
Qed.

Lemma array_int32_overflow l :
  ~ Forall int32 l -> Np.array_int32 l = Raise OverflowError.
Proof.
  intros H. unfold Np.array_int32.
  destruct (forallb _ l) eqn:E; [|reflexivity].
  exfalso. apply H. clear H.
  induction l as [|x l IH]; [constructor|].
  simpl in E. apply andb_prop in E as [Hx E].
  apply andb_prop in Hx as [H1 H2]. apply Z.leb_le in H1, H2.
  constructor; [unfold int32; lia|apply IH, E].
Qed.

Lemma snr_build_harmonics magnitude sr f hs excl h :
  Snr.snr magnitude sr f hs excl h
  = (harmonics ← lift (build_harmonics sr f hs);
     magnitude ← read magnitude;
     lift (Snr.inner_snr (Np.square magnitude) sr f harmonics excl)) h.
Proof.
  unfold Snr.snr, build_harmonics.
  destruct (Qle_bool sr 0); [reflexivity|].
  destruct (_ || _); [reflexivity|].
  destruct hs as [p|l0]; [reflexivity|].
  unfold_M.
  destruct (Np.array_int32 l0) as [l|e]; [|reflexivity]. simpl.
  destruct (len l >? 0); [|reflexivity].
  unfold_M.
  destruct (getitem (Np.sort l) 0) as [lowest|e]; [|reflexivity]. simpl.
  destruct (lowest <? 2); [reflexivity|].
  destruct (fdiv (sr / 2) f) as [q|e]; [|reflexivity]. simpl.
  destruct (getitem (Np.sort l) (-1)) as [highest|e]; [|reflexivity]. simpl.
  destruct (highest >? Qfloor q); reflexivity.
Qed.

Lemma sinad_build_harmonics nl cl sr f hs h :
  Sinad.sinad nl cl sr f hs h
  = (harmonics ← lift (build_harmonics sr f hs);
     Sinad.inner_sinad nl cl sr f harmonics) h.
Proof.
  unfold Sinad.sinad, build_harmonics.
  destruct (Qle_bool sr 0); [reflexivity|].
  destruct (_ || _); [reflexivity|].
  destruct hs as [p|l0]; [reflexivity|].
  unfold_M.
  destruct (Np.array_int32 l0) as [l|e]; [|reflexivity]. simpl.
  destruct (len l >? 0); [|reflexivity].
  unfold_M.
  destruct (getitem (Np.sort l) 0) as [lowest|e]; [|reflexivity]. simpl.
  destruct (lowest <? 2); [reflexivity|].
  destruct (fdiv (sr / 2) f) as [q|e]; [|reflexivity]. simpl.
  destruct (getitem (Np.sort l) (-1)) as [highest|e]; [|reflexivity]. simpl.
  destruct (highest >? Qfloor q); reflexivity.
Qed.

(** The harmonic above the top, for a sample rate and a fundamental that
    pass and harmonics that are all at least 2. *)
Lemma build_harmonics_top sr f l :
  ~ (sr <= 0)%Q -> ~ (f <= 0)%Q -> (f <= sr / 2)%Q -> l <> [] ->
  Forall int32 l ->
  (forall x, x ∈ l -> 2 <= x) ->
  (exists x, x ∈ l /\ Qfloor (sr / 2 / f) < x) ->
  build_harmonics sr f (Explicit l)
  = Raise (ValueError (top_harmonic_message (Qfloor (sr / 2 / f)))).
Proof.
  intros Hsr Hf Hny Hl H32 Hlow (x & Hx & Htop). unfold build_harmonics.
  destruct (Qle_bool sr 0) eqn:E1; [apply Qle_bool_iff in E1; tauto|].
  destruct (Qle_bool f 0) eqn:E2; [apply Qle_bool_iff in E2; tauto|].
  destruct (Qgtb f (sr / 2)) eqn:E3.
  { apply Qgtb_true, Qlt_not_le in E3. tauto. }
  cbn [orb]. rewrite (array_int32_fits l H32). cbn [mbind result_bind].
  rewrite (proj2 (len_pos_nonempty l) Hl).
  destruct (sort_first l Hl) as (lowest & -> & Hin & _). cbn [mbind result_bind].
  destruct (Z.ltb_spec lowest 2) as [Hlt|_]; [specialize (Hlow _ Hin); lia|].
  rewrite fdiv_nonzero by exact Hf. cbn [mbind result_bind].
  destruct (sort_last l Hl) as (highest & -> & _ & Hmax). cbn [mbind result_bind].
  destruct (Z.gtb_spec highest (Qfloor (sr / 2 / f))) as [_|Hle];
    [reflexivity|].
  specialize (Hmax _ Hx). lia.
Qed.

(** On an explicit list that fits [np.int32], and on a policy,
    [build_harmonics] raises a validation error on the parameters that the
    specification rejects, and returns a harmonic vector on all others. *)
Lemma build_harmonics_cases sr f hs :
  fits_int32 hs ->
  (invalid_parameters sr f hs /\
   exists e, validation_error sr f e /\ build_harmonics sr f hs = Raise e) \/
  (~ invalid_parameters sr f hs /\
   exists harmonics, build_harmonics sr f hs = Ok harmonics).
Proof.
  intros H32.
  unfold build_harmonics, invalid_parameters, validation_error.
  destruct (Qle_bool sr 0) eqn:E1.
  { apply Qle_bool_iff in E1. left. split; [auto|]. eexists. split; [|reflexivity]. auto. }
  assert (Hsr : ~ (sr <= 0)%Q).
  { intros H. apply Qle_bool_iff in H. congruence. }
  destruct (Qle_bool f 0) eqn:E2.
  { apply Qle_bool_iff in E2. left. split; [auto|]. eexists. split; [|reflexivity]. auto. }
  assert (Hf : ~ (f <= 0)%Q).
  { intros H. apply Qle_bool_iff in H. congruence. }
  destruct (Qgtb f (sr / 2)) eqn:E3.
  { apply Qgtb_true in E3. left. split; [auto|]. eexists. split; [|reflexivity]. auto. }
  assert (Hny : ~ (sr / 2 < f)%Q).
  { intros H. apply Qgtb_true in H. congruence. }
  cbn [orb].
  destruct hs as [p|l].
  - right. split; [tauto|].
    unfold compute_harmonics. rewrite fdiv_nonzero by exact Hf.
    destruct p; eexists; reflexivity.
  - simpl in H32. rewrite (array_int32_fits l H32). cbn [mbind result_bind].
    destruct (len l >? 0) eqn:El.
    2:{ right. split; [|eauto].
        intros [?|[?|[?|[Hl _]]]]; try tauto.
        apply len_pos_nonempty in Hl. congruence. }
    apply len_pos_nonempty in El.
    destruct (sort_first l El) as (lowest & -> & Hlin & Hmin). cbn [mbind result_bind].
    destruct (Z.ltb_spec lowest 2) as [Hlt|Hge].
    { left. split; [|eexists; split; [|reflexivity]; auto].
      do 3 right. split; [exact El|]. exists lowest. auto. }
    rewrite fdiv_nonzero by exact Hf. cbn [mbind result_bind].
    destruct (sort_last l El) as (highest & -> & Hhin & Hmax). cbn [mbind result_bind].
    destruct (Z.gtb_spec highest (Qfloor (sr / 2 / f))) as [Hgt|Hle].
    { left. split; [|eexists; split; [|reflexivity]; auto].
      do 3 right. split; [exact El|]. exists highest. split; [exact Hhin|lia]. }
    right. split; [|eauto].
    intros [?|[?|[?|[_ (x & Hx & [Hx2|Hxt])]]]]; try tauto.
    + specialize (Hmin _ Hx). lia.
    + specialize (Hmax _ Hx). lia.
Qed.

Lemma kernel_not_validation sr f e :
  kernel_error e -> ~ validation_error sr f e.
Proof.
  unfold validation_error, top_harmonic_message.
  intros Hk [-> | [-> | [-> | ->]]]; simpl in Hk;
    destruct Hk as [Hk|Hk]; discriminate Hk.
Qed.

Lemma snr_after_validation magnitude sr f harmonics excl :
  M_raises_only kernel_error
    (magnitude ← read magnitude;
     lift (Snr.inner_snr (Np.square magnitude) sr f harmonics excl)).
Proof.
  apply M_raises_only_bind; [apply M_raises_only_read|intros a].
  apply M_raises_only_lift, inner_snr_kernel.
Qed.

(** An explicit list with an element that does not fit [np.int32] is
    refused by the conversion, once the sample rate and the fundamental have
    passed: no check of the harmonics is reached and nothing is read. *)
Lemma build_harmonics_overflow sr f l :
  ~ (sr <= 0)%Q -> ~ (f <= 0)%Q -> (f <= sr / 2)%Q -> ~ Forall int32 l ->
  build_harmonics sr f (Explicit l) = Raise OverflowError.
Proof.
  intros Hsr Hf Hny H32. unfold build_harmonics.
  destruct (Qle_bool sr 0) eqn:E1; [apply Qle_bool_iff in E1; tauto|].
  destruct (Qle_bool f 0) eqn:E2; [apply Qle_bool_iff in E2; tauto|].
  destruct (Qgtb f (sr / 2)) eqn:E3.
  { apply Qgtb_true, Qlt_not_le in E3. tauto. }
  cbn [orb]. rewrite (array_int32_overflow l H32). reflexivity.
Qed.

(** C8, as the code has it: on a policy, or on an explicit list whose
    elements fit [np.int32], [snr] and [sinad] end in a validation error
    exactly on the parameters the specification rejects: a sample rate that
    is not positive, a fundamental that is not positive or above half the
    sample rate, or an explicit, non-empty list of harmonics with an element
    below 2 or above the floor of half the sample rate over the
    fundamental.  They do so whatever the heap holds, even no array at all,
    and leave it as it is; for a harmonic above the top the message ends
    with that top. *)
Theorem snr_sinad_validation magnitude nl cl sr f hs excl h :
  fits_int32 hs ->
  (raises_validation_error sr f (Snr.snr magnitude sr f hs excl h)
   <-> invalid_parameters sr f hs) /\
  (raises_validation_error sr f (Sinad.sinad nl cl sr f hs h)
   <-> invalid_parameters sr f hs) /\
  (invalid_parameters sr f hs ->
   Snr.snr magnitude sr f hs excl h
   = ((Snr.snr magnitude sr f hs excl ∅).1, h) /\
   Sinad.sinad nl cl sr f hs h = ((Sinad.sinad nl cl sr f hs ∅).1, h)) /\
  (forall l,
     hs = Explicit l ->
     ~ (sr <= 0)%Q -> ~ (f <= 0)%Q -> (f <= sr / 2)%Q -> l <> [] ->
     (forall x, x ∈ l -> 2 <= x) ->
     (exists x, x ∈ l /\ Qfloor (sr / 2 / f) < x) ->
     (Snr.snr magnitude sr f hs excl h).1
     = Raise (ValueError (top_harmonic_message (Qfloor (sr / 2 / f)))) /\
     (Sinad.sinad nl cl sr f hs h).1
     = Raise (ValueError (top_harmonic_message (Qfloor (sr / 2 / f))))).
Proof.
  intros H32.
  rewrite !snr_build_harmonics, !sinad_build_harmonics.
  unfold raises_validation_error.
  destruct (build_harmonics_cases sr f hs H32)
    as [(Hinv & e & He & E)|(Hval & harmonics & E)].
  - split; [|split; [|split]].
    + split; [auto|]. intros _. exists e. split; [exact He|].
      unfold_M. rewrite E. reflexivity.
    + split; [auto|]. intros _. exists e. split; [exact He|].
      unfold_M. rewrite E. reflexivity.
    + intros _. unfold_M. rewrite E. auto.
    + intros l -> Hsr Hf Hny Hl Hlow Htop.
      unfold_M. rewrite (build_harmonics_top sr f l) by assumption. auto.
  - split; [|split; [|split]].
    + split; [|tauto]. intros (e & He & Hrun). exfalso.
      pose proof (snr_after_validation magnitude sr f harmonics excl h) as Hk.
      revert Hrun. unfold mbind at 1. unfold M_bind at 1. unfold lift at 1.
      rewrite E. intros Hrun. rewrite Hrun in Hk.
      exact (kernel_not_validation sr f e Hk He).
    + split; [|tauto]. intros (e & He & Hrun). exfalso.
      pose proof (inner_sinad_kernel nl cl sr f harmonics h) as Hk.
      revert Hrun. unfold mbind at 1. unfold M_bind at 1. unfold lift at 1.
      rewrite E. intros Hrun. rewrite Hrun in Hk.
      exact (kernel_not_validation sr f e Hk He).
    + tauto.
    + intros l -> Hsr Hf Hny Hl Hlow Htop.
      rewrite (build_harmonics_top sr f l) in E by assumption. discriminate.
Qed.

Lemma snr_sinad_validation_witness :
  raises_validation_error 48000 1000
    (Snr.snr 1%positive 48000 1000 (Explicit [25; 2]) false ∅)
  <-> invalid_parameters 48000 1000 (Explicit [25; 2]).
Proof.
  apply (snr_sinad_validation 1%positive 1%positive 2%positive 48000 1000
           (Explicit [25; 2]) false ∅).
  simpl. repeat constructor; unfold int32; lia.
Defined.

(** C8, as stated, fails: the harmonic 2^31 is above the top, 24, but it does
    not fit [np.int32], and [snr] and [sinad] end in the [OverflowError] of
    the conversion, which is no validation error and carries no top. *)
Lemma snr_sinad_validation_outside_int32 :
  invalid_parameters 48000 1000 (Explicit [2147483648]) /\
  Snr.snr 1%positive 48000 1000 (Explicit [2147483648]) false ∅
  = (Raise OverflowError, ∅) /\
  Sinad.sinad 1%positive 2%positive 48000 1000 (Explicit [2147483648]) ∅
  = (Raise OverflowError, ∅) /\
  ~ (raises_validation_error 48000 1000
       (Snr.snr 1%positive 48000 1000 (Explicit [2147483648]) false ∅)
     <-> invalid_parameters 48000 1000 (Explicit [2147483648])) /\
  ~ (raises_validation_error 48000 1000
       (Sinad.sinad 1%positive 2%positive 48000 1000 (Explicit [2147483648]) ∅)
     <-> invalid_parameters 48000 1000 (Explicit [2147483648])).
Proof.
  assert (Hinv : invalid_parameters 48000 1000 (Explicit [2147483648])).
  { do 3 right. split; [discriminate|]. exists 2147483648.
    split; [left|]. right. vm_compute. reflexivity. }
  assert (Hsnr : Snr.snr 1%positive 48000 1000 (Explicit [2147483648]) false ∅
                 = (Raise OverflowError, ∅)) by (vm_compute; reflexivity).
  assert (Hsinad : Sinad.sinad 1%positive 2%positive 48000 1000
                     (Explicit [2147483648]) ∅
                   = (Raise OverflowError, ∅)) by (vm_compute; reflexivity).
  split; [exact Hinv|]. split; [exact Hsnr|]. split; [exact Hsinad|].
  unfold raises_validation_error, validation_error. rewrite Hsnr, Hsinad.
  split; intros [_ H]; destruct (H Hinv) as (e & He & Hr); simpl in Hr;
    injection Hr as <-; destruct He as [He|[He|[He|He]]]; discriminate He.
Qed.

Example snr_rejects_zero_samplerate :
  Snr.snr 1%positive 0 1000 (Explicit []) false ∅
  = (Raise (ValueError "Invalid samplerate value"), ∅).
Proof. reflexivity. Qed.

Example sinad_rejects_fundamental_above_nyquist :
  Sinad.sinad 1%positive 2%positive 48000 24001 (Explicit []) ∅
  = (Raise (ValueError "Invalid fundamental value"), ∅).
Proof. reflexivity. Qed.

Example snr_rejects_harmonic_one :
  Snr.snr 1%positive 48000 1000 (Explicit [1; 2]) false ∅
  = (Raise (ValueError "Harmonics values must be >=2"), ∅).
Proof. vm_compute. reflexivity. Qed.

Example snr_rejects_harmonic_above_top :
  Snr.snr 1%positive 48000 1000 (Explicit [25; 2]) false ∅
  = (Raise (ValueError
       "Given your fundamental, the highest harmonic value should be 24"), ∅).
Proof. vm_compute. reflexivity. Qed.

(** ** The scaling in place *)

Lemma M_bind_run {A B} (m : M A) (f : A -> M B) h :
  (m ≫= f) h
  = match m h with
    | (Ok a, h1) => f a h1
    | (Raise e, h1) => (Raise e, h1)
    end.
Proof. reflexivity. Qed.

Lemma bind_lift_run {A B} (r : result A) (f : A -> M B) h :
  (lift r ≫= f) h
  = match r with Ok a => f a h | Raise e => (Raise e, h) end.
Proof. unfold mbind, M_bind, lift. destruct r; reflexivity. Qed.

Lemma bind_read_run {B} l (f : list Q -> M B) h :
  (read l ≫= f) h
  = match h !! l with Some a => f a h | None => (Raise TypeError, h) end.
Proof. unfold mbind, M_bind, read. destruct (h !! l); reflexivity. Qed.

Lemma bind_typed_run {B} l (f : unit -> M B) h :
  (typed l ≫= f) h
  = match h !! l with Some _ => f tt h | None => (Raise TypingError, h) end.
Proof. unfold mbind, M_bind, typed. destruct (h !! l); reflexivity. Qed.

Lemma bind_write_run {B} l a (f : unit -> M B) h :
  (write l a ≫= f) h = f tt (<[l := a]> h).
Proof. reflexivity. Qed.

(** A run of [inner_sinad_locals] either cannot compute the gain, and then
    raises and leaves the heap as it was, or computes it and leaves the heap
    with the noisy array scaled by it, whatever happens afterwards. *)
Lemma inner_sinad_locals_scaling nl cl sr f hs h :
  ((Sinad.inner_sinad_locals nl cl sr f hs h).2 = h /\
   is_ok (Sinad.inner_sinad_locals nl cl sr f hs h).1 = false /\
   forall noisy gain, ~ computed_gain nl cl sr f h noisy gain) \/
  (exists noisy gain,
     computed_gain nl cl sr f h noisy gain /\
     (Sinad.inner_sinad_locals nl cl sr f hs h).2
     = <[nl := scaled gain noisy]> h).
Proof.
  unfold Sinad.inner_sinad_locals.
  rewrite bind_typed_run.
  destruct (h !! nl) as [noisy|] eqn:En.
  2:{ left. repeat split; try reflexivity.
      intros n g (c & b & s & i & l & En' & _). congruence. }
  rewrite bind_typed_run.
  destruct (h !! cl) as [clean|] eqn:Ec.
  2:{ left. repeat split; try reflexivity.
      intros n g (c & b & s & i & l & _ & Ec' & _). congruence. }
  rewrite bind_read_run, En, bind_lift_run.
  destruct (find_peak_bin_from_freq f noisy sr default_search_width_hz)
    as [fund_bin|e] eqn:Eb.
  2:{ left. repeat split; try reflexivity.
      intros n g (c & b & s & i & l & En' & _ & Eb' & _). congruence. }
  rewrite bind_lift_run.
  destruct (find_peak_bins fund_bin noisy default_search_width)
    as [skirt|e] eqn:Es.
  2:{ left. repeat split; try reflexivity.
      intros n g (c & b & s & i & l & En' & _ & Eb' & Es' & _).
      assert (n = noisy) as -> by congruence.
      assert (b = fund_bin) as -> by congruence. congruence. }
  rewrite bind_lift_run.
  destruct (getitem skirt 0) as [first|e] eqn:Ef.
  2:{ left. repeat split; try reflexivity.
      intros n g (c & b & s & i & l & En' & _ & Eb' & Es' & Ef' & _).
      assert (n = noisy) as -> by congruence.
      assert (b = fund_bin) as -> by congruence.
      assert (s = skirt) as -> by congruence. congruence. }
  rewrite bind_lift_run.
  destruct (getitem skirt (-1)) as [last|e] eqn:El.
  2:{ left. repeat split; try reflexivity.
      intros n g (c & b & s & i & l & En' & _ & Eb' & Es' & _ & El' & _).
      assert (n = noisy) as -> by congruence.
      assert (b = fund_bin) as -> by congruence.
      assert (s = skirt) as -> by congruence. congruence. }
  rewrite bind_read_run, Ec, bind_lift_run.
  destruct (fdiv (Np.sum (slice noisy first last))
              (Np.sum (slice clean first last))) as [gain|e] eqn:Eg.
  2:{ left. repeat split; try reflexivity.
      intros n g (c & b & s & i & l & En' & Ec' & Eb' & Es' & Ef' & El' & Eg').
      assert (n = noisy) as -> by congruence.
      assert (c = clean) as -> by congruence.
      assert (b = fund_bin) as -> by congruence.
      assert (s = skirt) as -> by congruence.
      assert (i = first) as -> by congruence.
      assert (l = last) as -> by congruence. congruence. }
  right. exists noisy, gain. split.
  { exists clean, fund_bin, skirt, first, last. repeat split; assumption. }
  rewrite bind_write_run.
  match goal with |- (?m ?h1).2 = _ =>
    assert (Hs : heap_stable m) by heap_stable; apply (Hs h1)
  end.
Qed.

Lemma computed_gain_unique nl cl sr f h noisy gain noisy' gain' :
  computed_gain nl cl sr f h noisy gain ->
  computed_gain nl cl sr f h noisy' gain' ->
  noisy' = noisy /\ gain' = gain.
Proof.
  intros (c & b & s & i & l & En & Ec & Eb & Es & Ef & El & Eg)
         (c' & b' & s' & i' & l' & En' & Ec' & Eb' & Es' & Ef' & El' & Eg').
  assert (noisy' = noisy) as -> by congruence.
  assert (c' = c) as -> by congruence.
  assert (b' = b) as -> by congruence.
  assert (s' = s) as -> by congruence.
  assert (i' = i) as -> by congruence.
  assert (l' = l) as -> by congruence.
  split; congruence.
Qed.

Lemma inner_sinad_after_locals nl cl sr f hs h :
  (Sinad.inner_sinad nl cl sr f hs h).2
  = (Sinad.inner_sinad_locals nl cl sr f hs h).2 /\
  (is_ok (Sinad.inner_sinad nl cl sr f hs h).1 = true ->
   is_ok (Sinad.inner_sinad_locals nl cl sr f hs h).1 = true).
Proof.
  unfold Sinad.inner_sinad. rewrite M_bind_run.
  destruct (Sinad.inner_sinad_locals nl cl sr f hs h) as [[v|e] h1];
    [|split; [reflexivity|simpl; intros H; exact H]].
  rewrite bind_lift_run.
  destruct (fdiv _ _); (split; [reflexivity|intros _; reflexivity]).
Qed.

Lemma sinad_run nl cl sr f hs h :
  Sinad.sinad nl cl sr f hs h
  = match build_harmonics sr f hs with
    | Ok harmonics => Sinad.inner_sinad nl cl sr f harmonics h
    | Raise e => (Raise e, h)
    end.
Proof.
  rewrite sinad_build_harmonics. unfold mbind, M_bind, lift.
  destruct (build_harmonics sr f hs); reflexivity.
Qed.

(** C9: whatever a call of [sinad] returns or raises, it leaves the heap as
    it was or with the noisy array replaced by its multiples by the gain:
    the sum of the noisy over the sum of the clean magnitudes, each from the
    first to the last element of the skirt of the fundamental.  A call that
    returns has scaled; so has every call whose parameters pass the
    validation and whose gain can be computed, also one that raises
    afterwards.  No other array changes, and the clean array is as it was
    (if the caller passed one array for both, the gain is one).  [snr]
    leaves the heap as it found it and computes on the squares of its
    input. *)
Theorem sinad_scales_noisy_in_place nl cl sr f hs h r h' :
  Sinad.sinad nl cl sr f hs h = (r, h') ->
  (h' = h \/
   exists noisy gain,
     computed_gain nl cl sr f h noisy gain /\
     h' = <[nl := scaled gain noisy]> h) /\
  (is_ok r = true ->
   exists noisy gain,
     computed_gain nl cl sr f h noisy gain /\
     h' = <[nl := scaled gain noisy]> h) /\
  (forall noisy gain,
     is_ok (build_harmonics sr f hs) = true ->
     computed_gain nl cl sr f h noisy gain ->
     h' = <[nl := scaled gain noisy]> h) /\
  (forall l, l <> nl -> h' !! l = h !! l) /\
  (forall clean,
     h !! cl = Some clean ->
     exists clean', h' !! cl = Some clean' /\ Forall2 Qeq clean' clean) /\
  (forall magnitude sr f hs excl h,
     (Snr.snr magnitude sr f hs excl h).2 = h /\
     forall d,
       (Snr.snr magnitude sr f hs excl h).1 = Ok d ->
       exists a harmonics,
         h !! magnitude = Some a /\
         Snr.inner_snr (Np.square a) sr f harmonics excl = Ok d).
Proof.
  intros Hrun.
  assert (Hcases :
    (h' = h /\ (is_ok r = true -> False) /\
     (is_ok (build_harmonics sr f hs) = true ->
      forall noisy gain, ~ computed_gain nl cl sr f h noisy gain)) \/
    (exists noisy gain,
       computed_gain nl cl sr f h noisy gain /\
       h' = <[nl := scaled gain noisy]> h)).
  { rewrite sinad_run in Hrun.
    destruct (build_harmonics sr f hs) as [harmonics|e].
    2:{ injection Hrun as <- <-. left. repeat split; auto; discriminate. }
    destruct (inner_sinad_after_locals nl cl sr f harmonics h) as [Hh Hok].
    rewrite Hrun in Hh, Hok. simpl in Hh, Hok.
    destruct (inner_sinad_locals_scaling nl cl sr f harmonics h)
      as [(E & Hfail & Hno)|(noisy & gain & Hg & E)].
    - left. split; [congruence|]. split; [|auto].
      intros H. apply Hok in H. congruence.
    - right. exists noisy, gain. split; [exact Hg|congruence]. }
  assert (Hframe : forall l, l <> nl -> h' !! l = h !! l).
  { intros l Hl. destruct Hcases as [(-> & _)|(noisy & gain & _ & ->)];
      [reflexivity|]. apply lookup_insert_ne. congruence. }
  split; [|split; [|split; [|split; [|split]]]].
  - destruct Hcases as [(H & _)|H]; auto.
  - intros Hok. destruct Hcases as [(_ & H & _)|H]; [tauto|exact H].
  - intros noisy gain Hb Hg.
    destruct Hcases as [(_ & _ & H)|(noisy' & gain' & Hg' & ->)].
    + exfalso. exact (H Hb noisy gain Hg).
    + destruct (computed_gain_unique _ _ _ _ _ _ _ _ _ Hg Hg') as [-> ->].
      reflexivity.
  - exact Hframe.
  - intros clean Ec.
    assert (Hrefl : Forall2 Qeq clean clean).
    { clear. induction clean; constructor; auto. reflexivity. }
    destruct (decide (cl = nl)) as [->|Hne].
    2:{ exists clean. rewrite Hframe by exact Hne. auto. }
    destruct Hcases as [(-> & _)|(noisy & gain & Hg & ->)]; [eauto|].
    rewrite lookup_insert_eq. eexists. split; [reflexivity|].
    destruct Hg as (c & b & s & i & l & En & Ec' & _ & _ & _ & _ & Eg).
    assert (noisy = clean) as -> by congruence.
    assert (c = clean) as -> by congruence.
    unfold scaled. apply scale_by_one. eapply fdiv_self, Eg.
  - intros magnitude sr0 f0 hs0 excl h0. split; [apply snr_heap_stable|].
    intros d0 Hd.
    destruct (Snr.snr magnitude sr0 f0 hs0 excl h0) as [r0 h1] eqn:Hrun0.
    simpl in Hd. subst r0. rewrite snr_build_harmonics in Hrun0.
    apply bind_lift_ok in Hrun0 as (harmonics & _ & Hrun0).
    apply bind_read_ok in Hrun0 as (a & Ea & Hrun0).
    apply lift_inv in Hrun0 as [Hr _].
    exists a, harmonics. auto.
Qed.

Lemma sinad_scales_noisy_in_place_witness :
  exists d h',
    Sinad.sinad 1%positive 2%positive 128 32 (Explicit []) heap_loud6
    = (Ok d, h') /\
    exists noisy gain,
      computed_gain 1%positive 2%positive 128 32 heap_loud6 noisy gain /\
      h' = <[1%positive := scaled gain noisy]> heap_loud6 /\
      noisy = loud6 /\ (gain == 2)%Q.
Proof.
  eexists _, _. split; [vm_compute; reflexivity|].
  match goal with |- exists _ _, _ /\ ?x = _ /\ _ => set (h' := x) end.
  destruct (sinad_scales_noisy_in_place 1%positive 2%positive 128 32
              (Explicit []) heap_loud6 (Ok (TenLog10 (48750 # 15625))) h')
    as (_ & Hscaled & _).
  { vm_compute. reflexivity. }
  destruct (Hscaled eq_refl) as (noisy & gain & Hg & Hh).
  exists noisy, gain. split; [exact Hg|]. split; [exact Hh|].
  destruct Hg as (clean & b & s & i & l & En & Ec & Eb & Es & Ef & El & Eg).
  vm_compute in En. injection En as <-.
  vm_compute in Ec. injection Ec as <-.
  vm_compute in Eb. injection Eb as <-.
  vm_compute in Es. injection Es as <-.
  vm_compute in Ef. injection Ef as <-.
  vm_compute in El. injection El as <-.
  vm_compute in Eg. injection Eg as <-.
  split; reflexivity.
Defined.

(** On [heap_loud6] the gain is 10/5 and every noisy magnitude is doubled,
    the clean ones are as they were. *)
Example sinad_doubles_loud6 :
  exists d h' noisy',
    Sinad.sinad 1%positive 2%positive 128 32 (Explicit []) heap_loud6
    = (Ok d, h') /\
    h' !! 1%positive = Some noisy' /\
    Forall2 Qeq noisy' [2; 4; 20; 4; 14; 6]%Q /\
    h' !! 2%positive = Some clean6.
Proof.
  eexists _, _, _. split; [vm_compute; reflexivity|].
  split; [vm_compute; reflexivity|].
  split; [|vm_compute; reflexivity].
  repeat constructor.
Qed.

(** On [heap_short] the two arrays differ in length: the call raises at the
    difference of line 24, after the noisy array was scaled. *)
Example sinad_raises_after_scaling :
  exists e h' noisy',
    Sinad.sinad 1%positive 2%positive 128 32 (Explicit []) heap_short
    = (Raise e, h') /\
    h' !! 1%positive = Some noisy' /\
    Forall2 Qeq noisy' [2; 4; 20; 4; 14; 6]%Q.
Proof.
  eexists _, _, _. split; [vm_compute; reflexivity|].
  split; [vm_compute; reflexivity|].
  repeat constructor.
Qed.

(** ** The peak locator away from the low edge *)

Lemma argmax_from_range a : forall i best m,
  0 <= best < i -> 0 <= Np.argmax_from i best m a < i + len a.
Proof.
  induction a as [|x a IH]; intros i best m Hb; simpl.
  - unfold len. simpl. lia.
  - assert (len (x :: a) = len a + 1) as -> by (unfold len; simpl; lia).
    destruct (Qgtb x m).
    + specialize (IH (i + 1) i x). lia.
    + specialize (IH (i + 1) best m). lia.
Qed.

Lemma argmax_range a k : Np.argmax a = Ok k -> 0 <= k < len a.
Proof.
  destruct a as [|x a]; [discriminate|]. intros [= <-].
  pose proof (argmax_from_range a 1 0 x). unfold len in *. simpl length. lia.
Qed.

Lemma argmax_nonempty a : 0 < len a -> exists k, Np.argmax a = Ok k.
Proof.
  destruct a as [|x a]; [unfold len; simpl; lia|]. intros _. eexists. reflexivity.
Qed.

Lemma nearest_loop_range beyond s steps k :
  Forall (fun i => 0 <= i) steps ->
  nearest_loop beyond s (len s / 2) steps = Some k -> 0 <= k < len s.
Proof.
  assert (Hc : 0 <= len s / 2 <= len s).
  { unfold len. split; [apply Z.div_pos; lia|].
    apply Z.div_le_upper_bound; lia. }
  assert (Hc' : 0 < len s -> len s / 2 < len s).
  { intros H. apply Z.div_lt; lia. }
  induction 1 as [|i rest Hi _ IH]; [discriminate|].
  simpl nearest_loop.
  set (on_right := is_peak _ (slice s (len s / 2 + i - 1) (len s / 2 + i + 2))).
  set (on_left := is_peak _ (slice s (len s / 2 - i - 1) (len s / 2 - i + 2))).
  destruct (Z.ltb_spec (len s / 2 + i + 1) (len s)) as [Hr|Hr];
    destruct on_right; cbn [andb]; try (intros [= <-]; lia);
    destruct (Z.geb_spec (len s / 2 - i - 1) 0) as [Hl|Hl];
    destruct on_left; cbn [andb]; try (intros [= <-]; lia); exact IH.
Qed.

Lemma find_nearest_peak_around_range beyond s center w k :
  find_nearest_peak_around beyond s center w = Ok k -> 0 <= k < len s.
Proof.
  unfold find_nearest_peak_around.
  destruct (nearest_loop _ _ _ _) as [k'|] eqn:E; intros H.
  - injection H as <-. eapply nearest_loop_range; [|exact E].
    apply Forall_seqZ. lia.
  - apply argmax_range, H.
Qed.

(** On a slice that is not empty the search returns. *)
Lemma find_nearest_peak_around_returns beyond s center w :
  0 < len s -> exists k, find_nearest_peak_around beyond s center w = Ok k.
Proof.
  intros Hs. unfold find_nearest_peak_around.
  destruct (nearest_loop _ _ _ _) as [k'|]; [eauto|].
  apply argmax_nonempty, Hs.
Qed.

Lemma len_slice {A} (a : list A) lo hi :
  0 <= lo <= hi -> hi <= len a -> len (slice a lo hi) = hi - lo.
Proof.
  intros Hlo Hhi. unfold slice, clip_index.
  destruct (Z.ltb_spec lo 0); [lia|]. destruct (Z.ltb_spec hi 0); [lia|].
  unfold len in *. rewrite length_take, length_drop. lia.
Qed.

Lemma hint_index_range freq ps sr :
  (0 < sr)%Q -> (0 < freq)%Q -> (freq <= sr / 2)%Q -> 0 < len ps ->
  0 <= hint_index freq ps sr <= len ps - 1.
Proof.
  intros Hsr Hfreq Hny Hlen. unfold hint_index.
  assert (Hn : (0 <= inject_Z (len ps - 1))%Q).
  { change 0%Q with (inject_Z 0). rewrite <- Zle_Qle. lia. }
  assert (H0 : (0 <= 2 * freq / sr)%Q).
  { apply Qle_shift_div_l; [exact Hsr|].
    rewrite Qmult_0_l. apply Qmult_le_0_compat; [discriminate|].
    apply Qlt_le_weak, Hfreq. }
  assert (H1 : (2 * freq / sr <= 1)%Q).
  { apply Qle_shift_div_r; [exact Hsr|]. rewrite Qmult_1_l.
    setoid_replace sr with (2 * (sr / 2))%Q using relation Qeq by field.
    apply Qmult_le_l; [reflexivity|exact Hny]. }
  split.
  - rewrite <- (Qfloor_Z 0). apply Qfloor_resp_le.
    apply Qmult_le_0_compat; assumption.
  - rewrite <- (Qfloor_Z (len ps - 1)) at 2. apply Qfloor_resp_le.
    rewrite <- (Qmult_1_l (inject_Z (len ps - 1))) at 2.
    apply Qmult_le_compat_r; assumption.
Qed.

Lemma window_half_width_nonneg w ps sr :
  (0 < sr)%Q -> (0 <= w)%Q -> 0 < len ps -> 0 <= window_half_width w ps sr.
Proof.
  intros Hsr Hw Hlen. unfold window_half_width.
  rewrite <- (Qceiling_Z 0). apply Qceiling_resp_le.
  apply Qmult_le_0_compat.
  - apply Qle_shift_div_l.
    + apply Qlt_shift_div_l; [reflexivity|]. rewrite Qmult_0_l. exact Hsr.
    + rewrite Qmult_0_l. exact Hw.
  - change 0%Q with (inject_Z 0). rewrite <- Zle_Qle. lia.
Qed.

(** At a positive sample rate [find_peak_bin_from_freq] is the search from
    its hint bin with its half-width. *)
Lemma find_peak_bin_from_freq_search freq ps sr w :
  (0 < sr)%Q ->
  find_peak_bin_from_freq freq ps sr w
  = search_window (hint_index freq ps sr) (window_half_width w ps sr) ps.
Proof.
  intros Hsr. unfold find_peak_bin_from_freq, hint_index, window_half_width.
  assert (Hsr' : ~ (sr <= 0)%Q) by (apply Qlt_not_le, Hsr).
  assert (Hsr2 : ~ (sr / 2 <= 0)%Q).
  { apply Qlt_not_le, Qlt_shift_div_l; [reflexivity|].
    rewrite Qmult_0_l. exact Hsr. }
  rewrite !fdiv_nonzero by assumption. reflexivity.
Qed.

(** The search, step by step. *)
Lemma search_window_steps hint_idx search_width ps :
  search_window hint_idx search_width ps
  = k ← find_nearest_peak_around
          (view_beyond zeros ps (Z.max 0 (hint_idx - search_width)))
          (slice ps (Z.max 0 (hint_idx - search_width))
             (Z.min (len ps) (hint_idx + search_width + 1)))
          (if hint_idx - search_width <? 0 then hint_idx else search_width)
          search_width;
    Ok (k + hint_idx - search_width).
Proof.
  unfold search_window.
  destruct (Z.ltb_spec (hint_idx - search_width) 0) as [Hneg|Hpos].
  - replace (Z.max 0 (hint_idx - search_width)) with 0 by lia.
    replace (search_width + (hint_idx - search_width)) with hint_idx by lia.
    reflexivity.
  - replace (Z.max 0 (hint_idx - search_width))
      with (hint_idx - search_width) by lia.
    reflexivity.
Qed.

(** From a hint bin inside the spectrum the search returns a bin within the
    half-width of the window and below the end of the spectrum. *)
Lemma search_window_range hint_idx search_width ps :
  0 <= hint_idx < len ps -> 0 <= search_width ->
  exists bin,
    search_window hint_idx search_width ps = Ok bin /\
    hint_idx - search_width <= bin <= hint_idx + search_width /\
    bin < len ps.
Proof.
  intros Hh Hw. rewrite search_window_steps.
  set (lo := Z.max 0 (hint_idx - search_width)).
  set (hi := Z.min (len ps) (hint_idx + search_width + 1)).
  assert (Hls : len (slice ps lo hi) = hi - lo)
    by (apply len_slice; unfold lo, hi; lia).
  destruct (find_nearest_peak_around_returns (view_beyond zeros ps lo)
              (slice ps lo hi)
              (if hint_idx - search_width <? 0 then hint_idx else search_width)
              search_width) as [k Ek].
  { rewrite Hls. unfold lo, hi. lia. }
  rewrite Ek. cbn [mbind result_bind]. eexists. split; [reflexivity|].
  apply find_nearest_peak_around_range in Ek. rewrite Hls in Ek.
  unfold lo, hi in Ek. lia.
Qed.

(** Where the search window does not cross the low edge of the spectrum
    (the hint bin is at least the half-width of the window), a bin that
    [find_peak_bin_from_freq] returns lies inside the spectrum. *)
Lemma find_peak_bin_from_freq_range_unclamped freq ps sr w bin :
  (0 < sr)%Q -> (0 < freq)%Q -> (freq <= sr / 2)%Q -> 0 < len ps ->
  (0 <= w)%Q ->
  window_half_width w ps sr <= hint_index freq ps sr ->
  find_peak_bin_from_freq freq ps sr w = Ok bin ->
  0 <= bin < len ps.
Proof.
  intros Hsr Hfreq Hny Hlen Hw0 Hw E.
  pose proof (hint_index_range freq ps sr Hsr Hfreq Hny Hlen) as Hh.
  pose proof (window_half_width_nonneg w ps sr Hsr Hw0 Hlen) as Hsw.
  rewrite find_peak_bin_from_freq_search in E by exact Hsr.
  destruct (search_window_range (hint_index freq ps sr)
              (window_half_width w ps sr) ps) as (bin' & E' & Hb & Hb');
    [lia|lia|].
  rewrite E' in E. injection E as <-. lia.
Qed.

(** At the high edge a window of two bins makes [is_peak] read the float
    after the spectrum; the bin returned is the last one. *)
Example find_peak_bin_from_freq_high_edge :
  find_peak_bin_from_freq 64 [1; 2; 5; 2; 7; 9]%Q 128 default_search_width_hz
  = Ok 5.
Proof. vm_compute. reflexivity. Qed.

(** * Further properties *)

(** ** The skirt as a run of the spectrum *)

Lemma getitem_value_at ps i :
  0 <= i < len ps -> getitem ps i = Ok (value_at ps i).
Proof.
  intros H. destruct (getitem_in_range ps i H) as (x & E & _).
  unfold value_at. rewrite E. reflexivity.
Qed.

Lemma Qgtb_false x y : Qgtb x y = false <-> (x <= y)%Q.
Proof.
  unfold Qgtb. rewrite negb_false_iff. apply Qle_bool_iff.
Qed.

Section Runs.
Variable ps : list Q.
Variable peak_idx : Z.

(** What the left walk gathers from offset [s] on: [k] bins, each no higher
    than the one before, and the reason it stopped. *)
Lemma walk_before_run (n : nat) : forall s crt acc,
  0 <= s -> peak_idx < len ps ->
  exists k, 0 <= k <= Z.of_nat n /\ (k = 0 \/ s + k - 1 <= peak_idx) /\
    walk_before ps peak_idx crt (seqZ s (Z.of_nat n)) acc
    = Ok (acc ++ ((fun i => peak_idx - i) <$> seqZ s k)) /\
    (0 < k -> (value_at ps (peak_idx - s) <= crt)%Q) /\
    (forall i, s < i < s + k ->
       (value_at ps (peak_idx - i) <= value_at ps (peak_idx - (i - 1)))%Q) /\
    (k < Z.of_nat n ->
     peak_idx - (s + k) < 0 \/
     (k = 0 /\ (crt < value_at ps (peak_idx - s))%Q) \/
     (0 < k /\ (value_at ps (peak_idx - (s + k - 1))
                < value_at ps (peak_idx - (s + k)))%Q)).
Proof.
  induction n as [|n IH]; intros s crt acc Hs Hp.
  - exists 0. simpl. rewrite app_nil_r. repeat split; auto; lia.
  - rewrite seqZ_cons by lia. simpl.
    replace (Z.pred (Z.of_nat (S n))) with (Z.of_nat n) by lia.
    destruct (Z.ltb_spec (peak_idx - s) 0) as [Hneg|Hpos].
    { exists 0. rewrite seqZ_nil by lia. simpl. rewrite app_nil_r.
      repeat split; auto; lia. }
    rewrite getitem_value_at by lia. cbn [mbind result_bind].
    destruct (Qgtb (value_at ps (peak_idx - s)) crt) eqn:Eg.
    { exists 0. rewrite seqZ_nil by lia. simpl. rewrite app_nil_r.
      repeat split; auto; try lia. intros _. right. left.
      split; [reflexivity|]. apply Qgtb_true, Eg. }
    apply Qgtb_false in Eg.
    destruct (IH (Z.succ s) (value_at ps (peak_idx - s))
                (acc ++ [peak_idx - s]))
      as (k & Hk & Hb & E & Hfirst & Hchain & Hstop); [lia|exact Hp|].
    exists (k + 1). rewrite E. split; [lia|]. split; [right; lia|].
    split.
    { rewrite (seqZ_cons s (k + 1)) by lia.
      replace (Z.pred (k + 1)) with k by lia.
      rewrite <- app_assoc. reflexivity. }
    split; [intros _; exact Eg|]. split.
    + intros i Hi. destruct (Z.eq_dec i (Z.succ s)) as [->|Hne].
      * replace (Z.succ s - 1) with s by lia. apply Hfirst. lia.
      * apply Hchain. lia.
    + intros Hlt. destruct Hstop as [H|[[-> H]|[Hk0 H]]]; [lia|left; lia| |].
      * right. right. split; [lia|].
        replace (s + (0 + 1) - 1) with s by lia.
        replace (s + (0 + 1)) with (Z.succ s) by lia. exact H.
      * right. right. split; [lia|].
        replace (s + (k + 1) - 1) with (Z.succ s + k - 1) by lia.
        replace (s + (k + 1)) with (Z.succ s + k) by lia. exact H.
Qed.

(** The same for the right walk. *)
Lemma walk_after_run (n : nat) : forall s crt acc,
  0 <= s -> 0 <= peak_idx ->
  exists k, 0 <= k <= Z.of_nat n /\ (k = 0 \/ peak_idx + s + k - 1 < len ps) /\
    walk_after ps peak_idx crt (seqZ s (Z.of_nat n)) acc
    = Ok (acc ++ ((fun i => peak_idx + i) <$> seqZ s k)) /\
    (0 < k -> (value_at ps (peak_idx + s) <= crt)%Q) /\
    (forall i, s < i < s + k ->
       (value_at ps (peak_idx + i) <= value_at ps (peak_idx + (i - 1)))%Q) /\
    (k < Z.of_nat n ->
     len ps <= peak_idx + (s + k) \/
     (k = 0 /\ (crt < value_at ps (peak_idx + s))%Q) \/
     (0 < k /\ (value_at ps (peak_idx + (s + k - 1))
                < value_at ps (peak_idx + (s + k)))%Q)).
Proof.
  induction n as [|n IH]; intros s crt acc Hs Hp.
  - exists 0. simpl. rewrite app_nil_r. repeat split; auto; lia.
  - rewrite seqZ_cons by lia. simpl.
    replace (Z.pred (Z.of_nat (S n))) with (Z.of_nat n) by lia.
    destruct (Z.geb_spec (peak_idx + s) (len ps)) as [Hout|Hin].
    { exists 0. rewrite seqZ_nil by lia. simpl. rewrite app_nil_r.
      repeat split; auto; lia. }
    rewrite getitem_value_at by lia. cbn [mbind result_bind].
    destruct (Qgtb (value_at ps (peak_idx + s)) crt) eqn:Eg.
    { exists 0. rewrite seqZ_nil by lia. simpl. rewrite app_nil_r.
      repeat split; auto; try lia. intros _. right. left.
      split; [reflexivity|]. apply Qgtb_true, Eg. }
    apply Qgtb_false in Eg.
    destruct (IH (Z.succ s) (value_at ps (peak_idx + s))
                (acc ++ [peak_idx + s]))
      as (k & Hk & Hb & E & Hfirst & Hchain & Hstop); [lia|exact Hp|].
    exists (k + 1). rewrite E. split; [lia|]. split; [right; lia|].
    split.
    { rewrite (seqZ_cons s (k + 1)) by lia.
      replace (Z.pred (k + 1)) with k by lia.
      rewrite <- app_assoc. reflexivity. }
    split; [intros _; exact Eg|]. split.
    + intros i Hi. destruct (Z.eq_dec i (Z.succ s)) as [->|Hne].
      * replace (Z.succ s - 1) with s by lia. apply Hfirst. lia.
      * apply Hchain. lia.
    + intros Hlt. destruct Hstop as [H|[[-> H]|[Hk0 H]]]; [lia|left; lia| |].
      * right. right. split; [lia|].
        replace (s + (0 + 1) - 1) with s by lia.
        replace (s + (0 + 1)) with (Z.succ s) by lia. exact H.
      * right. right. split; [lia|].
        replace (s + (k + 1) - 1) with (Z.succ s + k - 1) by lia.
        replace (s + (k + 1)) with (Z.succ s + k) by lia. exact H.
Qed.

End Runs.

(** The result of [find_peak_bins] at a seed inside the spectrum, with the
    decay along both walks and the reason each walk stopped. *)
Lemma find_peak_bins_run ps peak_idx search_width :
  0 <= peak_idx < len ps -> 0 < search_width ->
  exists l r,
    0 <= l < search_width /\ l <= peak_idx /\
    0 <= r < search_width /\ peak_idx + r < len ps /\
    find_peak_bins peak_idx ps search_width
    = Ok ((peak_idx :: ((fun i => peak_idx - i) <$> seqZ 1 l))
          ++ (peak_idx :: ((fun i => peak_idx + i) <$> seqZ 1 r))) /\
    (forall i, 1 <= i <= l ->
       (value_at ps (peak_idx - i) <= value_at ps (peak_idx - (i - 1)))%Q) /\
    (forall i, 1 <= i <= r ->
       (value_at ps (peak_idx + i) <= value_at ps (peak_idx + (i - 1)))%Q) /\
    (l + 1 < search_width ->
     peak_idx - l = 0 \/
     (value_at ps (peak_idx - l) < value_at ps (peak_idx - l - 1))%Q) /\
    (r + 1 < search_width ->
     peak_idx + r = len ps - 1 \/
     (value_at ps (peak_idx + r) < value_at ps (peak_idx + r + 1))%Q).
Proof.
  intros Hp Hw. unfold find_peak_bins, range.
  rewrite (getitem_value_at ps peak_idx Hp). cbn [mbind result_bind].
  rewrite (seqZ_cons 0 search_width) by lia. simpl.
  replace (peak_idx - 0) with peak_idx by lia.
  replace (peak_idx + 0) with peak_idx by lia.
  destruct (Z.ltb_spec peak_idx 0) as [Hx|_]; [lia|].
  destruct (Z.geb_spec peak_idx (len ps)) as [Hx|_]; [lia|].
  rewrite (getitem_value_at ps peak_idx Hp). cbn [mbind result_bind].
  rewrite Qgtb_irrefl.
  change (Z.succ 0) with 1.
  replace (Z.pred search_width) with (Z.of_nat (Z.to_nat (search_width - 1)))
    by lia.
  destruct (walk_before_run ps peak_idx (Z.to_nat (search_width - 1))
              1 (value_at ps peak_idx) [peak_idx])
    as (l & Hl & Hlb & El & Hl1 & Hlc & Hls); [lia|lia|].
  rewrite El. cbn [mbind result_bind].
  destruct (walk_after_run ps peak_idx (Z.to_nat (search_width - 1))
              1 (value_at ps peak_idx)
              (([peak_idx] ++ ((fun i => peak_idx - i) <$> seqZ 1 l))
               ++ [peak_idx]))
    as (r & Hr & Hrb & Er & Hr1 & Hrc & Hrs); [lia|lia|].
  rewrite Er. exists l, r.
  split; [lia|]. split; [lia|]. split; [lia|]. split; [lia|].
  split; [simpl; rewrite <- app_assoc; reflexivity|].
  split; [|split; [|split]].
  - intros i Hi. destruct (Z.eq_dec i 1) as [->|Hne].
    + replace (peak_idx - (1 - 1)) with peak_idx by lia. apply Hl1. lia.
    + apply Hlc. lia.
  - intros i Hi. destruct (Z.eq_dec i 1) as [->|Hne].
    + replace (peak_idx + (1 - 1)) with peak_idx by lia. apply Hr1. lia.
    + apply Hrc. lia.
  - intros Hlt. destruct Hls as [H|[[-> H]|[Hk H]]]; [lia|left; lia| |].
    + right. replace (peak_idx - 0) with peak_idx by lia. exact H.
    + right. replace (peak_idx - (1 + l - 1)) with (peak_idx - l) in H by lia.
      replace (peak_idx - (1 + l)) with (peak_idx - l - 1) in H by lia.
      exact H.
  - intros Hlt. destruct Hrs as [H|[[-> H]|[Hk H]]]; [lia|left; lia| |].
    + right. replace (peak_idx + 0) with peak_idx by lia. exact H.
    + right. replace (peak_idx + (1 + r - 1)) with (peak_idx + r) in H by lia.
      replace (peak_idx + (1 + r)) with (peak_idx + r + 1) in H by lia.
      exact H.
Qed.

Lemma elem_of_skirt peak_idx l r b :
  0 <= l -> 0 <= r ->
  b ∈ (peak_idx :: ((fun i => peak_idx - i) <$> seqZ 1 l))
      ++ (peak_idx :: ((fun i => peak_idx + i) <$> seqZ 1 r))
  <-> peak_idx - l <= b <= peak_idx + r.
Proof.
  intros Hl Hr.
  rewrite elem_of_app, !elem_of_cons, !list_elem_of_fmap.
  setoid_rewrite elem_of_seqZ. split.
  - intros [[->|(i & -> & Hi)]|[->|(i & -> & Hi)]]; lia.
  - intros Hb. destruct (Z_le_gt_dec b peak_idx) as [Hle|Hgt].
    + left. destruct (Z.eq_dec b peak_idx) as [->|Hne]; [auto|].
      right. exists (peak_idx - b). split; lia.
    + right. right. exists (b - peak_idx). split; lia.
Qed.

(** X1: at a seed inside the spectrum, the bins [find_peak_bins] returns
    are exactly those of an interval of the spectrum around the seed, no
    further than [search_width - 1] bins from it; the array has two
    elements more than the interval has bins short of one. *)
Theorem find_peak_bins_is_interval ps peak_idx search_width bins :
  0 <= peak_idx < len ps -> 0 < search_width ->
  find_peak_bins peak_idx ps search_width = Ok bins ->
  exists lo hi,
    0 <= lo <= peak_idx /\ peak_idx <= hi < len ps /\
    peak_idx - search_width < lo /\ hi < peak_idx + search_width /\
    (forall b, b ∈ bins <-> lo <= b <= hi) /\
    len bins = hi - lo + 2.
Proof.
  intros Hp Hw E.
  destruct (find_peak_bins_run ps peak_idx search_width Hp Hw)
    as (l & r & Hl & Hlp & Hr & Hrp & E' & _).
  rewrite E' in E. injection E as <-.
  exists (peak_idx - l), (peak_idx + r).
  split; [lia|]. split; [lia|]. split; [lia|]. split; [lia|]. split.
  - intros b. apply elem_of_skirt; lia.
  - unfold len. simpl length. rewrite length_app. simpl length.
    rewrite !length_fmap, !length_seqZ. lia.
Qed.

Lemma find_peak_bins_is_interval_witness :
  exists lo hi,
    0 <= lo <= 2 /\ 2 <= hi < len magnitude6 /\
    2 - default_search_width < lo /\ hi < 2 + default_search_width /\
    (forall b, b ∈ [2; 1; 0; 2; 3] <-> lo <= b <= hi) /\
    len [2; 1; 0; 2; 3] = hi - lo + 2.
Proof.
  apply (find_peak_bins_is_interval magnitude6 2 default_search_width).
  - unfold len. simpl. lia.
  - reflexivity.
  - vm_compute. reflexivity.
Defined.

(** X2: the values of the skirt decay away from the seed: a bin of the
    result below the seed is no higher than its right neighbour, one above
    the seed no higher than its left neighbour, and none is higher than the
    seed. *)
Theorem find_peak_bins_decays ps peak_idx search_width bins :
  0 <= peak_idx < len ps -> 0 < search_width ->
  find_peak_bins peak_idx ps search_width = Ok bins ->
  forall b, b ∈ bins ->
    (value_at ps b <= value_at ps peak_idx)%Q /\
    (b < peak_idx -> (value_at ps b <= value_at ps (b + 1))%Q) /\
    (peak_idx < b -> (value_at ps b <= value_at ps (b - 1))%Q).
Proof.
  intros Hp Hw E.
  destruct (find_peak_bins_run ps peak_idx search_width Hp Hw)
    as (l & r & Hl & Hlp & Hr & Hrp & E' & Hdl & Hdr & _).
  rewrite E' in E. injection E as <-.
  assert (Hbelow : forall n : nat, Z.of_nat n <= l ->
            (value_at ps (peak_idx - Z.of_nat n) <= value_at ps peak_idx)%Q).
  { induction n as [|n IH]; intros Hn.
    - replace (peak_idx - Z.of_nat 0) with peak_idx by lia. apply Qle_refl.
    - eapply Qle_trans; [apply Hdl; lia|].
      replace (peak_idx - (Z.of_nat (S n) - 1))
        with (peak_idx - Z.of_nat n) by lia.
      apply IH. lia. }
  assert (Habove : forall n : nat, Z.of_nat n <= r ->
            (value_at ps (peak_idx + Z.of_nat n) <= value_at ps peak_idx)%Q).
  { induction n as [|n IH]; intros Hn.
    - replace (peak_idx + Z.of_nat 0) with peak_idx by lia. apply Qle_refl.
    - eapply Qle_trans; [apply Hdr; lia|].
      replace (peak_idx + (Z.of_nat (S n) - 1))
        with (peak_idx + Z.of_nat n) by lia.
      apply IH. lia. }
  intros b Hb. apply (elem_of_skirt peak_idx l r b) in Hb; [|lia|lia].
  split; [|split].
  - destruct (Z_le_gt_dec b peak_idx) as [Hle|Hgt].
    + replace b with (peak_idx - Z.of_nat (Z.to_nat (peak_idx - b))) by lia.
      apply Hbelow. lia.
    + replace b with (peak_idx + Z.of_nat (Z.to_nat (b - peak_idx))) by lia.
      apply Habove. lia.
  - intros Hlt. specialize (Hdl (peak_idx - b)).
    replace (peak_idx - (peak_idx - b)) with b in Hdl by lia.
    replace (peak_idx - (peak_idx - b - 1)) with (b + 1) in Hdl by lia.
    apply Hdl. lia.
  - intros Hgt. specialize (Hdr (b - peak_idx)).
    replace (peak_idx + (b - peak_idx)) with b in Hdr by lia.
    replace (peak_idx + (b - peak_idx - 1)) with (b - 1) in Hdr by lia.
    apply Hdr. lia.
Qed.

Lemma find_peak_bins_decays_witness :
  (value_at magnitude6 0 <= value_at magnitude6 2)%Q /\
  (0 < 2 -> (value_at magnitude6 0 <= value_at magnitude6 (0 + 1))%Q) /\
  (2 < 0 -> (value_at magnitude6 0 <= value_at magnitude6 (0 - 1))%Q).
Proof.
  apply (find_peak_bins_decays magnitude6 2 default_search_width
           [2; 1; 0; 2; 3]).
  - unfold len. simpl. lia.
  - reflexivity.
  - vm_compute. reflexivity.
  - apply list_elem_of_In. simpl. tauto.
Defined.

(** X3: the skirt is as wide as the walks allow: at either end it stops at
    the edge of the spectrum, at [search_width - 1] bins from the seed, or
    before a bin that is strictly higher than the last one taken. *)
Theorem find_peak_bins_is_maximal ps peak_idx search_width bins :
  0 <= peak_idx < len ps -> 0 < search_width ->
  find_peak_bins peak_idx ps search_width = Ok bins ->
  exists lo hi,
    (forall b, b ∈ bins <-> lo <= b <= hi) /\
    (lo = 0 \/ lo = peak_idx - search_width + 1 \/
     (value_at ps lo < value_at ps (lo - 1))%Q) /\
    (hi = len ps - 1 \/ hi = peak_idx + search_width - 1 \/
     (value_at ps hi < value_at ps (hi + 1))%Q).
Proof.
  intros Hp Hw E.
  destruct (find_peak_bins_run ps peak_idx search_width Hp Hw)
    as (l & r & Hl & Hlp & Hr & Hrp & E' & _ & _ & Hsl & Hsr).
  rewrite E' in E. injection E as <-.
  exists (peak_idx - l), (peak_idx + r). split; [|split].
  - intros b. apply elem_of_skirt; lia.
  - destruct (Z_lt_ge_dec (l + 1) search_width) as [Hlt|Hge].
    + destruct (Hsl Hlt) as [H|H]; [left; exact H|right; right; exact H].
    + right. left. lia.
  - destruct (Z_lt_ge_dec (r + 1) search_width) as [Hlt|Hge].
    + destruct (Hsr Hlt) as [H|H]; [left; exact H|right; right; exact H].
    + right. left. lia.
Qed.

Lemma find_peak_bins_is_maximal_witness :
  exists lo hi,
    (forall b, b ∈ [2; 1; 0; 2; 3] <-> lo <= b <= hi) /\
    (lo = 0 \/ lo = 2 - default_search_width + 1 \/
     (value_at magnitude6 lo < value_at magnitude6 (lo - 1))%Q) /\
    (hi = len magnitude6 - 1 \/ hi = 2 + default_search_width - 1 \/
     (value_at magnitude6 hi < value_at magnitude6 (hi + 1))%Q).
Proof.
  apply (find_peak_bins_is_maximal magnitude6 2 default_search_width).
  - unfold len. simpl. lia.
  - reflexivity.
  - vm_compute. reflexivity.
Defined.

(** X4: with a search width of zero or less neither walk runs, and the
    result is the empty array, whatever the seed inside the spectrum. *)
Theorem find_peak_bins_no_width ps peak_idx search_width :
  0 <= peak_idx < len ps -> search_width <= 0 ->
  find_peak_bins peak_idx ps search_width = Ok [].
Proof.
  intros Hp Hw. unfold find_peak_bins, range.
  rewrite (getitem_value_at ps peak_idx Hp), seqZ_nil by exact Hw.
  reflexivity.
Qed.

Lemma find_peak_bins_no_width_witness :
  find_peak_bins 2 magnitude6 0 = Ok [].
Proof.
  apply find_peak_bins_no_width.
  - unfold len. simpl. lia.
  - lia.
Defined.

(** ** The peak search *)

Lemma getitem_nonneg {A} (t : list A) j x :
  0 <= j -> (getitem t j = Ok x <-> t !! Z.to_nat j = Some x).
Proof.
  intros Hj. unfold getitem, norm_index.
  destruct (Z.ltb_spec j 0); [lia|].
  destruct (Z.leb_spec 0 j); [|lia].
  destruct (Z.ltb_spec j (len t)) as [Hlt|Hge]; cbn [andb mbind result_bind].
  - destruct (t !! Z.to_nat j) as [y|]; split; intros E; try discriminate;
      injection E as <-; reflexivity.
  - split; [discriminate|]. intros E. apply lookup_lt_Some in E.
    unfold len in Hge. lia.
Qed.

Lemma lookup_slice {A} (s : list A) lo hi j :
  0 <= lo -> 0 <= hi -> 0 <= j ->
  slice s lo hi !! Z.to_nat j
  = if decide (lo + j < Z.min hi (len s)) then s !! Z.to_nat (lo + j) else None.
Proof.
  intros Hlo Hhi Hj. unfold slice, clip_index.
  destruct (Z.ltb_spec lo 0); [lia|]. destruct (Z.ltb_spec hi 0); [lia|].
  destruct (decide (lo + j < Z.min hi (len s))) as [Hin|Hout].
  - rewrite lookup_take_lt by lia. rewrite lookup_drop. f_equal. lia.
  - destruct (Z_lt_ge_dec (lo + j) hi) as [Hlt|Hge].
    + apply lookup_ge_None. rewrite length_take, length_drop.
      unfold len in *. lia.
    + apply lookup_take_ge. lia.
Qed.

Lemma getitem_slice_value s lo hi j :
  0 <= lo -> 0 <= hi -> 0 <= j ->
  getitem (slice s lo hi) j
  = if decide (lo + j < Z.min hi (len s)) then Ok (value_at s (lo + j))
    else Raise IndexError.
Proof.
  intros Hlo Hhi Hj.
  destruct (decide (lo + j < Z.min hi (len s))) as [Hin|Hout].
  - apply getitem_nonneg; [exact Hj|]. rewrite lookup_slice by assumption.
    rewrite decide_True by exact Hin.
    pose proof (getitem_value_at s (lo + j)) as E.
    apply getitem_nonneg in E; [exact E|lia|lia].
  - destruct (getitem (slice s lo hi) j) as [x|e] eqn:E.
    + apply getitem_nonneg in E; [|exact Hj].
      rewrite lookup_slice, decide_False in E by assumption. discriminate.
    + pose proof (getitem_kernel (slice s lo hi) j) as Hk. rewrite E in Hk.
      unfold getitem, norm_index in E.
      destruct (_ && _); [|injection E as <-; reflexivity].
      cbn [mbind result_bind] in E.
      destruct (_ !! _); [discriminate|injection E as <-; reflexivity].
Qed.

(** An unchecked read inside the array yields the element; past its end it
    yields what lies there. *)
Lemma peek_inside beyond t j :
  0 <= j < len t -> peek beyond t j = value_at t j.
Proof.
  intros Hj. unfold peek, mem.
  assert (E0 : (j <? 0) = false) by (apply Z.ltb_ge; lia).
  rewrite E0. cbv iota. rewrite E0.
  destruct (getitem_in_range t j Hj) as (x & E & El).
  rewrite El. unfold value_at. rewrite E. reflexivity.
Qed.

Lemma peek_past beyond t j : len t <= j -> peek beyond t j = beyond j.
Proof.
  intros Hj. unfold peek, mem.
  assert (E0 : (j <? 0) = false) by (apply Z.ltb_ge; unfold len in Hj; lia).
  rewrite E0. cbv iota. rewrite E0.
  rewrite lookup_ge_None_2 by (unfold len in Hj; lia). reflexivity.
Qed.

Lemma value_at_slice s lo hi j :
  0 <= lo -> 0 <= hi -> 0 <= j -> lo + j < Z.min hi (len s) ->
  value_at (slice s lo hi) j = value_at s (lo + j).
Proof.
  intros Hlo Hhi Hj Hin. unfold value_at at 1.
  rewrite getitem_slice_value, decide_True by assumption. reflexivity.
Qed.

(** On the three bins around [k], all inside the array, [is_peak] answers
    whether [k] is a strict local maximum, whatever lies beyond. *)
Lemma is_peak_strict_peak beyond s k :
  1 <= k -> k + 1 < len s ->
  (is_peak beyond (slice s (k - 1) (k + 2)) = true <-> strict_peak s k).
Proof.
  intros Hk Hk'. unfold is_peak, strict_peak.
  assert (Hl : len (slice s (k - 1) (k + 2)) = 3).
  { rewrite len_slice by lia. lia. }
  rewrite !peek_inside by lia.
  rewrite !value_at_slice by lia.
  replace (k - 1 + 1) with k by lia. replace (k - 1 + 0) with (k - 1) by lia.
  replace (k - 1 + 2) with (k + 1) by lia.
  destruct (Qgtb (value_at s k) (value_at s (k - 1))) eqn:Ea.
  - apply Qgtb_true in Ea. rewrite Qgtb_true. tauto.
  - split; [discriminate|]. intros (_ & _ & H & _).
    apply Qgtb_true in H. congruence.
Qed.

(** At the last bin of an array the slice has two floats, and the third
    read is the float after the array. *)
Lemma is_peak_last_bin beyond s k :
  1 <= k -> k + 1 = len s ->
  is_peak (view_beyond beyond s (k - 1)) (slice s (k - 1) (k + 2))
  = Qgtb (value_at s k) (value_at s (k - 1))
    && Qgtb (value_at s k) (beyond (len s)).
Proof.
  intros Hk Hk'. unfold is_peak.
  assert (Hl : len (slice s (k - 1) (k + 2)) = 2).
  { unfold slice, clip_index.
    destruct (Z.ltb_spec (k - 1) 0); [lia|]. destruct (Z.ltb_spec (k + 2) 0); [lia|].
    unfold len in *. rewrite length_take, length_drop. lia. }
  rewrite !peek_inside by lia. rewrite peek_past by lia.
  rewrite !value_at_slice by lia.
  replace (k - 1 + 1) with k by lia. replace (k - 1 + 0) with (k - 1) by lia.
  unfold view_beyond, clip_index, mem.
  destruct (Z.ltb_spec (k - 1) 0); [lia|].
  replace (Z.min (k - 1) (len s) + 2) with (len s) by lia.
  destruct (Z.ltb_spec (len s) 0); [lia|].
  rewrite lookup_ge_None_2 by (unfold len; lia).
  destruct (Qgtb (value_at s k) (value_at s (k - 1))); reflexivity.
Qed.

Lemma half_len {A} (s : list A) :
  0 <= len s / 2 <= len s /\ (3 <= len s -> len s / 2 + 1 < len s)
  /\ (2 <= len s <-> 1 <= len s / 2).
Proof.
  assert (0 <= len s) by (unfold len; lia).
  pose proof (Z.div_mod (len s) 2 ltac:(lia)).
  pose proof (Z.mod_pos_bound (len s) 2 ltac:(lia)). lia.
Qed.

Lemma right_check beyond s i :
  0 <= i ->
  ((len s / 2 + i + 1 <? len s)
   && is_peak beyond (slice s (len s / 2 + i - 1) (len s / 2 + i + 2)) = true
   <-> strict_peak s (len s / 2 + i)).
Proof.
  intros Hi. pose proof (half_len s) as (Hc & _ & Hc2).
  destruct (Z.ltb_spec (len s / 2 + i + 1) (len s)) as [Hlt|Hge]; cbn [andb].
  - apply is_peak_strict_peak; lia.
  - split; [discriminate|]. intros (_ & H & _). lia.
Qed.

Lemma left_check beyond s i :
  0 <= i -> len s <> 2 ->
  ((len s / 2 - i - 1 >=? 0)
   && is_peak beyond (slice s (len s / 2 - i - 1) (len s / 2 - i + 2)) = true
   <-> strict_peak s (len s / 2 - i)).
Proof.
  intros Hi H2. pose proof (half_len s) as (Hc & Hc3 & Hc2).
  destruct (Z.geb_spec (len s / 2 - i - 1) 0) as [Hge|Hlt]; cbn [andb].
  - apply is_peak_strict_peak; lia.
  - split; [discriminate|]. intros (H & _). lia.
Qed.

(** What the loop of [find_nearest_peak_around] returns from radius [start]
    on, in a slice that has not just two bins: the strict local maximum at
    the least radius, the right one if there is one on either side; nothing
    if there is none within reach. *)
Lemma nearest_loop_spec beyond s (n : nat) : forall start,
  0 <= start -> len s <> 2 ->
  match nearest_loop beyond s (len s / 2) (seqZ start (Z.of_nat n)) with
  | Some k =>
      exists i, start <= i < start + Z.of_nat n /\ strict_peak s k /\
        (k = len s / 2 + i \/
         (k = len s / 2 - i /\ ~ strict_peak s (len s / 2 + i))) /\
        forall j, start <= j < i ->
          ~ strict_peak s (len s / 2 + j) /\ ~ strict_peak s (len s / 2 - j)
  | None =>
      forall j, start <= j < start + Z.of_nat n ->
        ~ strict_peak s (len s / 2 + j) /\ ~ strict_peak s (len s / 2 - j)
  end.
Proof.
  induction n as [|n IH]; intros start Hs H2.
  - simpl. intros j Hj. lia.
  - rewrite seqZ_cons by lia.
    replace (Z.pred (Z.of_nat (S n))) with (Z.of_nat n) by lia.
    simpl nearest_loop.
    pose proof (right_check (view_beyond beyond s (len s / 2 + start - 1))
                  s start Hs) as HR.
    pose proof (left_check (view_beyond beyond s (len s / 2 - start - 1))
                  s start Hs H2) as HL.
    specialize (IH (Z.succ start) ltac:(lia) H2).
    destruct ((len s / 2 + start + 1 <? len s) && _).
    { exists start. split; [lia|]. split; [apply HR; reflexivity|].
      split; [auto|]. intros j Hj. lia. }
    assert (Hnr : ~ strict_peak s (len s / 2 + start)).
    { intros H. apply HR in H. discriminate. }
    destruct ((len s / 2 - start - 1 >=? 0) && _).
    { exists start. split; [lia|]. split; [apply HL; reflexivity|].
      split; [auto|]. intros j Hj. lia. }
    assert (Hnl : ~ strict_peak s (len s / 2 - start)).
    { intros H. apply HL in H. discriminate. }
    destruct (nearest_loop beyond s (len s / 2)
                (seqZ (Z.succ start) (Z.of_nat n))) as [k|].
    + destruct IH as (i & Hi & Hpk & Hside & Hnone).
      exists i. split; [lia|]. split; [exact Hpk|]. split; [exact Hside|].
      intros j Hj. destruct (Z.eq_dec j start) as [->|Hne]; [auto|].
      apply Hnone. lia.
    + intros j Hj. destruct (Z.eq_dec j start) as [->|Hne]; [auto|].
      apply IH. lia.
Qed.

(** In a slice of two bins the loop returns at most the second bin, and
    only if it is the higher one. *)
Lemma nearest_loop_two beyond a b steps :
  Forall (fun i => 0 <= i) steps ->
  nearest_loop beyond [a; b] 1 steps = None \/
  (nearest_loop beyond [a; b] 1 steps = Some 1 /\ Qgtb b a = true).
Proof.
  induction 1 as [|i rest Hi _ IH]; [left; reflexivity|].
  simpl nearest_loop. change (len [a; b]) with 2.
  destruct (Z.ltb_spec (1 + i + 1) 2) as [Hr|_]; [lia|]. cbn [andb].
  destruct (Z.geb_spec (1 - i - 1) 0) as [Hl|_]; [|exact IH]. cbn [andb].
  assert (i = 0) as -> by lia.
  change (slice [a; b] (1 - 0 - 1) (1 - 0 + 2)) with [a; b].
  unfold is_peak.
  change (peek (view_beyond beyond [a; b] (1 - 0 - 1)) [a; b] 1) with b.
  change (peek (view_beyond beyond [a; b] (1 - 0 - 1)) [a; b] 0) with a.
  destruct (Qgtb b a); [|exact IH].
  destruct (Qgtb b _); [right; auto|exact IH].
Qed.

(** On a slice of two bins [find_nearest_peak_around] returns the place of
    the first maximum, whatever its unchecked read yields. *)
Lemma find_nearest_peak_around_two beyond s center search_width :
  len s = 2 ->
  find_nearest_peak_around beyond s center search_width = Np.argmax s.
Proof.
  intros H2.
  destruct s as [|a [|b [|c s]]]; try (unfold len in H2; simpl in H2; lia).
  unfold find_nearest_peak_around. change (len [a; b] / 2) with 1.
  destruct (nearest_loop_two beyond a b (range search_width)) as [->|[-> Hg]];
    [apply Forall_seqZ; lia|reflexivity|].
  simpl. rewrite Hg. reflexivity.
Qed.

Lemma argmax_from_first_maximum s : forall a pre best,
  s = pre ++ a -> 0 <= best < len pre ->
  (forall j, 0 <= j < len pre -> (value_at s j <= value_at s best)%Q) ->
  (forall j, 0 <= j < best -> (value_at s j < value_at s best)%Q) ->
  first_maximum s (Np.argmax_from (len pre) best (value_at s best) a).
Proof.
  induction a as [|x a IH]; intros pre best E Hb Hmax Hfirst.
  - simpl. rewrite app_nil_r in E. subst pre. repeat split; auto; lia.
  - simpl.
    assert (Hx : value_at s (len pre) = x) by (rewrite E; apply value_at_middle).
    assert (Hlen : len pre + 1 = len (pre ++ [x])).
    { unfold len. rewrite length_app. simpl. lia. }
    assert (E' : s = (pre ++ [x]) ++ a) by (rewrite <- app_assoc; exact E).
    destruct (Qgtb x (value_at s best)) eqn:Eg.
    + apply Qgtb_true in Eg.
      assert (H : first_maximum s
                (Np.argmax_from (len (pre ++ [x])) (len pre)
                   (value_at s (len pre)) a)).
      { apply IH; [exact E'|lia| |].
        * intros j Hj. destruct (Z.eq_dec j (len pre)) as [->|Hne];
            [apply Qle_refl|].
          eapply Qle_trans; [apply Hmax; lia|].
          rewrite Hx. apply Qlt_le_weak, Eg.
        * intros j Hj. eapply Qle_lt_trans; [apply Hmax; lia|].
          rewrite Hx. exact Eg. }
      rewrite <- Hlen, Hx in H. exact H.
    + apply Qgtb_false in Eg. rewrite Hlen.
      apply IH; [exact E'|lia| |exact Hfirst].
      intros j Hj. destruct (Z.eq_dec j (len pre)) as [->|Hne].
      * rewrite Hx. exact Eg.
      * apply Hmax. lia.
Qed.

Lemma argmax_first_maximum s k : Np.argmax s = Ok k -> first_maximum s k.
Proof.
  destruct s as [|x a]; [discriminate|]. intros [= <-].
  change x with (value_at (x :: a) 0) at 2.
  apply (argmax_from_first_maximum (x :: a) a [x] 0); [reflexivity| | |].
  - unfold len. simpl. lia.
  - intros j Hj. unfold len in Hj. simpl in Hj.
    replace j with 0 by lia. apply Qle_refl.
  - intros j Hj. lia.
Qed.

(** What [find_nearest_peak_around] returns: a strict local maximum near
    the middle of the slice, or else the place of the first maximum. *)
Lemma find_nearest_peak_around_cases beyond s center search_width k :
  find_nearest_peak_around beyond s center search_width = Ok k ->
  0 <= k < len s /\
  ((strict_peak s k /\ Z.abs (k - len s / 2) < search_width) \/
   (first_maximum s k /\
    forall j, Z.abs (j - len s / 2) < search_width -> ~ strict_peak s j)).
Proof.
  intros E. split; [eapply find_nearest_peak_around_range, E|].
  destruct (Z.eq_dec (len s) 2) as [H2|H2].
  { rewrite find_nearest_peak_around_two in E by exact H2. right.
    split; [apply argmax_first_maximum, E|].
    intros j _ (H & H' & _). lia. }
  unfold find_nearest_peak_around, range in E.
  pose proof (nearest_loop_spec beyond s (Z.to_nat search_width) 0) as Hspec.
  destruct (Z_le_gt_dec search_width 0) as [Hw|Hw].
  - rewrite seqZ_nil in E by exact Hw. simpl in E. right.
    split; [apply argmax_first_maximum, E|]. intros j Hj. lia.
  - rewrite Z2Nat.id in Hspec by lia. specialize (Hspec ltac:(lia) H2).
    destruct (nearest_loop beyond s (len s / 2) (seqZ 0 search_width))
      as [k'|].
    + injection E as <-. left.
      destruct Hspec as (i & Hi & Hpk & Hside & _).
      split; [exact Hpk|]. destruct Hside as [->|[-> _]]; lia.
    + right. split; [apply argmax_first_maximum, E|].
      intros j Hj.
      destruct (Z_le_gt_dec (len s / 2) j) as [Hge|Hlt].
      * replace j with (len s / 2 + (j - len s / 2)) by lia.
        apply Hspec. lia.
      * replace j with (len s / 2 - (len s / 2 - j)) by lia.
        apply Hspec. lia.
Qed.

Lemma bool_decides (b1 b2 : bool) (P : Prop) :
  (b1 = true <-> P) -> (b2 = true <-> P) -> b1 = b2.
Proof. destruct b1, b2; intuition congruence. Qed.

Lemma nearest_loop_memory b1 b2 s steps :
  len s <> 2 -> Forall (fun i => 0 <= i) steps ->
  nearest_loop b1 s (len s / 2) steps = nearest_loop b2 s (len s / 2) steps.
Proof.
  intros H2. induction 1 as [|i rest Hi _ IH]; [reflexivity|].
  simpl nearest_loop.
  rewrite (bool_decides _ _ _
             (right_check (view_beyond b1 s (len s / 2 + i - 1)) s i Hi)
             (right_check (view_beyond b2 s (len s / 2 + i - 1)) s i Hi)).
  rewrite (bool_decides _ _ _
             (left_check (view_beyond b1 s (len s / 2 - i - 1)) s i Hi H2)
             (left_check (view_beyond b2 s (len s / 2 - i - 1)) s i Hi H2)).
  rewrite IH. reflexivity.
Qed.

(** [find_nearest_peak_around] returns the same, whatever the memory around
    its slice holds. *)
Lemma find_nearest_peak_around_memory b1 b2 s center search_width :
  find_nearest_peak_around b1 s center search_width
  = find_nearest_peak_around b2 s center search_width.
Proof.
  destruct (Z.eq_dec (len s) 2) as [H2|H2].
  { rewrite !find_nearest_peak_around_two by exact H2. reflexivity. }
  unfold find_nearest_peak_around.
  rewrite (nearest_loop_memory b1 b2) by (auto; apply Forall_seqZ; lia).
  reflexivity.
Qed.

(** X5: on a slice that is not empty [find_nearest_peak_around] returns,
    whatever centre it was given and whatever the memory past the slice
    holds, and always the same index: one inside the slice that is either a
    strict local maximum of the slice less than [search_width] bins from its
    middle, or, if the slice has none that near, the place of its first
    maximum. *)
Theorem find_nearest_peak_around_finds beyond s center search_width :
  0 < len s ->
  exists k,
    (forall beyond' center',
       find_nearest_peak_around beyond' s center' search_width = Ok k) /\
    find_nearest_peak_around beyond s center search_width = Ok k /\
    0 <= k < len s /\
    ((strict_peak s k /\ Z.abs (k - len s / 2) < search_width) \/
     (first_maximum s k /\
      forall j, Z.abs (j - len s / 2) < search_width -> ~ strict_peak s j)).
Proof.
  intros Hs.
  destruct (find_nearest_peak_around_returns beyond s center search_width Hs)
    as [k Ek].
  exists k. split; [|split; [exact Ek|]].
  - intros beyond' center'.
    rewrite (find_nearest_peak_around_memory beyond' beyond). exact Ek.
  - eapply find_nearest_peak_around_cases, Ek.
Qed.

Lemma find_nearest_peak_around_finds_witness :
  exists k,
    (forall beyond' center',
       find_nearest_peak_around beyond' [7; 9]%Q center' 2 = Ok k) /\
    find_nearest_peak_around zeros [7; 9]%Q 0 2 = Ok k /\
    0 <= k < len [7; 9]%Q /\
    ((strict_peak [7; 9]%Q k /\ Z.abs (k - len [7; 9]%Q / 2) < 2) \/
     (first_maximum [7; 9]%Q k /\
      forall j, Z.abs (j - len [7; 9]%Q / 2) < 2 -> ~ strict_peak [7; 9]%Q j)).
Proof.
  apply (find_nearest_peak_around_finds zeros [7; 9]%Q 0 2).
  vm_compute. reflexivity.
Defined.

(** X6: the search prefers the nearer peak and, at equal distance, the right
    one: when it returns a strict local maximum [k], no bin nearer to the
    middle of the slice is one, and if [k] is left of the middle its mirror
    image to the right is none either. *)
Theorem find_nearest_peak_around_nearest beyond s center search_width k :
  find_nearest_peak_around beyond s center search_width = Ok k ->
  strict_peak s k -> Z.abs (k - len s / 2) < search_width ->
  (forall j, Z.abs (j - len s / 2) < Z.abs (k - len s / 2) ->
             ~ strict_peak s j) /\
  (k < len s / 2 -> ~ strict_peak s (len s / 2 + (len s / 2 - k))).
Proof.
  intros E Hpk Hnear.
  assert (H2 : len s <> 2) by (destruct Hpk as (H & H' & _); lia).
  unfold find_nearest_peak_around, range in E.
  pose proof (nearest_loop_spec beyond s (Z.to_nat search_width) 0) as Hspec.
  rewrite Z2Nat.id in Hspec by lia. specialize (Hspec ltac:(lia) H2).
  destruct (nearest_loop beyond s (len s / 2) (seqZ 0 search_width))
    as [k'|].
  - injection E as <-.
    destruct Hspec as (i & Hi & _ & Hside & Hnone).
    assert (Hki : Z.abs (k' - len s / 2) = i) by (destruct Hside as [->|[-> _]]; lia).
    split.
    + intros j Hj. rewrite Hki in Hj.
      destruct (Z_le_gt_dec (len s / 2) j) as [Hge|Hlt].
      * replace j with (len s / 2 + (j - len s / 2)) by lia.
        apply Hnone. lia.
      * replace j with (len s / 2 - (len s / 2 - j)) by lia.
        apply Hnone. lia.
    + intros Hleft. destruct Hside as [->|[-> Hnr]]; [lia|].
      replace (len s / 2 - (len s / 2 - i)) with i by lia. exact Hnr.
  - exfalso.
    destruct (Z_le_gt_dec (len s / 2) k) as [Hge|Hlt].
    + apply (proj1 (Hspec (k - len s / 2) ltac:(lia))).
      replace (len s / 2 + (k - len s / 2)) with k by lia. exact Hpk.
    + apply (proj2 (Hspec (len s / 2 - k) ltac:(lia))).
      replace (len s / 2 - (len s / 2 - k)) with k by lia. exact Hpk.
Qed.

Lemma find_nearest_peak_around_nearest_witness :
  (forall j, Z.abs (j - len [1; 5; 2; 2; 3]%Q / 2)
             < Z.abs (1 - len [1; 5; 2; 2; 3]%Q / 2) ->
             ~ strict_peak [1; 5; 2; 2; 3]%Q j) /\
  (1 < len [1; 5; 2; 2; 3]%Q / 2 ->
   ~ strict_peak [1; 5; 2; 2; 3]%Q
       (len [1; 5; 2; 2; 3]%Q / 2 + (len [1; 5; 2; 2; 3]%Q / 2 - 1))).
Proof.
  apply (find_nearest_peak_around_nearest zeros [1; 5; 2; 2; 3]%Q 0 2 1).
  - vm_compute. reflexivity.
  - unfold strict_peak.
    repeat split; try (vm_compute; congruence); vm_compute; reflexivity.
  - vm_compute. reflexivity.
Defined.

(** ** The peak locator *)

(** X7: from whatever hint bin inside the spectrum and whatever half-width,
    not negative, lines 70 and 71 of [find_peak_bin_from_freq] have
    computed, the search of lines 72 to 84 returns a bin: one below the end
    of the spectrum and no further from the hint bin than the half-width, so
    a bin of the spectrum whenever the hint bin is at least that half-width
    away from bin 0. *)
Theorem search_window_near_hint hint_idx search_width ps :
  0 <= hint_idx < len ps -> 0 <= search_width ->
  exists bin,
    search_window hint_idx search_width ps = Ok bin /\
    Z.abs (bin - hint_idx) <= search_width /\
    bin < len ps /\
    (search_width <= hint_idx -> 0 <= bin).
Proof.
  intros Hh Hw.
  destruct (search_window_range hint_idx search_width ps Hh Hw)
    as (bin & E & Hb & Hb').
  exists bin. repeat split; try assumption; lia.
Qed.

Lemma search_window_near_hint_witness :
  exists bin,
    search_window 5 1 [1; 2; 5; 2; 7; 9]%Q = Ok bin /\
    Z.abs (bin - 5) <= 1 /\
    bin < len [1; 2; 5; 2; 7; 9]%Q /\
    (1 <= 5 -> 0 <= bin).
Proof.
  apply (search_window_near_hint 5 1 [1; 2; 5; 2; 7; 9]%Q).
  - vm_compute. split; [discriminate|reflexivity].
  - lia.
Defined.

(** X8: where the window does not cross the low edge of the spectrum (the
    hint bin is at least its half-width), the bin that the search returns
    is a strict local maximum of the spectrum, or, if the window holds none
    near enough to its middle, a bin that holds the maximum of the window. *)
Theorem search_window_finds_peak hint_idx search_width ps :
  0 <= hint_idx < len ps -> 0 <= search_width -> search_width <= hint_idx ->
  exists bin,
    search_window hint_idx search_width ps = Ok bin /\
    (strict_peak ps bin \/
     (forall j,
        hint_idx - search_width <= j <= hint_idx + search_width ->
        j < len ps -> (value_at ps j <= value_at ps bin)%Q)).
Proof.
  intros Hh Hw Hun.
  destruct (search_window_range hint_idx search_width ps Hh Hw)
    as (bin & E & _). exists bin. split; [exact E|].
  rewrite search_window_steps in E.
  apply result_bind_ok in E as (k & Ek & E). injection E as <-.
  replace (Z.max 0 (hint_idx - search_width))
    with (hint_idx - search_width) in Ek by lia.
  set (lo := hint_idx - search_width) in *.
  set (hi := Z.min (len ps) (hint_idx + search_width + 1)) in *.
  assert (Hls : len (slice ps lo hi) = hi - lo)
    by (apply len_slice; unfold lo, hi; lia).
  assert (Hval : forall j, 0 <= j < hi - lo ->
            value_at (slice ps lo hi) j = value_at ps (lo + j)).
  { intros j Hj. apply value_at_slice; unfold lo, hi in *; lia. }
  apply find_nearest_peak_around_cases in Ek
    as (Hk & [[(Hk1 & Hk2 & Ha & Hb) _]|[(_ & Hmax & _) _]]).
  - left. rewrite Hls in Hk2. rewrite !Hval in Ha, Hb by lia.
    replace (k + hint_idx - search_width) with (lo + k) by (unfold lo; lia).
    unfold strict_peak.
    replace (lo + k - 1) with (lo + (k - 1)) by lia.
    replace (lo + k + 1) with (lo + (k + 1)) by lia.
    repeat split; auto; unfold lo, hi in *; lia.
  - right. intros j Hj Hjl. rewrite Hls in Hmax, Hk.
    specialize (Hmax (j - lo)). rewrite !Hval in Hmax by (unfold lo, hi in *; lia).
    replace (lo + (j - lo)) with j in Hmax by lia.
    replace (k + hint_idx - search_width) with (lo + k) by (unfold lo; lia).
    apply Hmax. unfold lo, hi in *. lia.
Qed.

Lemma search_window_finds_peak_witness :
  exists bin,
    search_window 5 1 [1; 2; 5; 2; 7; 9]%Q = Ok bin /\
    (strict_peak [1; 2; 5; 2; 7; 9]%Q bin \/
     (forall j, 5 - 1 <= j <= 5 + 1 -> j < len [1; 2; 5; 2; 7; 9]%Q ->
                (value_at [1; 2; 5; 2; 7; 9]%Q j
                 <= value_at [1; 2; 5; 2; 7; 9]%Q bin)%Q)).
Proof.
  apply (search_window_finds_peak 5 1 [1; 2; 5; 2; 7; 9]%Q).
  - vm_compute. split; [discriminate|reflexivity].
  - lia.
  - lia.
Defined.

(** ** An empty spectrum *)

Lemma slice_nil {A} lo hi : slice (@nil A) lo hi = [].
Proof. unfold slice. rewrite drop_nil. apply take_nil. Qed.

Lemma nearest_loop_nil beyond steps :
  Forall (fun i => 0 <= i) steps -> nearest_loop beyond [] 0 steps = None.
Proof.
  induction 1 as [|i rest Hi _ IH]; [reflexivity|].
  simpl nearest_loop. change (len (@nil Q)) with 0.
  destruct (Z.ltb_spec (0 + i + 1) 0); [lia|].
  destruct (Z.geb_spec (0 - i - 1) 0); [lia|].
  exact IH.
Qed.

Lemma find_peak_bin_from_freq_nil freq sr w :
  (0 < sr)%Q ->
  find_peak_bin_from_freq freq [] sr w
  = Raise (ValueError "attempt to get argmax of an empty sequence").
Proof.
  intros Hsr. rewrite find_peak_bin_from_freq_search by exact Hsr.
  rewrite search_window_steps, slice_nil. unfold find_nearest_peak_around.
  change (len (@nil Q) / 2) with 0.
  rewrite nearest_loop_nil by (apply Forall_seqZ; lia). reflexivity.
Qed.

(** X9: with parameters that pass the validation, [snr] on an empty
    magnitude array, and [sinad] on an empty noisy array and any clean
    array, raise the [ValueError] of [np.argmax] on an empty sequence, from
    the search for the fundamental, and leave the heap as it was. *)
Theorem snr_sinad_empty_spectrum magnitude nl cl sr f hs excl h :
  fits_int32 hs -> ~ invalid_parameters sr f hs ->
  (h !! magnitude = Some [] ->
   Snr.snr magnitude sr f hs excl h
   = (Raise (ValueError "attempt to get argmax of an empty sequence"), h)) /\
  (h !! nl = Some [] -> is_Some (h !! cl) ->
   Sinad.sinad nl cl sr f hs h
   = (Raise (ValueError "attempt to get argmax of an empty sequence"), h)).
Proof.
  intros H32 Hval.
  assert (Hsr : (0 < sr)%Q).
  { apply Qnot_le_lt. intros H. apply Hval. left. exact H. }
  destruct (build_harmonics_cases sr f hs H32)
    as [(Hinv & _)|(_ & harmonics & E)]; [tauto|].
  split.
  - intros Hm. rewrite snr_build_harmonics. unfold_M. rewrite E. unfold read.
    rewrite Hm. unfold Snr.inner_snr, Snr.inner_snr_locals.
    change (Np.square []) with (@nil Q).
    rewrite find_peak_bin_from_freq_nil by exact Hsr. reflexivity.
  - intros Hm [clean Hc]. rewrite sinad_build_harmonics. unfold_M. rewrite E.
    unfold Sinad.inner_sinad, Sinad.inner_sinad_locals. unfold_M.
    unfold typed, read. rewrite Hm, Hc. cbv beta iota.
    rewrite Hm. cbv beta iota.
    rewrite find_peak_bin_from_freq_nil by exact Hsr. reflexivity.
Qed.

Lemma snr_sinad_empty_spectrum_witness :
  (heap_nil6 !! 1%positive = Some [] ->
   Snr.snr 1%positive 48000 1000 (Policy ALL) false heap_nil6
   = (Raise (ValueError "attempt to get argmax of an empty sequence"),
      heap_nil6)) /\
  (heap_nil6 !! 1%positive = Some [] -> is_Some (heap_nil6 !! 2%positive) ->
   Sinad.sinad 1%positive 2%positive 48000 1000 (Policy ALL) heap_nil6
   = (Raise (ValueError "attempt to get argmax of an empty sequence"),
      heap_nil6)).
Proof.
  apply (snr_sinad_empty_spectrum 1%positive 1%positive 2%positive 48000 1000
           (Policy ALL) false heap_nil6).
  - exact I.
  - unfold invalid_parameters. intros [H|[H|[H|H]]];
      [revert H; vm_compute; congruence ..|exact H].
Defined.

(** ** The harmonic vector *)

Lemma elem_of_arange start stop step x :
  0 < step ->
  x ∈ Np.arange start stop step
  <-> start <= x < stop /\ (x - start) mod step = 0.
Proof.
  intros Hstep. unfold Np.arange, range.
  rewrite list_elem_of_fmap. setoid_rewrite elem_of_seqZ. split.
  - intros (k & -> & Hk).
    assert (Hlt : k * step < stop - start).
    { destruct (Z_lt_ge_dec (k * step) (stop - start)) as [H|H]; [exact H|].
      exfalso. assert ((stop - start + step - 1) / step <= k); [|lia].
      apply Z.lt_succ_r, Z.div_lt_upper_bound; nia. }
    split; [nia|].
    replace (start + k * step - start) with (k * step) by lia.
    apply Z.mod_mul. lia.
  - intros (Hx & Hmod). exists ((x - start) / step).
    pose proof (Z.div_mod (x - start) step ltac:(lia)) as Hdm.
    rewrite Hmod in Hdm. split; [lia|]. split.
    + apply Z.div_pos; lia.
    + apply Z.lt_le_trans with ((x - start) / step + 1); [lia|].
      apply Z.div_le_lower_bound; [lia|]. nia.
Qed.

Lemma arange_sorted start stop step :
  0 < step -> StronglySorted Z.lt (Np.arange start stop step).
Proof.
  intros Hstep. unfold Np.arange, range.
  apply (StronglySorted_fmap _ Z.lt Z.lt); [intros x y Hxy; nia|].
  generalize 0 at 1. generalize ((stop - start + step - 1) / step).
  intros n m. unfold seqZ.
  apply (StronglySorted_fmap _ lt Z.lt); [intros x y Hxy; lia|].
  generalize 0%nat. induction (Z.to_nat n) as [|k IH]; intros a; simpl.
  - constructor.
  - constructor; [apply IH|]. apply Forall_forall. intros y Hy.
    apply list_elem_of_In, in_seq in Hy. lia.
Qed.

(** The first harmonic and the parity that a policy asks for. *)
Lemma compute_harmonics_arange p f sr l :
  compute_harmonics p f sr = Ok l ->
  l = Np.arange (match p with ODD => 3 | _ => 2 end)
        (Qfloor (sr / 2 / f) + 1)
        (match p with ALL => 1 | _ => 2 end).
Proof.
  unfold compute_harmonics, fdiv.
  destruct (Qeq_bool f 0); [destruct p; discriminate|].
  destruct p; intros [= <-]; reflexivity.
Qed.

Lemma compute_harmonics_elem_of p f sr l x :
  compute_harmonics p f sr = Ok l ->
  (x ∈ l <->
   2 <= x <= Qfloor (sr / 2 / f) /\
   match p with
   | ALL => True
   | ODD => Z.odd x = true
   | EVEN => Z.even x = true
   end).
Proof.
  intros E. rewrite (compute_harmonics_arange p f sr l E).
  destruct p; rewrite elem_of_arange by lia.
  - rewrite Z.mod_1_r. intuition lia.
  - rewrite Zmod_odd.
    replace (Z.odd (x - 3)) with (negb (Z.odd x)).
    2:{ replace (x - 3) with (x + (-3)) by lia. rewrite Z.odd_add.
        simpl. destruct (Z.odd x); reflexivity. }
    destruct (Z.odd x) eqn:Eo; simpl; [|intuition (try lia; discriminate)].
    split; [intuition lia|]. intros [Hx _]. split; [|reflexivity].
    destruct (Z.eq_dec x 2) as [->|]; [discriminate|lia].
  - rewrite Zmod_odd.
    replace (Z.odd (x - 2)) with (Z.odd x).
    2:{ replace (x - 2) with (x + (-2)) by lia. rewrite Z.odd_add.
        simpl. destruct (Z.odd x); reflexivity. }
    rewrite <- Z.negb_odd.
    destruct (Z.odd x); simpl; intuition (try lia; discriminate).
Qed.

(** X10: the vector a policy gives holds exactly the multipliers from 2 to
    the floor of Nyquist over the fundamental: all of them for [ALL], the
    odd ones for [ODD], the even ones for [EVEN]; it is strictly
    ascending. *)
Theorem compute_harmonics_elements p f sr l :
  compute_harmonics p f sr = Ok l ->
  StronglySorted Z.lt l /\
  forall x,
    x ∈ l <->
    2 <= x <= Qfloor (sr / 2 / f) /\
    match p with
    | ALL => True
    | ODD => Z.odd x = true
    | EVEN => Z.even x = true
    end.
Proof.
  intros E. split.
  - rewrite (compute_harmonics_arange p f sr l E).
    apply arange_sorted. destruct p; lia.
  - intros x. apply compute_harmonics_elem_of, E.
Qed.

Lemma compute_harmonics_elements_witness :
  StronglySorted Z.lt [3; 5; 7] /\
  forall x,
    x ∈ [3; 5; 7] <->
    2 <= x <= Qfloor (48000 / 2 / 3000) /\ Z.odd x = true.
Proof.
  apply (compute_harmonics_elements ODD 3000 48000 [3; 5; 7]).
  vm_compute. reflexivity.
Defined.

Lemma StronglySorted_lt_NoDup l : StronglySorted Z.lt l -> NoDup l.
Proof.
  induction 1 as [|x l _ IH Hx]; constructor; [|exact IH].
  intros Hin. rewrite Forall_forall in Hx. specialize (Hx x Hin). lia.
Qed.

(** X11: the vector of [ALL] is that of [EVEN] and that of [ODD] put
    together, up to the order of the elements. *)
Theorem compute_harmonics_all_even_odd f sr all even odd :
  compute_harmonics ALL f sr = Ok all ->
  compute_harmonics EVEN f sr = Ok even ->
  compute_harmonics ODD f sr = Ok odd ->
  all ≡ₚ even ++ odd.
Proof.
  intros Ea Ee Eo.
  pose proof (compute_harmonics_elem_of ALL f sr all) as Ha.
  pose proof (compute_harmonics_elem_of EVEN f sr even) as He.
  pose proof (compute_harmonics_elem_of ODD f sr odd) as Ho.
  apply NoDup_Permutation.
  - apply StronglySorted_lt_NoDup.
    rewrite (compute_harmonics_arange _ _ _ _ Ea). apply arange_sorted. lia.
  - apply NoDup_app. split; [|split].
    + apply StronglySorted_lt_NoDup.
      rewrite (compute_harmonics_arange _ _ _ _ Ee). apply arange_sorted. lia.
    + intros x Hx Hx'. apply He in Hx as [_ Hev]; [|exact Ee].
      apply Ho in Hx' as [_ Hod]; [|exact Eo].
      rewrite <- Z.negb_odd, Hod in Hev. discriminate.
    + apply StronglySorted_lt_NoDup.
      rewrite (compute_harmonics_arange _ _ _ _ Eo). apply arange_sorted. lia.
  - intros x. rewrite elem_of_app, (Ha x Ea), (He x Ee), (Ho x Eo).
    rewrite <- Z.negb_odd. destruct (Z.odd x); simpl; intuition discriminate.
Qed.

Lemma compute_harmonics_all_even_odd_witness :
  [2; 3; 4; 5; 6; 7; 8] ≡ₚ [2; 4; 6; 8] ++ [3; 5; 7].
Proof.
  apply (compute_harmonics_all_even_odd 3000 48000); vm_compute; reflexivity.
Defined.

Lemma sort_permutation_eq l l' : l ≡ₚ l' -> Np.sort l = Np.sort l'.
Proof.
  intros Hp. unfold Np.sort.
  apply (Sorted_unique Z.le); try apply Sorted_merge_sort; try apply _.
  rewrite !merge_sort_Permutation. exact Hp.
Qed.

Lemma sort_sorted l : StronglySorted Z.lt l -> Np.sort l = l.
Proof.
  intros Hs. unfold Np.sort.
  apply (Sorted_unique Z.le); try apply _.
  - apply Sorted_merge_sort. apply _.
  - apply StronglySorted_Sorted.
    induction Hs as [|x l _ IH Hx]; constructor; [exact IH|].
    eapply Forall_impl; [exact Hx|]. intros y Hy. simpl in Hy. lia.
  - apply merge_sort_Permutation.
Qed.

Lemma build_harmonics_permutation sr f l l' :
  l ≡ₚ l' ->
  build_harmonics sr f (Explicit l) = build_harmonics sr f (Explicit l').
Proof.
  intros Hp. unfold build_harmonics.
  destruct (decide (Forall int32 l)) as [H32|H32].
  2:{ rewrite (array_int32_overflow l H32).
      rewrite (array_int32_overflow l') by (rewrite <- Hp; exact H32).
      reflexivity. }
  rewrite (array_int32_fits l H32).
  rewrite (array_int32_fits l') by (rewrite <- Hp; exact H32).
  cbn [mbind result_bind].
  rewrite (sort_permutation_eq l l' Hp).
  assert (len l = len l') as -> by (unfold len; rewrite Hp; reflexivity).
  destruct (len l' >? 0) eqn:E; [reflexivity|].
  destruct (decide (l' = [])) as [->|Hne].
  - apply Permutation_nil_r in Hp. subst l. reflexivity.
  - apply len_pos_nonempty in Hne. congruence.
Qed.

Lemma snr_by_harmonics magnitude sr f a b excl h :
  build_harmonics sr f a = build_harmonics sr f b ->
  Snr.snr magnitude sr f a excl h = Snr.snr magnitude sr f b excl h.
Proof.
  intros E. rewrite !snr_build_harmonics. unfold_M. rewrite E. reflexivity.
Qed.

Lemma sinad_by_harmonics nl cl sr f a b h :
  build_harmonics sr f a = build_harmonics sr f b ->
  Sinad.sinad nl cl sr f a h = Sinad.sinad nl cl sr f b h.
Proof.
  intros E. rewrite !sinad_build_harmonics. unfold_M. rewrite E. reflexivity.
Qed.

(** X12: the order in which the caller lists the harmonics does not matter:
    [snr] and [sinad] do the same on two explicit lists that hold the same
    multipliers. *)
Theorem snr_sinad_harmonics_order magnitude nl cl sr f l l' excl h :
  l ≡ₚ l' ->
  Snr.snr magnitude sr f (Explicit l) excl h
  = Snr.snr magnitude sr f (Explicit l') excl h /\
  Sinad.sinad nl cl sr f (Explicit l) h
  = Sinad.sinad nl cl sr f (Explicit l') h.
Proof.
  intros Hp. split.
  - apply snr_by_harmonics, build_harmonics_permutation, Hp.
  - apply sinad_by_harmonics, build_harmonics_permutation, Hp.
Qed.

Lemma snr_sinad_harmonics_order_witness :
  Snr.snr 1%positive 256 32 (Explicit [3; 2]) false heap9
  = Snr.snr 1%positive 256 32 (Explicit [2; 3]) false heap9 /\
  Sinad.sinad 1%positive 2%positive 256 32 (Explicit [3; 2]) heap9
  = Sinad.sinad 1%positive 2%positive 256 32 (Explicit [2; 3]) heap9.
Proof.
  apply snr_sinad_harmonics_order. apply perm_swap.
Defined.

Lemma build_harmonics_policy p sr f l :
  compute_harmonics p f sr = Ok l -> Forall int32 l ->
  build_harmonics sr f (Explicit l) = build_harmonics sr f (Policy p).
Proof.
  intros E H32. unfold build_harmonics.
  destruct (Qle_bool sr 0); [reflexivity|].
  destruct (Qle_bool f 0) eqn:Ef; [reflexivity|].
  destruct (Qgtb f (sr / 2)); [reflexivity|]. cbn [orb].
  rewrite E, (array_int32_fits l H32). cbn [mbind result_bind].
  destruct (len l >? 0) eqn:El; [|reflexivity].
  apply len_pos_nonempty in El.
  pose proof (compute_harmonics_elem_of p f sr l) as Hin.
  destruct (sort_first l El) as (lowest & -> & Hl & _).
  cbn [mbind result_bind].
  apply Hin in Hl as [Hl _]; [|exact E].
  destruct (Z.ltb_spec lowest 2) as [Hlt|_]; [lia|].
  rewrite fdiv_nonzero.
  2:{ intros Hf. apply Qle_bool_iff in Hf. congruence. }
  cbn [mbind result_bind].
  destruct (sort_last l El) as (highest & -> & Hh & _).
  cbn [mbind result_bind].
  apply Hin in Hh as [Hh _]; [|exact E].
  destruct (Z.gtb_spec highest (Qfloor (sr / 2 / f))) as [Hgt|_]; [lia|].
  f_equal. apply sort_sorted.
  rewrite (compute_harmonics_arange p f sr l E).
  apply arange_sorted. destruct p; lia.
Qed.

(** X13: a policy and the vector it stands for are interchangeable: [snr]
    and [sinad] do the same on [ALL], [ODD] or [EVEN] as on the explicit
    list that [compute_harmonics] gives for it, which therefore passes the
    checks on explicit lists (a list is converted to [np.int32], so its
    multipliers have to fit). *)
Theorem snr_sinad_policy_as_list magnitude nl cl p sr f l excl h :
  compute_harmonics p f sr = Ok l -> Forall int32 l ->
  Snr.snr magnitude sr f (Explicit l) excl h
  = Snr.snr magnitude sr f (Policy p) excl h /\
  Sinad.sinad nl cl sr f (Explicit l) h = Sinad.sinad nl cl sr f (Policy p) h.
Proof.
  intros E H32. split.
  - apply snr_by_harmonics, build_harmonics_policy; assumption.
  - apply sinad_by_harmonics, build_harmonics_policy; assumption.
Qed.

Lemma snr_sinad_policy_as_list_witness :
  Snr.snr 1%positive 256 32 (Explicit [2; 3; 4]) false heap9
  = Snr.snr 1%positive 256 32 (Policy ALL) false heap9 /\
  Sinad.sinad 1%positive 2%positive 256 32 (Explicit [2; 3; 4]) heap9
  = Sinad.sinad 1%positive 2%positive 256 32 (Policy ALL) heap9.
Proof.
  apply snr_sinad_policy_as_list; [vm_compute; reflexivity|].
  repeat constructor; unfold int32; lia.
Defined.

(** ** The partition of the power *)

(** X14: in a run of [inner_snr] where every bin of the skirts lies inside
    the periodogram and none of them is bin 0, the noise power is the sum of
    the periodogram over the bins outside the skirts of the fundamental and
    of the harmonics, DC apart. *)
Theorem snr_noise_power_outside_skirts ps sr f hs excl v :
  Snr.inner_snr_locals ps sr f hs excl = Ok v ->
  Forall (fun b => 0 <= b < len ps)
    (Snr.fund_peak_bins v ++ Snr.harmonics_bins v) ->
  0 ∉ Snr.fund_peak_bins v ++ Snr.harmonics_bins v ->
  (Snr.noise_power v
   == sum_over ps
        (noise_bins (len ps) (Snr.fund_peak_bins v ++ Snr.harmonics_bins v)))%Q.
Proof.
  intros H Hin H0.
  destruct (inner_snr_locals_ok _ _ _ _ _ _ H)
    as (b & s & n & _ & _ & _ & _ & _ & _ & Ed & En & Ep).
  rewrite Ed in En.
  destruct (delete_noise_power ps _ Hin H0) as (n' & En' & Hs).
  rewrite Ep. replace n with n' by congruence. exact Hs.
Qed.

Lemma snr_noise_power_outside_skirts_witness :
  exists v,
    Snr.inner_snr_locals (Np.square magnitude9) 256 32 [2] false = Ok v /\
    (Snr.noise_power v
     == sum_over (Np.square magnitude9)
          (noise_bins (len (Np.square magnitude9))
             (Snr.fund_peak_bins v ++ Snr.harmonics_bins v)))%Q.
Proof.
  eexists. split; [vm_compute; reflexivity|].
  apply (snr_noise_power_outside_skirts (Np.square magnitude9) 256 32 [2] false).
  - vm_compute. reflexivity.
  - apply Forall_forall. intros b Hb. apply list_elem_of_In in Hb.
    vm_compute in Hb. unfold len. simpl length.
    repeat (destruct Hb as [<-|Hb]; [lia|]). destruct Hb.
  - intros Hb. apply list_elem_of_In in Hb. vm_compute in Hb.
    repeat (destruct Hb as [Hb|Hb]; [discriminate Hb|]). destruct Hb.
Defined.

(** X15: whether the harmonics are excluded from the signal or not, the
    skirts found, the bins deleted for the noise and the noise power are the
    same; only the signal bins differ. *)
Theorem snr_noise_ignores_flag ps sr f hs v1 v2 :
  Snr.inner_snr_locals ps sr f hs true = Ok v1 ->
  Snr.inner_snr_locals ps sr f hs false = Ok v2 ->
  Snr.fund_peak_bins v1 = Snr.fund_peak_bins v2 /\
  Snr.harmonics_bins v1 = Snr.harmonics_bins v2 /\
  Snr.to_delete v1 = Snr.to_delete v2 /\
  Snr.noise_power v1 = Snr.noise_power v2 /\
  Snr.signal_bins v1 = Snr.fund_peak_bins v1 /\
  Snr.signal_bins v2 = Snr.signal_bins v1 ++ Snr.harmonics_bins v1.
Proof.
  intros H1 H2.
  destruct (inner_snr_locals_ok _ _ _ _ _ _ H1)
    as (b1 & s1 & n1 & Eb1 & Ef1 & Eh1 & Es1 & _ & _ & Ed1 & En1 & Ep1).
  destruct (inner_snr_locals_ok _ _ _ _ _ _ H2)
    as (b2 & s2 & n2 & Eb2 & Ef2 & Eh2 & Es2 & _ & _ & Ed2 & En2 & Ep2).
  assert (b1 = b2) by congruence. subst b2.
  assert (Hf : Snr.fund_peak_bins v1 = Snr.fund_peak_bins v2) by congruence.
  assert (Hh : Snr.harmonics_bins v1 = Snr.harmonics_bins v2) by congruence.
  assert (Hd : Snr.to_delete v1 = Snr.to_delete v2) by congruence.
  split; [exact Hf|]. split; [exact Hh|]. split; [exact Hd|].
  split; [rewrite Hd in En1; congruence|].
  split; [exact Es1|]. rewrite Es2, Es1, Hf, Hh. reflexivity.
Qed.

Lemma snr_noise_ignores_flag_witness :
  exists v1 v2,
    Snr.inner_snr_locals (Np.square magnitude9) 256 32 [2] true = Ok v1 /\
    Snr.inner_snr_locals (Np.square magnitude9) 256 32 [2] false = Ok v2 /\
    Snr.noise_power v1 = Snr.noise_power v2.
Proof.
  eexists _, _. split; [vm_compute; reflexivity|].
  split; [vm_compute; reflexivity|].
  eapply (snr_noise_ignores_flag (Np.square magnitude9) 256 32 [2]);
    vm_compute; reflexivity.
Defined.



(** X17: in a run of [inner_sinad] where the skirt of the fundamental lies
    inside the spectrum and does not hold bin 0, the noise-and-distortion
    power is the sum, over the bins outside that skirt and DC apart, of the
    squared differences between the scaled noisy and the clean magnitudes;
    the bins of the harmonics are part of that sum. *)
Theorem sinad_nad_power_outside_skirt nl cl sr f hs h v h' :
  Sinad.inner_sinad_locals nl cl sr f hs h = (Ok v, h') ->
  Forall (fun b => 0 <= b < len (Sinad.psd_noise v)) (Sinad.fund_peak_bins v) ->
  0 ∉ Sinad.fund_peak_bins v ->
  (exists noisy' clean' noise,
     h' !! nl = Some noisy' /\ h' !! cl = Some clean' /\
     Np.subtract noisy' clean' = Ok noise /\
     Sinad.psd_noise v = Np.square noise) /\
  (Sinad.nad_power v
   == sum_over (Sinad.psd_noise v)
        (noise_bins (len (Sinad.psd_noise v)) (Sinad.fund_peak_bins v)))%Q.
Proof.
  intros H Hin H0.
  destruct (inner_sinad_locals_ok _ _ _ _ _ _ _ _ H)
    as (noisy & clean & fund_bin & first & last & noisy' & clean' & noise
        & signal & nad & _ & _ & _ & _ & _ & _ & _ & _ & _ & _ & Eh & Ec'
        & Esub & _ & Epn & _ & _ & _ & _ & Enad & Ep).
  split.
  - exists noisy', clean', noise. rewrite Eh at 1. rewrite lookup_insert_eq.
    auto.
  - destruct (delete_noise_power _ _ Hin H0) as (nad' & Enad' & Hs).
    rewrite Ep. replace nad with nad' by congruence. exact Hs.
Qed.

Lemma sinad_nad_power_outside_skirt_witness :
  exists v h',
    Sinad.inner_sinad_locals 1%positive 2%positive 256 32 [2] heap9
    = (Ok v, h') /\
    (Sinad.nad_power v
     == sum_over (Sinad.psd_noise v)
          (noise_bins (len (Sinad.psd_noise v)) (Sinad.fund_peak_bins v)))%Q.
Proof.
  eexists _, _. split; [vm_compute; reflexivity|].
  match goal with |- (Sinad.nad_power ?x == _)%Q => set (v := x) end.
  eapply (sinad_nad_power_outside_skirt 1%positive 2%positive 256 32 [2]
            heap9 v).
  - vm_compute. reflexivity.
  - apply Forall_forall. intros b Hb. apply list_elem_of_In in Hb.
    vm_compute in Hb. unfold len. simpl length.
    repeat (destruct Hb as [<-|Hb]; [lia|]). destruct Hb.
  - intros Hb. apply list_elem_of_In in Hb. vm_compute in Hb.
    repeat (destruct Hb as [Hb|Hb]; [discriminate Hb|]). destruct Hb.
Defined.

(** X18: the harmonics only enter the signal power: two runs of
    [inner_sinad] from the same heap with different harmonics (say with and
    without them) find the same skirt of the fundamental, use the same gain,
    leave the same heap and have the same noise-and-distortion power. *)
Theorem sinad_harmonics_only_in_signal nl cl sr f hs1 hs2 h v1 h1 v2 h2 :
  Sinad.inner_sinad_locals nl cl sr f hs1 h = (Ok v1, h1) ->
  Sinad.inner_sinad_locals nl cl sr f hs2 h = (Ok v2, h2) ->
  h1 = h2 /\
  Sinad.fund_peak_bins v1 = Sinad.fund_peak_bins v2 /\
  Sinad.mag_ratio v1 = Sinad.mag_ratio v2 /\
  Sinad.psd_noise v1 = Sinad.psd_noise v2 /\
  Sinad.nad_power v1 = Sinad.nad_power v2.
Proof.
  intros H1 H2.
  destruct (inner_sinad_locals_ok _ _ _ _ _ _ _ _ H1)
    as (n1 & c1 & b1 & f1 & l1 & n1' & c1' & noise1 & s1 & nad1
        & En1 & Ec1 & Eb1 & Ef1 & Efi1 & Ela1 & Esn1 & Esc1 & Er1 & -> & Eh1
        & Ec1' & Esub1 & _ & Epn1 & _ & _ & _ & _ & Enad1 & Ep1).
  destruct (inner_sinad_locals_ok _ _ _ _ _ _ _ _ H2)
    as (n2 & c2 & b2 & f2 & l2 & n2' & c2' & noise2 & s2 & nad2
        & En2 & Ec2 & Eb2 & Ef2 & Efi2 & Ela2 & Esn2 & Esc2 & Er2 & -> & Eh2
        & Ec2' & Esub2 & _ & Epn2 & _ & _ & _ & _ & Enad2 & Ep2).
  assert (n2 = n1) as -> by congruence.
  assert (c2 = c1) as -> by congruence.
  assert (b2 = b1) as -> by congruence.
  assert (Hf : Sinad.fund_peak_bins v1 = Sinad.fund_peak_bins v2) by congruence.
  rewrite <- Hf in *.
  assert (f2 = f1) as -> by congruence.
  assert (l2 = l1) as -> by congruence.
  assert (Hr : Sinad.mag_ratio v1 = Sinad.mag_ratio v2).
  { rewrite Esn1, Esc1 in Er1. rewrite Esn2, Esc2 in Er2. congruence. }
  rewrite <- Hr in *.
  assert (Hh : h1 = h2) by congruence. subst h2.
  assert (c2' = c1') as -> by congruence.
  assert (noise2 = noise1) as -> by congruence.
  assert (Hn : Sinad.psd_noise v1 = Sinad.psd_noise v2) by congruence.
  rewrite <- Hn in *.
  assert (nad2 = nad1) as -> by congruence.
  repeat split; congruence.
Qed.

Lemma sinad_harmonics_only_in_signal_witness :
  exists v1 h1 v2 h2,
    Sinad.inner_sinad_locals 1%positive 2%positive 256 32 [2] heap9
    = (Ok v1, h1) /\
    Sinad.inner_sinad_locals 1%positive 2%positive 256 32 [] heap9
    = (Ok v2, h2) /\
    Sinad.nad_power v1 = Sinad.nad_power v2.
Proof.
  eexists _, _, _, _. split; [vm_compute; reflexivity|].
  split; [vm_compute; reflexivity|].
  eapply (sinad_harmonics_only_in_signal 1%positive 2%positive 256 32 [2] []
            heap9); vm_compute; reflexivity.
Defined.



(** X20: the signal power of [inner_sinad] is taken from the clean power
    spectrum, over the skirt of the fundamental followed by the skirts of
    the harmonics, a bin as often as those skirts list it; the skirt of the
    fundamental is found in the noisy magnitudes as the caller passed
    them. *)
Theorem sinad_signal_power nl cl sr f hs h v h' :
  Sinad.inner_sinad_locals nl cl sr f hs h = (Ok v, h') ->
  (exists noisy fund_bin,
     h !! nl = Some noisy /\
     find_peak_bin_from_freq f noisy sr default_search_width_hz = Ok fund_bin /\
     find_peak_bins fund_bin noisy default_search_width
     = Ok (Sinad.fund_peak_bins v)) /\
  (Sinad.signal_power v
   == sum_with_multiplicity (Sinad.psd_clean v)
        (Sinad.fund_peak_bins v ++ Sinad.harmonics_bins v))%Q.
Proof.
  intros H.
  destruct (inner_sinad_locals_ok _ _ _ _ _ _ _ _ H)
    as (noisy & clean & fund_bin & first & last & noisy' & clean' & noise
        & signal & nad & En & _ & Eb & Ef & _ & _ & _ & _ & _ & _ & _ & _
        & _ & _ & _ & _ & _ & Esig & Esp & _).
  split; [exists noisy, fund_bin; auto|].
  rewrite Esp, (take_ok _ _ _ Esig). apply sum_over_multiplicity.
Qed.

Lemma sinad_signal_power_witness :
  exists v h',
    Sinad.inner_sinad_locals 1%positive 2%positive 256 32 [2] heap9
    = (Ok v, h') /\
    (Sinad.signal_power v
     == sum_with_multiplicity (Sinad.psd_clean v)
          (Sinad.fund_peak_bins v ++ Sinad.harmonics_bins v))%Q.
Proof.
  eexists _, _. split; [vm_compute; reflexivity|].
  match goal with |- (Sinad.signal_power ?x == _)%Q => set (v := x) end.
  eapply (sinad_signal_power 1%positive 2%positive 256 32 [2] heap9 v).
  vm_compute. reflexivity.
Defined.

Lemma slice_same {A} (s : list A) a : slice s a a = [].
Proof. unfold slice. rewrite Z.sub_diag. reflexivity. Qed.

Lemma skirt_last peak_idx l r :
  0 <= r ->
  getitem ((peak_idx :: ((fun i => peak_idx - i) <$> seqZ 1 l))
           ++ (peak_idx :: ((fun i => peak_idx + i) <$> seqZ 1 r))) (-1)
  = Ok (peak_idx + r).
Proof.
  intros Hr. destruct (Z.eq_dec r 0) as [->|Hne].
  - rewrite (seqZ_nil 1 0) by lia. simpl fmap.
    replace (peak_idx + 0) with peak_idx by lia. apply getitem_last.
  - replace r with ((r - 1) + 1) at 1 by lia.
    rewrite (seqZ_app 1 (r - 1) 1) by lia.
    rewrite (seqZ_cons (1 + (r - 1)) 1), (seqZ_nil _ (Z.pred 1)) by lia.
    rewrite fmap_app. simpl fmap.
    replace (peak_idx + (1 + (r - 1))) with (peak_idx + r) by lia.
    rewrite app_comm_cons, app_assoc. apply getitem_last.
Qed.

(** X21: in a run of [inner_sinad] that reaches its last line from a
    fundamental bin inside the spectrum, the two sums of the gain run over
    the bins from the fundamental bin up to, but not including, the highest
    bin of its skirt, which lies above the fundamental bin: the bins of the
    skirt below the seed, and its highest bin, are not summed. *)
Theorem sinad_gain_span nl cl sr f hs h v h' noisy clean fund_bin :
  Sinad.inner_sinad_locals nl cl sr f hs h = (Ok v, h') ->
  h !! nl = Some noisy -> h !! cl = Some clean ->
  find_peak_bin_from_freq f noisy sr default_search_width_hz = Ok fund_bin ->
  0 <= fund_bin < len noisy ->
  exists last,
    fund_bin < last < len noisy /\
    last ∈ Sinad.fund_peak_bins v /\
    (forall b, b ∈ Sinad.fund_peak_bins v -> b <= last) /\
    Sinad.mag_sum_noised v = Np.sum (slice noisy fund_bin last) /\
    Sinad.mag_sum_clean v = Np.sum (slice clean fund_bin last).
Proof.
  intros H Hn Hc Hb Hin.
  destruct (inner_sinad_locals_ok _ _ _ _ _ _ _ _ H)
    as (noisy0 & clean0 & fund_bin0 & first & last & noisy' & clean' & noise
        & signal & nad & En & Ec & Eb & Ef & Efirst & Elast & Esn & Esc & Er
        & _).
  assert (noisy0 = noisy) as -> by congruence.
  assert (clean0 = clean) as -> by congruence.
  assert (fund_bin0 = fund_bin) as -> by congruence.
  destruct (find_peak_bins_run noisy fund_bin default_search_width Hin)
    as (l & r & Hl & Hlp & Hr & Hrp & E' & _); [reflexivity|].
  assert (Ebins : Sinad.fund_peak_bins v
            = (fund_bin :: ((fun i => fund_bin - i) <$> seqZ 1 l))
              ++ (fund_bin :: ((fun i => fund_bin + i) <$> seqZ 1 r)))
    by congruence.
  rewrite Ebins in Efirst, Elast |- *.
  rewrite skirt_last in Elast by lia. injection Elast as <-.
  simpl app in Efirst. rewrite getitem_first in Efirst.
  injection Efirst as <-.
  exists (fund_bin + r).
  assert (Hr0 : r <> 0).
  { intros ->. replace (fund_bin + 0) with fund_bin in * by lia.
    rewrite slice_same in Esc. rewrite Esc in Er. discriminate Er. }
  split; [lia|]. split; [apply elem_of_skirt; lia|].
  split; [intros b Hb'; apply elem_of_skirt in Hb'; lia|].
  split; assumption.
Qed.

Lemma sinad_gain_span_witness :
  exists v h' last,
    Sinad.inner_sinad_locals 1%positive 2%positive 128 32 [] heap6
    = (Ok v, h') /\
    2 < last < len noisy6 /\
    Sinad.mag_sum_noised v = Np.sum (slice noisy6 2 last).
Proof.
  eexists _, _.
  match goal with |- exists last, ?run = (Ok ?x, ?y) /\ _ =>
    assert (E : run = (Ok x, y)) by (vm_compute; reflexivity)
  end.
  destruct (sinad_gain_span _ _ _ _ _ _ _ _ noisy6 clean6 2 E)
    as (last & Hl & _ & _ & Hs & _);
    try (vm_compute; reflexivity).
  { unfold len. simpl. lia. }
  exists last. split; [exact E|]. split; assumption.
Defined.

(** ** Edges *)

(** X22: [is_peak] reads its three bins unchecked.  On the slice that the
    search cuts around a bin [k] with both neighbours in the array it
    answers [true] exactly when [k] is strictly higher than each, whatever
    lies beyond the array.  Around the last bin the slice has two floats and
    the third read falls behind the array: the answer is that of comparing
    bin [k] with bin [k - 1] and with the float that follows the array. *)
Theorem is_peak_on_slice beyond s k :
  1 <= k ->
  (k + 1 < len s ->
   (is_peak (view_beyond beyond s (k - 1)) (slice s (k - 1) (k + 2)) = true
    <-> strict_peak s k)) /\
  (k + 1 = len s ->
   is_peak (view_beyond beyond s (k - 1)) (slice s (k - 1) (k + 2))
   = Qgtb (value_at s k) (value_at s (k - 1))
     && Qgtb (value_at s k) (beyond (len s))).
Proof.
  intros Hk. split; intros Hend.
  - apply is_peak_strict_peak; assumption.
  - apply is_peak_last_bin; assumption.
Qed.

Lemma is_peak_on_slice_witness :
  (1 + 1 < len [7; 9]%Q ->
   (is_peak (view_beyond zeros [7; 9]%Q (1 - 1)) (slice [7; 9]%Q (1 - 1) (1 + 2))
    = true <-> strict_peak [7; 9]%Q 1)) /\
  (1 + 1 = len [7; 9]%Q ->
   is_peak (view_beyond zeros [7; 9]%Q (1 - 1)) (slice [7; 9]%Q (1 - 1) (1 + 2))
   = Qgtb (value_at [7; 9]%Q 1) (value_at [7; 9]%Q (1 - 1))
     && Qgtb (value_at [7; 9]%Q 1) (zeros (len [7; 9]%Q))).
Proof. apply (is_peak_on_slice zeros [7; 9]%Q 1). lia. Defined.

(** ** What the entry points depend on *)

Lemma snr_depends_on_its_array magnitude sr f hs excl h1 h2 :
  h1 !! magnitude = h2 !! magnitude ->
  (Snr.snr magnitude sr f hs excl h1).1 = (Snr.snr magnitude sr f hs excl h2).1.
Proof.
  intros E. rewrite !snr_build_harmonics. unfold_M.
  destruct (build_harmonics sr f hs); [|reflexivity].
  unfold read. rewrite E. destruct (h2 !! magnitude); reflexivity.
Qed.

Lemma inner_sinad_depends_on_its_arrays nl cl sr f hs h1 h2 :
  h1 !! nl = h2 !! nl -> h1 !! cl = h2 !! cl ->
  (Sinad.inner_sinad nl cl sr f hs h1).1 = (Sinad.inner_sinad nl cl sr f hs h2).1 /\
  (Sinad.inner_sinad nl cl sr f hs h1).2 !! nl
  = (Sinad.inner_sinad nl cl sr f hs h2).2 !! nl.
Proof.
  intros En Ec.
  assert (Hcl : forall a, <[nl := a]> h1 !! cl = <[nl := a]> h2 !! cl).
  { intros a. destruct (decide (nl = cl)) as [->|Hne].
    - rewrite !lookup_insert_eq. reflexivity.
    - rewrite !lookup_insert_ne by exact Hne. congruence. }
  unfold Sinad.inner_sinad, Sinad.inner_sinad_locals.
  unfold mbind, M_bind, mret, M_ret, lift, typed, read, write.
  rewrite En.
  destruct (h2 !! nl) as [noisy|] eqn:En2;
    [|simpl; split; [reflexivity|congruence]].
  cbv beta iota. rewrite Ec.
  destruct (h2 !! cl) as [clean|] eqn:Ec2;
    [|simpl; split; [reflexivity|congruence]].
  cbv beta iota. rewrite ?En, ?En2. cbv beta iota.
  destruct (find_peak_bin_from_freq f noisy sr default_search_width_hz)
    as [fund_bin|e]; [|simpl; split; [reflexivity|congruence]].
  destruct (find_peak_bins fund_bin noisy default_search_width)
    as [fund|e]; [|simpl; split; [reflexivity|congruence]].
  destruct (getitem fund 0) as [first|e];
    [|simpl; split; [reflexivity|congruence]].
  destruct (getitem fund (-1)) as [last|e];
    [|simpl; split; [reflexivity|congruence]].
  rewrite ?Ec, ?Ec2. cbv beta iota.
  destruct (fdiv _ _) as [ratio|e]; [|simpl; split; [reflexivity|congruence]].
  rewrite !lookup_insert_eq, Hcl.
  destruct (<[nl := _]> h2 !! cl) as [clean'|];
    [|simpl; rewrite !lookup_insert_eq; auto].
  destruct (Np.subtract _ clean') as [noise|e];
    [|simpl; rewrite !lookup_insert_eq; auto].
  destruct (Sinad.harmonics_loop _ _ sr f hs []) as [harm|e];
    [|simpl; rewrite !lookup_insert_eq; auto].
  destruct (Np.take_ _ _) as [signal|e];
    [|simpl; rewrite !lookup_insert_eq; auto].
  destruct (Np.delete _ _) as [nad|e];
    [|simpl; rewrite !lookup_insert_eq; auto].
  cbn [Sinad.signal_power Sinad.nad_power].
  destruct (fdiv _ _) as [r|e]; simpl; rewrite !lookup_insert_eq; auto.
Qed.

(** X24: [snr] and [sinad] read nothing but the arrays they are given: on
    two heaps that hold the same array at [magnitude], [snr] returns or
    raises the same; on two heaps that hold the same arrays at the noisy and
    the clean location, [sinad] returns or raises the same and leaves the
    same noisy array. *)
Theorem snr_sinad_read_their_arrays_only magnitude nl cl sr f hs excl h1 h2 :
  (h1 !! magnitude = h2 !! magnitude ->
   (Snr.snr magnitude sr f hs excl h1).1
   = (Snr.snr magnitude sr f hs excl h2).1) /\
  (h1 !! nl = h2 !! nl -> h1 !! cl = h2 !! cl ->
   (Sinad.sinad nl cl sr f hs h1).1 = (Sinad.sinad nl cl sr f hs h2).1 /\
   (Sinad.sinad nl cl sr f hs h1).2 !! nl
   = (Sinad.sinad nl cl sr f hs h2).2 !! nl).
Proof.
  split; [apply snr_depends_on_its_array|].
  intros En Ec. rewrite !sinad_run.
  destruct (build_harmonics sr f hs) as [harmonics|e];
    [|simpl; split; [reflexivity|exact En]].
  apply inner_sinad_depends_on_its_arrays; assumption.
Qed.

Lemma snr_sinad_read_their_arrays_only_witness :
  (Sinad.sinad 1%positive 2%positive 128 32 (Explicit []) heap6).1
  = (Sinad.sinad 1%positive 2%positive 128 32 (Explicit [])
       (<[3%positive := []]> heap6)).1.
Proof.
  apply (snr_sinad_read_their_arrays_only 1%positive 1%positive 2%positive
           128 32 (Explicit []) false heap6 (<[3%positive := []]> heap6));
    reflexivity.
Defined.
